(** * Project duplication (pkg/models, [ProjectDuplicate])

    A shallow embedding of [ProjectDuplicate.CanCreate],
    [ProjectDuplicate.Create] and [duplicateTasks], and the properties of
    the duplication that follow from the code.

    The Go code runs against a database session, a file store and a number
    of helpers of the [models] and [files] packages.  All of them are taken
    as parameters (record [Collab]): each is a function of the collaborator
    state that returns its Go results and the next state.  The embedding
    additionally keeps a log of every collaborator call together with its
    arguments and its results, so that "what was inserted" and "which
    handles were opened" are observable. *)

From Stdlib Require Import ZArith.
From stdpp Require Import gmap strings list sorting.

Open Scope Z_scope.

#[local] Set Warnings "-clear-no-such-hyp".

(** ** Errors *)

(** Go's [error] values, by the classes the code distinguishes with its
    [IsErr...] predicates; every other error is [ErrGeneric]. *)
Inductive Err : Type :=
| ErrProjectIdentifierIsNotUnique
| ErrFileIsNotUnsplashFile
| ErrFileDoesNotExist
| ErrUserDoesNotHaveAccessToProject
| ErrGeneric (code : Z).

Definition IsErrProjectIdentifierIsNotUnique (e : Err) : bool :=
  match e with ErrProjectIdentifierIsNotUnique => true | _ => false end.

Definition IsErrFileIsNotUnsplashFile (e : Err) : bool :=
  match e with ErrFileIsNotUnsplashFile => true | _ => false end.

Definition IsErrFileDoesNotExist (e : Err) : bool :=
  match e with ErrFileDoesNotExist => true | _ => false end.

Definition IsErrUserDoesNotHaveAccessToProject (e : Err) : bool :=
  match e with ErrUserDoesNotHaveAccessToProject => true | _ => false end.

(** ** Data model

    The structs are declared elsewhere in the package.  Each record has the
    fields the duplication reads or writes; a row that is copied has one more
    field, [..._Rest], that stands for its remaining columns, which the
    duplication carries over as they are. *)

(** An open file, the value of the field [File] of a [files.File],
    identified by a descriptor number. *)
Definition Handle : Type := Z.

Record Auth : Type := { GetID : Z }.

Record Project : Type := {
  Project_ID : Z;
  Project_Identifier : string;
  Project_OwnerID : Z;
  Project_NamespaceID : Z;
  Project_BackgroundFileID : Z;
  Project_BackgroundBlurHash : string;
  Project_Rest : Z
}.

(** The field [Project] of the struct is [TheProject] here ([Project] is
    the name of the record).  It is a [*Project] that [Create] dereferences
    unconditionally: the embedding covers the calls where it is set, as
    [CanCreate] leaves it. *)
Record ProjectDuplicate : Type := {
  ProjectID : Z;
  NamespaceID : Z;
  TheProject : Project
}.

Record Bucket : Type := { Bucket_ID : Z; Bucket_ProjectID : Z; Bucket_Rest : Z }.

Record Task : Type := {
  Task_ID : Z;
  Task_ProjectID : Z;
  Task_BucketID : Z;
  Task_UID : string;
  Task_Rest : Z
}.

(** [files.File]; [File_File] is the opened content, [None] for nil. *)
Record File : Type := {
  File_ID : Z;
  File_Name : string;
  File_Size : Z;
  File_File : option Handle
}.

Record TaskAttachment : Type := {
  TaskAttachment_ID : Z;
  TaskAttachment_TaskID : Z;
  TaskAttachment_FileID : Z;
  TaskAttachment_File : option File;
  TaskAttachment_Rest : Z
}.

Record LabelTask : Type := { LabelTask_ID : Z; LabelTask_TaskID : Z; LabelTask_Rest : Z }.

Record TaskAssginee : Type := { TaskAssginee_TaskID : Z; TaskAssginee_UserID : Z }.

Record TaskComment : Type := {
  TaskComment_ID : Z;
  TaskComment_TaskID : Z;
  TaskComment_Rest : Z
}.

Record TaskRelation : Type := {
  TaskRelation_ID : Z;
  TaskRelation_TaskID : Z;
  TaskRelation_OtherTaskID : Z;
  TaskRelation_Rest : Z
}.

Record ProjectUser : Type := {
  ProjectUser_ID : Z;
  ProjectUser_ProjectID : Z;
  ProjectUser_Rest : Z
}.

Record TeamProject : Type := {
  TeamProject_ID : Z;
  TeamProject_ProjectID : Z;
  TeamProject_Rest : Z
}.

Record LinkSharing : Type := {
  LinkSharing_ID : Z;
  LinkSharing_ProjectID : Z;
  LinkSharing_Hash : string;
  LinkSharing_Rest : Z
}.

Record UnsplashPhoto : Type := {
  UnsplashPhoto_ID : Z;
  UnsplashPhoto_FileID : Z;
  UnsplashPhoto_Rest : Z
}.

(** Field assignments ([x.F = v] through a pointer). *)

Definition Project_set_ID (v : Z) (p : Project) : Project :=
  {| Project_ID := v; Project_Identifier := Project_Identifier p;
     Project_OwnerID := Project_OwnerID p; Project_NamespaceID := Project_NamespaceID p;
     Project_BackgroundFileID := Project_BackgroundFileID p;
     Project_BackgroundBlurHash := Project_BackgroundBlurHash p;
     Project_Rest := Project_Rest p |}.

Definition Project_set_Identifier (v : string) (p : Project) : Project :=
  {| Project_ID := Project_ID p; Project_Identifier := v;
     Project_OwnerID := Project_OwnerID p; Project_NamespaceID := Project_NamespaceID p;
     Project_BackgroundFileID := Project_BackgroundFileID p;
     Project_BackgroundBlurHash := Project_BackgroundBlurHash p;
     Project_Rest := Project_Rest p |}.

Definition Project_set_OwnerID (v : Z) (p : Project) : Project :=
  {| Project_ID := Project_ID p; Project_Identifier := Project_Identifier p;
     Project_OwnerID := v; Project_NamespaceID := Project_NamespaceID p;
     Project_BackgroundFileID := Project_BackgroundFileID p;
     Project_BackgroundBlurHash := Project_BackgroundBlurHash p;
     Project_Rest := Project_Rest p |}.

Definition Project_set_NamespaceID (v : Z) (p : Project) : Project :=
  {| Project_ID := Project_ID p; Project_Identifier := Project_Identifier p;
     Project_OwnerID := Project_OwnerID p; Project_NamespaceID := v;
     Project_BackgroundFileID := Project_BackgroundFileID p;
     Project_BackgroundBlurHash := Project_BackgroundBlurHash p;
     Project_Rest := Project_Rest p |}.

Definition set_TheProject (p : Project) (ld : ProjectDuplicate) : ProjectDuplicate :=
  {| ProjectID := ProjectID ld; NamespaceID := NamespaceID ld; TheProject := p |}.

Definition Bucket_set_ID (v : Z) (b : Bucket) : Bucket :=
  {| Bucket_ID := v; Bucket_ProjectID := Bucket_ProjectID b; Bucket_Rest := Bucket_Rest b |}.

Definition Bucket_set_ProjectID (v : Z) (b : Bucket) : Bucket :=
  {| Bucket_ID := Bucket_ID b; Bucket_ProjectID := v; Bucket_Rest := Bucket_Rest b |}.

Definition Task_set_ID (v : Z) (t : Task) : Task :=
  {| Task_ID := v; Task_ProjectID := Task_ProjectID t; Task_BucketID := Task_BucketID t;
     Task_UID := Task_UID t; Task_Rest := Task_Rest t |}.

Definition Task_set_ProjectID (v : Z) (t : Task) : Task :=
  {| Task_ID := Task_ID t; Task_ProjectID := v; Task_BucketID := Task_BucketID t;
     Task_UID := Task_UID t; Task_Rest := Task_Rest t |}.

Definition Task_set_BucketID (v : Z) (t : Task) : Task :=
  {| Task_ID := Task_ID t; Task_ProjectID := Task_ProjectID t; Task_BucketID := v;
     Task_UID := Task_UID t; Task_Rest := Task_Rest t |}.

Definition Task_set_UID (v : string) (t : Task) : Task :=
  {| Task_ID := Task_ID t; Task_ProjectID := Task_ProjectID t;
     Task_BucketID := Task_BucketID t; Task_UID := v; Task_Rest := Task_Rest t |}.

Definition TaskAttachment_set_ID (v : Z) (x : TaskAttachment) : TaskAttachment :=
  {| TaskAttachment_ID := v; TaskAttachment_TaskID := TaskAttachment_TaskID x;
     TaskAttachment_FileID := TaskAttachment_FileID x;
     TaskAttachment_File := TaskAttachment_File x;
     TaskAttachment_Rest := TaskAttachment_Rest x |}.

Definition TaskAttachment_set_TaskID (v : Z) (x : TaskAttachment) : TaskAttachment :=
  {| TaskAttachment_ID := TaskAttachment_ID x; TaskAttachment_TaskID := v;
     TaskAttachment_FileID := TaskAttachment_FileID x;
     TaskAttachment_File := TaskAttachment_File x;
     TaskAttachment_Rest := TaskAttachment_Rest x |}.

Definition TaskAttachment_set_FileID (v : Z) (x : TaskAttachment) : TaskAttachment :=
  {| TaskAttachment_ID := TaskAttachment_ID x;
     TaskAttachment_TaskID := TaskAttachment_TaskID x;
     TaskAttachment_FileID := v;
     TaskAttachment_File := TaskAttachment_File x;
     TaskAttachment_Rest := TaskAttachment_Rest x |}.

Definition TaskAttachment_set_File (v : option File) (x : TaskAttachment) : TaskAttachment :=
  {| TaskAttachment_ID := TaskAttachment_ID x;
     TaskAttachment_TaskID := TaskAttachment_TaskID x;
     TaskAttachment_FileID := TaskAttachment_FileID x;
     TaskAttachment_File := v;
     TaskAttachment_Rest := TaskAttachment_Rest x |}.

Definition LabelTask_set_ID (v : Z) (x : LabelTask) : LabelTask :=
  {| LabelTask_ID := v; LabelTask_TaskID := LabelTask_TaskID x;
     LabelTask_Rest := LabelTask_Rest x |}.

Definition LabelTask_set_TaskID (v : Z) (x : LabelTask) : LabelTask :=
  {| LabelTask_ID := LabelTask_ID x; LabelTask_TaskID := v;
     LabelTask_Rest := LabelTask_Rest x |}.

Definition TaskComment_set_ID (v : Z) (x : TaskComment) : TaskComment :=
  {| TaskComment_ID := v; TaskComment_TaskID := TaskComment_TaskID x;
     TaskComment_Rest := TaskComment_Rest x |}.

Definition TaskComment_set_TaskID (v : Z) (x : TaskComment) : TaskComment :=
  {| TaskComment_ID := TaskComment_ID x; TaskComment_TaskID := v;
     TaskComment_Rest := TaskComment_Rest x |}.

Definition TaskRelation_set_ID (v : Z) (x : TaskRelation) : TaskRelation :=
  {| TaskRelation_ID := v; TaskRelation_TaskID := TaskRelation_TaskID x;
     TaskRelation_OtherTaskID := TaskRelation_OtherTaskID x;
     TaskRelation_Rest := TaskRelation_Rest x |}.

Definition TaskRelation_set_TaskID (v : Z) (x : TaskRelation) : TaskRelation :=
  {| TaskRelation_ID := TaskRelation_ID x; TaskRelation_TaskID := v;
     TaskRelation_OtherTaskID := TaskRelation_OtherTaskID x;
     TaskRelation_Rest := TaskRelation_Rest x |}.

Definition TaskRelation_set_OtherTaskID (v : Z) (x : TaskRelation) : TaskRelation :=
  {| TaskRelation_ID := TaskRelation_ID x; TaskRelation_TaskID := TaskRelation_TaskID x;
     TaskRelation_OtherTaskID := v;
     TaskRelation_Rest := TaskRelation_Rest x |}.

Definition ProjectUser_set_ID (v : Z) (x : ProjectUser) : ProjectUser :=
  {| ProjectUser_ID := v; ProjectUser_ProjectID := ProjectUser_ProjectID x;
     ProjectUser_Rest := ProjectUser_Rest x |}.

Definition ProjectUser_set_ProjectID (v : Z) (x : ProjectUser) : ProjectUser :=
  {| ProjectUser_ID := ProjectUser_ID x; ProjectUser_ProjectID := v;
     ProjectUser_Rest := ProjectUser_Rest x |}.

Definition TeamProject_set_ID (v : Z) (x : TeamProject) : TeamProject :=
  {| TeamProject_ID := v; TeamProject_ProjectID := TeamProject_ProjectID x;
     TeamProject_Rest := TeamProject_Rest x |}.

Definition TeamProject_set_ProjectID (v : Z) (x : TeamProject) : TeamProject :=
  {| TeamProject_ID := TeamProject_ID x; TeamProject_ProjectID := v;
     TeamProject_Rest := TeamProject_Rest x |}.

Definition LinkSharing_set_ID (v : Z) (x : LinkSharing) : LinkSharing :=
  {| LinkSharing_ID := v; LinkSharing_ProjectID := LinkSharing_ProjectID x;
     LinkSharing_Hash := LinkSharing_Hash x; LinkSharing_Rest := LinkSharing_Rest x |}.

Definition LinkSharing_set_ProjectID (v : Z) (x : LinkSharing) : LinkSharing :=
  {| LinkSharing_ID := LinkSharing_ID x; LinkSharing_ProjectID := v;
     LinkSharing_Hash := LinkSharing_Hash x; LinkSharing_Rest := LinkSharing_Rest x |}.

Definition LinkSharing_set_Hash (v : string) (x : LinkSharing) : LinkSharing :=
  {| LinkSharing_ID := LinkSharing_ID x; LinkSharing_ProjectID := LinkSharing_ProjectID x;
     LinkSharing_Hash := v; LinkSharing_Rest := LinkSharing_Rest x |}.

Definition UnsplashPhoto_set_ID (v : Z) (x : UnsplashPhoto) : UnsplashPhoto :=
  {| UnsplashPhoto_ID := v; UnsplashPhoto_FileID := UnsplashPhoto_FileID x;
     UnsplashPhoto_Rest := UnsplashPhoto_Rest x |}.

Definition UnsplashPhoto_set_FileID (v : Z) (x : UnsplashPhoto) : UnsplashPhoto :=
  {| UnsplashPhoto_ID := UnsplashPhoto_ID x; UnsplashPhoto_FileID := v;
     UnsplashPhoto_Rest := UnsplashPhoto_Rest x |}.

(** [&Project{ID: id}]: every other field has its zero value. *)
Definition Project_withID (id : Z) : Project :=
  {| Project_ID := id; Project_Identifier := ""; Project_OwnerID := 0;
     Project_NamespaceID := 0; Project_BackgroundFileID := 0;
     Project_BackgroundBlurHash := ""; Project_Rest := 0 |}.

(** [&files.File{ID: id}]. *)
Definition File_withID (id : Z) : File :=
  {| File_ID := id; File_Name := ""; File_Size := 0; File_File := None |}.

(** A read of a Go [map[int64]int64] without the presence flag: the zero
    value when the key is absent. *)
Definition mapGet (m : gmap Z Z) (k : Z) : Z := default 0 (m !! k).

(** ** Collaborators

    Everything the duplication calls and does not define itself: the
    capability checks, the [xorm] session ([Find], [Insert]),
    the [files] package, the helpers of [models] and the random string
    generator.  [S] is the state they share (database, file store, random
    source).  A method with a pointer receiver, or a function that is handed
    a pointer the caller reads again, returns the struct as it leaves it.
    [Task.addNewAssigneeByID] is handed [ld.Project] and is taken to read it
    only.  Left out: the [log.Debugf] calls, and the argument
    [&taskOptions{}] of [getTasksForProjects], which is a constant. *)
Record Collab (S : Type) : Type := {
  Project_CanRead : Project → Auth → S → (Project * bool * Z * option Err) * S;
  Project_CanCreate : Project → Auth → S → (Project * bool * option Err) * S;
  CreateProject : Project → Auth → S → (Project * option Err) * S;
  (* s.Where("project_id = ?", id).Find(&buckets) *)
  FindBuckets : Z → S → (list Bucket * option Err) * S;
  Bucket_Create : Bucket → Auth → S → (Bucket * option Err) * S;
  getTasksForProjects : list Project → Auth → S → (list Task * option Err) * S;
  createTask : Task → Auth → bool → S → (Task * option Err) * S;
  getTaskAttachmentsByTaskIDs : list Z → S → (list TaskAttachment * option Err) * S;
  File_LoadFileMetaByID : File → S → (File * option Err) * S;
  File_LoadFileByID : File → S → (File * option Err) * S;
  TaskAttachment_NewAttachment :
    TaskAttachment → option Handle → string → Z → Auth → S → (TaskAttachment * option Err) * S;
  Handle_Close : Handle → S → option Err * S;
  (* s.In("task_id", ids).Find(&rows) *)
  FindLabelTasks : list Z → S → (list LabelTask * option Err) * S;
  FindAssignees : list Z → S → (list TaskAssginee * option Err) * S;
  FindComments : list Z → S → (list TaskComment * option Err) * S;
  FindRelations : list Z → S → (list TaskRelation * option Err) * S;
  (* s.Insert(row) *)
  InsertLabelTask : LabelTask → S → (LabelTask * option Err) * S;
  InsertComment : TaskComment → S → (TaskComment * option Err) * S;
  InsertRelation : TaskRelation → S → (TaskRelation * option Err) * S;
  Task_addNewAssigneeByID : Task → Z → Project → Auth → S → option Err * S;
  files_Create : option Handle → string → Z → Auth → S → (File * option Err) * S;
  GetUnsplashPhotoByFileID : Z → S → (option UnsplashPhoto * option Err) * S;
  UnsplashPhoto_Save : UnsplashPhoto → S → (UnsplashPhoto * option Err) * S;
  SetProjectBackground : Z → File → string → S → option Err * S;
  (* s.Where("project_id = ?", id).Find(&rows) *)
  FindProjectUsers : Z → S → (list ProjectUser * option Err) * S;
  FindTeamProjects : Z → S → (list TeamProject * option Err) * S;
  FindLinkShares : Z → S → (list LinkSharing * option Err) * S;
  InsertProjectUser : ProjectUser → S → (ProjectUser * option Err) * S;
  InsertTeamProject : TeamProject → S → (TeamProject * option Err) * S;
  InsertLinkSharing : LinkSharing → S → (LinkSharing * option Err) * S;
  (* utils.MakeRandomString(n) *)
  MakeRandomString : Z → S → string * S
}.

Arguments Project_CanRead {S}. Arguments Project_CanCreate {S}.
Arguments CreateProject {S}. Arguments FindBuckets {S}.
Arguments Bucket_Create {S}. Arguments getTasksForProjects {S}.
Arguments createTask {S}. Arguments getTaskAttachmentsByTaskIDs {S}.
Arguments File_LoadFileMetaByID {S}. Arguments File_LoadFileByID {S}.
Arguments TaskAttachment_NewAttachment {S}. Arguments Handle_Close {S}.
Arguments FindLabelTasks {S}. Arguments FindAssignees {S}.
Arguments FindComments {S}. Arguments FindRelations {S}.
Arguments InsertLabelTask {S}. Arguments InsertComment {S}.
Arguments InsertRelation {S}. Arguments Task_addNewAssigneeByID {S}.
Arguments files_Create {S}. Arguments GetUnsplashPhotoByFileID {S}.
Arguments UnsplashPhoto_Save {S}. Arguments SetProjectBackground {S}.
Arguments FindProjectUsers {S}. Arguments FindTeamProjects {S}.
Arguments FindLinkShares {S}. Arguments InsertProjectUser {S}.
Arguments InsertTeamProject {S}. Arguments InsertLinkSharing {S}.
Arguments MakeRandomString {S}.

(** ** The call log

    One event per collaborator call: the arguments as passed, then the
    results as returned. *)
Inductive Event : Type :=
| EvCanRead (p : Project) (a : Auth) (r : Project * bool * Z * option Err)
| EvCanCreate (p : Project) (a : Auth) (r : Project * bool * option Err)
| EvCreateProject (p : Project) (a : Auth) (r : Project * option Err)
| EvFindBuckets (pid : Z) (r : list Bucket * option Err)
| EvBucketCreate (b : Bucket) (a : Auth) (r : Bucket * option Err)
| EvGetTasks (ps : list Project) (a : Auth) (r : list Task * option Err)
| EvCreateTask (t : Task) (a : Auth) (updateAssignees : bool) (r : Task * option Err)
| EvGetAttachments (ids : list Z) (r : list TaskAttachment * option Err)
| EvLoadFileMeta (f : File) (r : File * option Err)
| EvLoadFile (f : File) (r : File * option Err)
| EvNewAttachment (ta : TaskAttachment) (h : option Handle) (name : string) (size : Z)
    (a : Auth) (r : TaskAttachment * option Err)
| EvClose (h : Handle) (r : option Err)
| EvFindLabelTasks (ids : list Z) (r : list LabelTask * option Err)
| EvFindAssignees (ids : list Z) (r : list TaskAssginee * option Err)
| EvFindComments (ids : list Z) (r : list TaskComment * option Err)
| EvFindRelations (ids : list Z) (r : list TaskRelation * option Err)
| EvInsertLabelTask (lt : LabelTask) (r : LabelTask * option Err)
| EvInsertComment (tc : TaskComment) (r : TaskComment * option Err)
| EvInsertRelation (tr : TaskRelation) (r : TaskRelation * option Err)
| EvAddAssignee (t : Task) (uid : Z) (p : Project) (a : Auth) (r : option Err)
| EvFilesCreate (h : option Handle) (name : string) (size : Z) (a : Auth) (r : File * option Err)
| EvGetUnsplash (fid : Z) (r : option UnsplashPhoto * option Err)
| EvSaveUnsplash (up : UnsplashPhoto) (r : UnsplashPhoto * option Err)
| EvSetBackground (pid : Z) (f : File) (blur : string) (r : option Err)
| EvFindProjectUsers (pid : Z) (r : list ProjectUser * option Err)
| EvFindTeamProjects (pid : Z) (r : list TeamProject * option Err)
| EvFindLinkShares (pid : Z) (r : list LinkSharing * option Err)
| EvInsertProjectUser (u : ProjectUser) (r : ProjectUser * option Err)
| EvInsertTeamProject (t : TeamProject) (r : TeamProject * option Err)
| EvInsertLinkSharing (sh : LinkSharing) (r : LinkSharing * option Err)
| EvRandomString (n : Z) (r : string).

(** ** The monad of the embedding *)

(** How a Go function body ends: it falls through with a value, it
    returns a non-nil [error], or it panics. *)
Inductive Res (A : Type) : Type :=
| Ok (a : A)
| Fail (e : Err)
| Panic.

Arguments Ok {A}. Arguments Fail {A}. Arguments Panic {A}.

Section Embedding.

Context {S : Type}.

Record St : Type := { sess : S; log : list Event }.

Definition M (A : Type) : Type := St → Res A * St.

Definition ret {A} (a : A) : M A := λ st, (Ok a, st).

Definition fail {A} (e : Err) : M A := λ st, (Fail e, st).

Definition panic {A} : M A := λ st, (Panic, st).

Definition bind {A B} (m : M A) (k : A → M B) : M B :=
  λ st, match m st with
        | (Ok a, st1) => k a st1
        | (Fail e, st1) => (Fail e, st1)
        | (Panic, st1) => (Panic, st1)
        end.

(** A collaborator call: run it on the collaborator state, log it. *)
Definition callS {A} (f : S → A * S) (ev : A → Event) (st : St) : A * St :=
  let '(a, s1) := f (sess st) in
  (a, {| sess := s1; log := log st ++ [ev a] |}).

Definition call {A} (f : S → A * S) (ev : A → Event) : M A :=
  λ st, let '(a, st1) := callS f ev st in (Ok a, st1).

(** [if err != nil { return err }]. *)
Definition try (err : option Err) : M unit :=
  match err with Some e => fail e | None => ret tt end.

(** [defer fin] followed by the rest [m] of the function: [fin] runs when
    the function exits, however it exits, and its result is dropped. *)
Definition finally {A} (fin : M unit) (m : M A) : M A :=
  λ st, let '(r, st1) := m st in
        let '(_, st2) := fin st1 in (r, st2).

End Embedding.

Arguments St : clear implicits.
Arguments M : clear implicits.

(** stdpp's monad notations: [x ← m; k], ['(x, y) ← m; k] and [m;; k]. *)
#[global] Instance M_ret {S} : MRet (M S) := λ A, ret.
#[global] Instance M_bind {S} : MBind (M S) := λ A B k m, bind m k.

Section Loops.

Context {S : Type}.

(** [for _, x := range xs { body }]; a [continue] is a body that ends
    early with [ret tt], a [return err] inside the body ends the loop. *)
Fixpoint forM_ {A} (xs : list A) (body : A → M S unit) : M S unit :=
  match xs with
  | [] => ret tt
  | x :: xs' => body x;; forM_ xs' body
  end.

(** The same loop when the body updates variables declared outside it. *)
Fixpoint foldM {A B} (body : B → A → M S B) (acc : B) (xs : list A) : M S B :=
  match xs with
  | [] => ret acc
  | x :: xs' => acc' ← body acc x; foldM body acc' xs'
  end.

End Loops.

(** ** The program *)

Section Program.

Context {S : Type} (c : Collab S).

(** [err != nil]. *)
Definition notNil (err : option Err) : bool :=
  match err with Some _ => true | None => false end.

(** [ProjectDuplicate.CanCreate]: the results are the receiver as the
    method leaves it and the pair [(canCreate, err)]. *)
Definition CanCreate (ld : ProjectDuplicate) (a : Auth) (st : St S)
  : (ProjectDuplicate * (bool * option Err)) * St S :=
  let p := Project_withID (ProjectID ld) in
  let '((p1, canRead, _, err), st1) :=
    callS (Project_CanRead c p a) (EvCanRead p a) st in
  if notNil err || negb canRead then
    ((set_TheProject p1 ld, (canRead, err)), st1)
  else
    let p2 := Project_set_NamespaceID (NamespaceID ld) p1 in
    let '((p3, canCreate, err2), st2) :=
      callS (Project_CanCreate c p2 a) (EvCanCreate p2 a) st1 in
    ((set_TheProject p3 ld, (canCreate, err2)), st2).

(** The body of the loop over the buckets, [bucketMap] being the
    variable it updates. *)
Definition copyBucket (ld : ProjectDuplicate) (doer : Auth) (bucketMap : gmap Z Z)
    (b : Bucket) : M S (gmap Z Z) :=
  let oldID := Bucket_ID b in
  let b := Bucket_set_ID 0 b in
  let b := Bucket_set_ProjectID (Project_ID (TheProject ld)) b in
  '(b2, err) ← call (Bucket_Create c b doer) (EvBucketCreate b doer);
  try err;;
  mret (<[oldID := Bucket_ID b2]> bucketMap).

(** [Create], "Duplicate kanban buckets": the result is [bucketMap]. *)
Definition copyBuckets (ld : ProjectDuplicate) (doer : Auth) : M S (gmap Z Z) :=
  '(buckets, err) ← call (FindBuckets c (ProjectID ld)) (EvFindBuckets (ProjectID ld));
  try err;;
  foldM (copyBucket ld doer) ∅ buckets.

(** The body of the loop over the tasks, [taskMap] and [oldTaskIDs] being
    the variables it updates. *)
Definition copyTask (ld : ProjectDuplicate) (doer : Auth) (bucketMap : gmap Z Z)
    (acc : gmap Z Z * list Z) (t : Task) : M S (gmap Z Z * list Z) :=
  let '(taskMap, oldTaskIDs) := acc in
  let oldID := Task_ID t in
  let t := Task_set_ID 0 t in
  let t := Task_set_ProjectID (Project_ID (TheProject ld)) t in
  let t := Task_set_BucketID (mapGet bucketMap (Task_BucketID t)) t in
  let t := Task_set_UID "" t in
  '(t2, err) ← call (createTask c t doer false) (EvCreateTask t doer false);
  try err;;
  mret (<[oldID := Task_ID t2]> taskMap, oldTaskIDs ++ [oldID]).

(** [duplicateTasks], "Create + update all tasks": the results are
    [taskMap] and [oldTaskIDs]. *)
Definition createTasks (ld : ProjectDuplicate) (doer : Auth) (bucketMap : gmap Z Z)
    (tasks : list Task) : M S (gmap Z Z * list Z) :=
  foldM (copyTask ld doer bucketMap) (∅, []) tasks.

(** The body of the loop over the attachments. *)
Definition copyAttachment (doer : Auth) (taskMap : gmap Z Z)
    (attachment : TaskAttachment) : M S unit :=
  (* attachment.ID = 0; attachment.TaskID, exists = taskMap[attachment.TaskID] *)
  match taskMap !! TaskAttachment_TaskID attachment with
  | None => mret tt
  | Some newTaskID =>
      let f := File_withID (TaskAttachment_FileID attachment) in
      '(f1, err) ← call (File_LoadFileMetaByID c f) (EvLoadFileMeta f);
      match err with
      | Some e => if IsErrFileDoesNotExist e then mret tt else fail e
      | None =>
          '(f2, err) ← call (File_LoadFileByID c f1) (EvLoadFile f1);
          try err;;
          let a1 := TaskAttachment_set_File (Some f2)
                      (TaskAttachment_set_TaskID newTaskID
                         (TaskAttachment_set_ID 0 attachment)) in
          '(a2, err) ← call (TaskAttachment_NewAttachment c a1 (File_File f2)
                               (File_Name f2) (File_Size f2) doer)
                            (EvNewAttachment a1 (File_File f2) (File_Name f2)
                               (File_Size f2) doer);
          try err;;
          (* if attachment.File.File != nil { _ = attachment.File.File.Close() } *)
          match TaskAttachment_File a2 with
          | None => panic
          | Some f3 =>
              match File_File f3 with
              | Some h => _ ← call (Handle_Close c h) (EvClose h); mret tt
              | None => mret tt
              end
          end
      end
  end.

(** [duplicateTasks], "Save all attachments". *)
Definition copyAttachments (doer : Auth) (taskMap : gmap Z Z) (oldTaskIDs : list Z)
  : M S unit :=
  '(attachments, err) ← call (getTaskAttachmentsByTaskIDs c oldTaskIDs)
                             (EvGetAttachments oldTaskIDs);
  try err;;
  forM_ attachments (copyAttachment doer taskMap).

(** The body of the loop over the label associations. *)
Definition copyLabelTask (taskMap : gmap Z Z) (lt : LabelTask) : M S unit :=
  let lt := LabelTask_set_ID 0 lt in
  let lt := LabelTask_set_TaskID (mapGet taskMap (LabelTask_TaskID lt)) lt in
  '(_, err) ← call (InsertLabelTask c lt) (EvInsertLabelTask lt);
  try err.

(** [duplicateTasks], "Copy label tasks (not the labels)". *)
Definition copyLabelTasks (taskMap : gmap Z Z) (oldTaskIDs : list Z) : M S unit :=
  '(labelTasks, err) ← call (FindLabelTasks c oldTaskIDs) (EvFindLabelTasks oldTaskIDs);
  try err;;
  forM_ labelTasks (copyLabelTask taskMap).

(** The body of the loop over the assignees. *)
Definition copyAssignee (ld : ProjectDuplicate) (doer : Auth) (taskMap : gmap Z Z)
    (a : TaskAssginee) : M S unit :=
  let t := {| Task_ID := mapGet taskMap (TaskAssginee_TaskID a);
              Task_ProjectID := Project_ID (TheProject ld);
              Task_BucketID := 0; Task_UID := ""; Task_Rest := 0 |} in
  err ← call (Task_addNewAssigneeByID c t (TaskAssginee_UserID a) (TheProject ld) doer)
             (EvAddAssignee t (TaskAssginee_UserID a) (TheProject ld) doer);
  match err with
  | Some e => if IsErrUserDoesNotHaveAccessToProject e then mret tt else fail e
  | None => mret tt
  end.

(** [duplicateTasks], "Assignees". *)
Definition copyAssignees (ld : ProjectDuplicate) (doer : Auth) (taskMap : gmap Z Z)
    (oldTaskIDs : list Z) : M S unit :=
  '(assignees, err) ← call (FindAssignees c oldTaskIDs) (EvFindAssignees oldTaskIDs);
  try err;;
  forM_ assignees (copyAssignee ld doer taskMap).

(** The body of the loop over the comments. *)
Definition copyComment (taskMap : gmap Z Z) (cm : TaskComment) : M S unit :=
  let cm := TaskComment_set_ID 0 cm in
  let cm := TaskComment_set_TaskID (mapGet taskMap (TaskComment_TaskID cm)) cm in
  '(_, err) ← call (InsertComment c cm) (EvInsertComment cm);
  try err.

(** [duplicateTasks], "Comments". *)
Definition copyComments (taskMap : gmap Z Z) (oldTaskIDs : list Z) : M S unit :=
  '(comments, err) ← call (FindComments c oldTaskIDs) (EvFindComments oldTaskIDs);
  try err;;
  forM_ comments (copyComment taskMap).

(** The body of the loop over the relations. *)
Definition copyRelation (taskMap : gmap Z Z) (r : TaskRelation) : M S unit :=
  match taskMap !! TaskRelation_OtherTaskID r with
  | None => mret tt
  | Some otherTaskID =>
      let r := TaskRelation_set_ID 0 r in
      let r := TaskRelation_set_OtherTaskID otherTaskID r in
      let r := TaskRelation_set_TaskID (mapGet taskMap (TaskRelation_TaskID r)) r in
      '(_, err) ← call (InsertRelation c r) (EvInsertRelation r);
      try err
  end.

(** [duplicateTasks], "Relations in that project". *)
Definition copyRelations (taskMap : gmap Z Z) (oldTaskIDs : list Z) : M S unit :=
  '(relations, err) ← call (FindRelations c oldTaskIDs) (EvFindRelations oldTaskIDs);
  try err;;
  forM_ relations (copyRelation taskMap).

(** Everything [duplicateTasks] does once [taskMap] is complete. *)
Definition copyTaskDetails (ld : ProjectDuplicate) (doer : Auth) (taskMap : gmap Z Z)
    (oldTaskIDs : list Z) : M S unit :=
  copyAttachments doer taskMap oldTaskIDs;;
  copyLabelTasks taskMap oldTaskIDs;;
  copyAssignees ld doer taskMap oldTaskIDs;;
  copyComments taskMap oldTaskIDs;;
  copyRelations taskMap oldTaskIDs.

Definition duplicateTasks (doer : Auth) (ld : ProjectDuplicate) (bucketMap : gmap Z Z)
  : M S unit :=
  let ps := [Project_withID (ProjectID ld)] in
  '(tasks, err) ← call (getTasksForProjects c ps doer) (EvGetTasks ps doer);
  try err;;
  if decide (length tasks = 0%nat) then mret tt
  else
    '(taskMap, oldTaskIDs) ← createTasks ld doer bucketMap tasks;
    copyTaskDetails ld doer taskMap oldTaskIDs.

(** [Create], "Rights / Shares", three loops. *)
Definition copyProjectUsers (ld : ProjectDuplicate) : M S unit :=
  '(users, err) ← call (FindProjectUsers c (ProjectID ld)) (EvFindProjectUsers (ProjectID ld));
  try err;;
  forM_ users (λ u,
    let u := ProjectUser_set_ID 0 u in
    let u := ProjectUser_set_ProjectID (Project_ID (TheProject ld)) u in
    '(_, err) ← call (InsertProjectUser c u) (EvInsertProjectUser u);
    try err).

Definition copyTeamProjects (ld : ProjectDuplicate) : M S unit :=
  '(teams, err) ← call (FindTeamProjects c (ProjectID ld)) (EvFindTeamProjects (ProjectID ld));
  try err;;
  forM_ teams (λ t,
    let t := TeamProject_set_ID 0 t in
    let t := TeamProject_set_ProjectID (Project_ID (TheProject ld)) t in
    '(_, err) ← call (InsertTeamProject c t) (EvInsertTeamProject t);
    try err).

(** The body of the loop over the link shares. *)
Definition copyLinkShare (ld : ProjectDuplicate) (share : LinkSharing) : M S unit :=
  let share := LinkSharing_set_ID 0 share in
  let share := LinkSharing_set_ProjectID (Project_ID (TheProject ld)) share in
  hash ← call (MakeRandomString c 40) (EvRandomString 40);
  let share := LinkSharing_set_Hash hash share in
  '(_, err) ← call (InsertLinkSharing c share) (EvInsertLinkSharing share);
  try err.

Definition copyLinkShares (ld : ProjectDuplicate) : M S unit :=
  '(linkShares, err) ← call (FindLinkShares c (ProjectID ld)) (EvFindLinkShares (ProjectID ld));
  try err;;
  forM_ linkShares (copyLinkShare ld).

Definition copyRightsAndShares (ld : ProjectDuplicate) : M S unit :=
  copyProjectUsers ld;; copyTeamProjects ld;; copyLinkShares ld.

(** [Create], "Background files + unsplash info", from the call of
    [files.Create] to the end of the [if] block. *)
Definition copyBackgroundFile (ld : ProjectDuplicate) (doer : Auth) (f : File) : M S unit :=
  '(file, err) ← call (files_Create c (File_File f) (File_Name f) (File_Size f) doer)
                      (EvFilesCreate (File_File f) (File_Name f) (File_Size f) doer);
  try err;;
  let fid := Project_BackgroundFileID (TheProject ld) in
  '(up, err) ← call (GetUnsplashPhotoByFileID c fid) (EvGetUnsplash fid);
  (* if err != nil && files.IsErrFileIsNotUnsplashFile(err) { return err } *)
  match err with
  | Some e => if IsErrFileIsNotUnsplashFile e then fail e else mret tt
  | None => mret tt
  end;;
  match up with
  | Some up =>
      let up := UnsplashPhoto_set_ID 0 up in
      let up := UnsplashPhoto_set_FileID (File_ID file) up in
      '(_, err) ← call (UnsplashPhoto_Save c up) (EvSaveUnsplash up);
      try err
  | None => mret tt
  end;;
  err ← call (SetProjectBackground c (Project_ID (TheProject ld)) file
                (Project_BackgroundBlurHash (TheProject ld)))
             (EvSetBackground (Project_ID (TheProject ld)) file
                (Project_BackgroundBlurHash (TheProject ld)));
  try err.

(** [Create] from "Background files + unsplash info" on.  The [defer] is
    function scoped: the background handle is closed when [Create]
    returns, after the rights and shares are copied.  [f.File.Close] on a
    nil [f.File] is a call through a nil interface, a run-time panic. *)
Definition copyBackgroundAndShares (ld : ProjectDuplicate) (doer : Auth) : M S unit :=
  if decide (Project_BackgroundFileID (TheProject ld) = 0) then copyRightsAndShares ld
  else
    let f := File_withID (Project_BackgroundFileID (TheProject ld)) in
    '(f1, err) ← call (File_LoadFileMetaByID c f) (EvLoadFileMeta f);
    try err;;
    '(f2, err) ← call (File_LoadFileByID c f1) (EvLoadFile f1);
    try err;;
    match File_File f2 with
    | None => panic
    | Some h =>
        finally (_ ← call (Handle_Close c h) (EvClose h); mret tt)
                (copyBackgroundFile ld doer f2;; copyRightsAndShares ld)
    end.

(** [Create] after the destination project is created. *)
Definition copyContents (ld : ProjectDuplicate) (doer : Auth) : M S unit :=
  bucketMap ← copyBuckets ld doer;
  duplicateTasks doer ld bucketMap;;
  copyBackgroundAndShares ld doer.

(** [ProjectDuplicate.Create]: the results are the receiver as the method
    leaves it and how the method ends ([Ok tt] for a nil [err]). *)
Definition Create (ld : ProjectDuplicate) (doer : Auth) (st : St S)
  : (ProjectDuplicate * Res unit) * St S :=
  let p0 := Project_set_OwnerID (GetID doer)
              (Project_set_Identifier "" (Project_set_ID 0 (TheProject ld))) in
  let '((p1, err), st1) := callS (CreateProject c p0 doer) (EvCreateProject p0 doer) st in
  match err with
  | Some e =>
      if IsErrProjectIdentifierIsNotUnique e then
        let ld1 := set_TheProject (Project_set_Identifier "" p1) ld in
        let '(r, st2) := copyContents ld1 doer st1 in ((ld1, r), st2)
      else ((set_TheProject p1 ld, Fail e), st1)
  | None =>
      let ld1 := set_TheProject p1 ld in
      let '(r, st2) := copyContents ld1 doer st1 in ((ld1, r), st2)
  end.

End Program.

(** ** Reading the call log *)

(** The map a loop builds with [m[k] = v] for the pairs [kvs] in turn. *)
Definition buildMap (m : gmap Z Z) (kvs : list (Z * Z)) : gmap Z Z :=
  foldl (λ acc kv, <[kv.1 := kv.2]> acc) m kvs.

(** The buckets the query for the source project's buckets returned. *)
Definition foundBuckets (evs : list Event) : list Bucket :=
  evs ≫= λ e, match e with EvFindBuckets _ (rows, _) => rows | _ => [] end.

(** The identities [Bucket.Create] gave to the buckets it created. *)
Definition newBucketIDs (evs : list Event) : list Z :=
  omap (λ e, match e with
             | EvBucketCreate _ _ (b2, None) => Some (Bucket_ID b2)
             | _ => None
             end) evs.

(** [bucketMap] as the bucket loop leaves it. *)
Definition bucketMapOf (evs : list Event) : gmap Z Z :=
  buildMap ∅ (zip (Bucket_ID <$> foundBuckets evs) (newBucketIDs evs)).

Definition isBucketEvent (e : Event) : bool :=
  match e with EvFindBuckets _ _ | EvBucketCreate _ _ _ => true | _ => false end.

(** The tasks [getTasksForProjects] returned. *)
Definition listedTasks (evs : list Event) : list Task :=
  evs ≫= λ e, match e with EvGetTasks _ _ (ts, _) => ts | _ => [] end.

(** The tasks handed to a [createTask] call that succeeded, as passed. *)
Definition createdTasks (evs : list Event) : list Task :=
  omap (λ e, match e with EvCreateTask t _ _ (_, None) => Some t | _ => None end) evs.

(** The identities [createTask] gave to the tasks it created. *)
Definition newTaskIDs (evs : list Event) : list Z :=
  omap (λ e, match e with
             | EvCreateTask _ _ _ (t2, None) => Some (Task_ID t2)
             | _ => None
             end) evs.

(** [taskMap] as the task loop leaves it: the i-th listed task's identity
    is mapped to the identity of the i-th created task. *)
Definition taskMapOf (evs : list Event) : gmap Z Z :=
  buildMap ∅ (zip (Task_ID <$> listedTasks evs) (newTaskIDs evs)).

Definition listedAttachments (evs : list Event) : list TaskAttachment :=
  evs ≫= λ e, match e with EvGetAttachments _ (rows, _) => rows | _ => [] end.

(** The calls of the attachment loop: file loads, [NewAttachment], [Close]. *)
Definition isFileEvent (e : Event) : bool :=
  match e with
  | EvLoadFileMeta _ _ | EvLoadFile _ _ | EvNewAttachment _ _ _ _ _ _ | EvClose _ _ => true
  | _ => false
  end.

Definition foundLabelTasks (evs : list Event) : list LabelTask :=
  evs ≫= λ e, match e with EvFindLabelTasks _ (rows, _) => rows | _ => [] end.

Definition foundComments (evs : list Event) : list TaskComment :=
  evs ≫= λ e, match e with EvFindComments _ (rows, _) => rows | _ => [] end.

Definition foundRelations (evs : list Event) : list TaskRelation :=
  evs ≫= λ e, match e with EvFindRelations _ (rows, _) => rows | _ => [] end.

Definition foundLinkShares (evs : list Event) : list LinkSharing :=
  evs ≫= λ e, match e with EvFindLinkShares _ (rows, _) => rows | _ => [] end.

(** The rows handed to an [Insert] that succeeded, as passed. *)
Definition insertedLabelTasks (evs : list Event) : list LabelTask :=
  omap (λ e, match e with EvInsertLabelTask x (_, None) => Some x | _ => None end) evs.

Definition insertedComments (evs : list Event) : list TaskComment :=
  omap (λ e, match e with EvInsertComment x (_, None) => Some x | _ => None end) evs.

Definition insertedRelations (evs : list Event) : list TaskRelation :=
  omap (λ e, match e with EvInsertRelation x (_, None) => Some x | _ => None end) evs.

Definition insertedLinkShares (evs : list Event) : list LinkSharing :=
  omap (λ e, match e with EvInsertLinkSharing x (_, None) => Some x | _ => None end) evs.

(** The calls of [utils.MakeRandomString]: requested length and result. *)
Definition randomStrings (evs : list Event) : list (Z * string) :=
  omap (λ e, match e with EvRandomString n r => Some (n, r) | _ => None end) evs.

(** The identity of the row a creating call is handed ([None] for the
    calls that create no row). *)
Definition writtenIdentity (e : Event) : option Z :=
  match e with
  | EvCreateProject p _ _ => Some (Project_ID p)
  | EvBucketCreate b _ _ => Some (Bucket_ID b)
  | EvCreateTask t _ _ _ => Some (Task_ID t)
  | EvNewAttachment ta _ _ _ _ _ => Some (TaskAttachment_ID ta)
  | EvInsertLabelTask x _ => Some (LabelTask_ID x)
  | EvInsertComment x _ => Some (TaskComment_ID x)
  | EvInsertRelation x _ => Some (TaskRelation_ID x)
  | EvInsertProjectUser x _ => Some (ProjectUser_ID x)
  | EvInsertTeamProject x _ => Some (TeamProject_ID x)
  | EvInsertLinkSharing x _ => Some (LinkSharing_ID x)
  | EvSaveUnsplash x _ => Some (UnsplashPhoto_ID x)
  | _ => None
  end.

(** The handles of the files opened by the [LoadFileByID] calls that
    succeeded. *)
Definition openedHandles (evs : list Event) : list Handle :=
  omap (λ e, match e with EvLoadFile _ (f, None) => File_File f | _ => None end) evs.

Definition closedHandles (evs : list Event) : list Handle :=
  omap (λ e, match e with EvClose h _ => Some h | _ => None end) evs.

(** The handles opened and not closed. *)
Definition leakedHandles (evs : list Event) : list Handle :=
  filter (λ h, h ∉ closedHandles evs) (openedHandles evs).

(** The calls that list and create tasks. *)
Definition isTaskEvent (e : Event) : bool :=
  match e with EvGetTasks _ _ _ | EvCreateTask _ _ _ _ => true | _ => false end.

(** The calls that list the attachments and copy their files. *)
Definition isAttachmentEvent (e : Event) : bool :=
  match e with EvGetAttachments _ _ => true | _ => isFileEvent e end.

Definition isLabelTaskEvent (e : Event) : bool :=
  match e with EvFindLabelTasks _ _ | EvInsertLabelTask _ _ => true | _ => false end.

Definition isCommentEvent (e : Event) : bool :=
  match e with EvFindComments _ _ | EvInsertComment _ _ => true | _ => false end.

Definition isRelationEvent (e : Event) : bool :=
  match e with EvFindRelations _ _ | EvInsertRelation _ _ => true | _ => false end.

Definition isLinkShareEvent (e : Event) : bool :=
  match e with
  | EvFindLinkShares _ _ | EvInsertLinkSharing _ _ | EvRandomString _ _ => true
  | _ => false
  end.

(** A capability check, the only calls [CanCreate] may make. *)
Definition isCheck (e : Event) : bool :=
  match e with EvCanRead _ _ _ | EvCanCreate _ _ _ => true | _ => false end.

(** ** What the loops are to do, as functions of the listed rows *)

(** The task handed to [createTask] for the source task [t]. *)
Definition copyOfTask (dest : Z) (bucketMap : gmap Z Z) (t : Task) : Task :=
  {| Task_ID := 0; Task_ProjectID := dest;
     Task_BucketID := mapGet bucketMap (Task_BucketID t); Task_UID := "";
     Task_Rest := Task_Rest t |}.


(** The relation inserted for the source relation [r], if any. *)
Definition copyOfRelation (taskMap : gmap Z Z) (r : TaskRelation) : option TaskRelation :=
  match taskMap !! TaskRelation_OtherTaskID r with
  | None => None
  | Some other =>
      Some {| TaskRelation_ID := 0;
              TaskRelation_TaskID := mapGet taskMap (TaskRelation_TaskID r);
              TaskRelation_OtherTaskID := other;
              TaskRelation_Rest := TaskRelation_Rest r |}
  end.

(** The relations inserted so far are the copies of the first relations
    found, and of all of them once the function has succeeded. *)
Definition relationsCopied (taskMap : gmap Z Z) (r : Res unit) (evs : list Event) : Prop :=
  insertedRelations evs `prefix_of` omap (copyOfRelation taskMap) (foundRelations evs)
  ∧ (r = Ok tt →
       insertedRelations evs = omap (copyOfRelation taskMap) (foundRelations evs)).

(** The list of task identities a query of the task details is
    restricted to. *)
Definition queriedTaskIDs (e : Event) : option (list Z) :=
  match e with
  | EvFindLabelTasks ids _ | EvFindComments ids _ | EvFindRelations ids _ => Some ids
  | _ => None
  end.

(** What [s.In("task_id", ids).Find] promises: every row found has its
    [task_id] among [ids]. *)
Record RestrictedToTasks {S} (c : Collab S) : Prop := {
  rt_labelTasks : ∀ ids s rows err s1,
    FindLabelTasks c ids s = ((rows, err), s1) →
    Forall (λ x, LabelTask_TaskID x ∈ ids) rows;
  rt_comments : ∀ ids s rows err s1,
    FindComments c ids s = ((rows, err), s1) →
    Forall (λ x, TaskComment_TaskID x ∈ ids) rows;
  rt_relations : ∀ ids s rows err s1,
    FindRelations c ids s = ((rows, err), s1) →
    Forall (λ x, TaskRelation_TaskID x ∈ ids) rows
}.

(** An event of the task details that respects the task map: a query is
    restricted to [ids] and finds rows of those tasks only; a row handed to
    [Insert] refers to the image of one of [ids]. *)
Definition respectsTaskMap (taskMap : gmap Z Z) (ids : list Z) (e : Event) : Prop :=
  match e with
  | EvFindLabelTasks ids' (rows, _) =>
      ids' = ids ∧ Forall (λ x, LabelTask_TaskID x ∈ ids) rows
  | EvFindComments ids' (rows, _) =>
      ids' = ids ∧ Forall (λ x, TaskComment_TaskID x ∈ ids) rows
  | EvFindRelations ids' (rows, _) =>
      ids' = ids ∧ Forall (λ x, TaskRelation_TaskID x ∈ ids) rows
  | EvInsertLabelTask x _ => ∃ k, k ∈ ids ∧ LabelTask_TaskID x = mapGet taskMap k
  | EvInsertComment x _ => ∃ k, k ∈ ids ∧ TaskComment_TaskID x = mapGet taskMap k
  | EvInsertRelation x _ => ∃ k, k ∈ ids ∧ TaskRelation_TaskID x = mapGet taskMap k
  | _ => True
  end.

(** The link share inserted for the source share [sh], with the generated
    secret. *)
Definition copyOfLinkShare (dest : Z) (sh : LinkSharing) (secret : string) : LinkSharing :=
  {| LinkSharing_ID := 0; LinkSharing_ProjectID := dest; LinkSharing_Hash := secret;
     LinkSharing_Rest := LinkSharing_Rest sh |}.

(** The file calls of a successful pass over the attachments: an
    attachment of an unmapped task makes no call; one whose metadata is
    reported missing makes the metadata call only; every other one is
    loaded, copied by a successful [NewAttachment] and (if the attachment
    still holds an open file) closed. *)
Inductive AttachmentsTrace (doer : Auth) (taskMap : gmap Z Z)
  : list TaskAttachment → list Event → Prop :=
| at_nil : AttachmentsTrace doer taskMap [] []
| at_unmapped a rest evs :
    taskMap !! TaskAttachment_TaskID a = None →
    AttachmentsTrace doer taskMap rest evs →
    AttachmentsTrace doer taskMap (a :: rest) evs
| at_missing a newTaskID f1 e rest evs :
    taskMap !! TaskAttachment_TaskID a = Some newTaskID →
    IsErrFileDoesNotExist e = true →
    AttachmentsTrace doer taskMap rest evs →
    AttachmentsTrace doer taskMap (a :: rest)
      (EvLoadFileMeta (File_withID (TaskAttachment_FileID a)) (f1, Some e) :: evs)
| at_copied a newTaskID f1 f2 a2 closing rest evs :
    taskMap !! TaskAttachment_TaskID a = Some newTaskID →
    Forall (λ e, ∃ h r, e = EvClose h r) closing →
    AttachmentsTrace doer taskMap rest evs →
    AttachmentsTrace doer taskMap (a :: rest)
      (EvLoadFileMeta (File_withID (TaskAttachment_FileID a)) (f1, None)
       :: EvLoadFile f1 (f2, None)
       :: EvNewAttachment
            {| TaskAttachment_ID := 0; TaskAttachment_TaskID := newTaskID;
               TaskAttachment_FileID := TaskAttachment_FileID a;
               TaskAttachment_File := Some f2;
               TaskAttachment_Rest := TaskAttachment_Rest a |}
            (File_File f2) (File_Name f2) (File_Size f2) doer (a2, None)
       :: closing ++ evs).

(** The lookup of the external-image attribution answering with the
    error "not an external-image file". *)
Definition notUnsplashAnswer (e : Err) (ev : Event) : Prop :=
  match ev with
  | EvGetUnsplash _ (_, Some e') => e' = e ∧ IsErrFileIsNotUnsplashFile e = true
  | _ => False
  end.

(** The file calls among the events [evs], in order. *)
Definition fileEvents (evs : list Event) : list Event :=
  filter (λ e, isFileEvent e = true) evs.

(** A file load that is not tolerated: a metadata load failing with
    anything but "does not exist", or a content load failing. *)
Definition fatalLoad (e : Err) (ev : Event) : Prop :=
  match ev with
  | EvLoadFileMeta _ (_, Some e') => e' = e ∧ IsErrFileDoesNotExist e = false
  | EvLoadFile _ (_, Some e') => e' = e
  | _ => False
  end.

(** ** Identities the store assigns *)

Inductive Table : Type :=
| TProject | TBucket | TTask | TAttachment | TLabelTask | TComment | TRelation
| TProjectUser | TTeamProject | TLinkSharing | TUnsplash.

(** The table and the identity of the row a successful creating call
    hands back. *)
Definition createdIdentity (e : Event) : option (Table * Z) :=
  match e with
  | EvCreateProject _ _ (p, None) => Some (TProject, Project_ID p)
  | EvBucketCreate _ _ (b, None) => Some (TBucket, Bucket_ID b)
  | EvCreateTask _ _ _ (t, None) => Some (TTask, Task_ID t)
  | EvNewAttachment _ _ _ _ _ (ta, None) => Some (TAttachment, TaskAttachment_ID ta)
  | EvInsertLabelTask _ (x, None) => Some (TLabelTask, LabelTask_ID x)
  | EvInsertComment _ (x, None) => Some (TComment, TaskComment_ID x)
  | EvInsertRelation _ (x, None) => Some (TRelation, TaskRelation_ID x)
  | EvInsertProjectUser _ (x, None) => Some (TProjectUser, ProjectUser_ID x)
  | EvInsertTeamProject _ (x, None) => Some (TTeamProject, TeamProject_ID x)
  | EvInsertLinkSharing _ (x, None) => Some (TLinkSharing, LinkSharing_ID x)
  | EvSaveUnsplash _ (x, None) => Some (TUnsplash, UnsplashPhoto_ID x)
  | _ => None
  end.

(** The store's side of the identity contract, for a set [src] of
    identities per table (those of the source rows): a row that is
    presented with identity zero is never given an identity of [src]. *)
Record NeverReuses {S} (c : Collab S) (src : Table → Z → Prop) : Prop := {
  nr_project : ∀ p a s p' s', Project_ID p = 0 →
    CreateProject c p a s = ((p', None), s') → ¬ src TProject (Project_ID p');
  nr_bucket : ∀ b a s b' s', Bucket_ID b = 0 →
    Bucket_Create c b a s = ((b', None), s') → ¬ src TBucket (Bucket_ID b');
  nr_task : ∀ t a u s t' s', Task_ID t = 0 →
    createTask c t a u s = ((t', None), s') → ¬ src TTask (Task_ID t');
  nr_attachment : ∀ ta h name size a s ta' s', TaskAttachment_ID ta = 0 →
    TaskAttachment_NewAttachment c ta h name size a s = ((ta', None), s') →
    ¬ src TAttachment (TaskAttachment_ID ta');
  nr_labelTask : ∀ x s x' s', LabelTask_ID x = 0 →
    InsertLabelTask c x s = ((x', None), s') → ¬ src TLabelTask (LabelTask_ID x');
  nr_comment : ∀ x s x' s', TaskComment_ID x = 0 →
    InsertComment c x s = ((x', None), s') → ¬ src TComment (TaskComment_ID x');
  nr_relation : ∀ x s x' s', TaskRelation_ID x = 0 →
    InsertRelation c x s = ((x', None), s') → ¬ src TRelation (TaskRelation_ID x');
  nr_projectUser : ∀ x s x' s', ProjectUser_ID x = 0 →
    InsertProjectUser c x s = ((x', None), s') → ¬ src TProjectUser (ProjectUser_ID x');
  nr_teamProject : ∀ x s x' s', TeamProject_ID x = 0 →
    InsertTeamProject c x s = ((x', None), s') → ¬ src TTeamProject (TeamProject_ID x');
  nr_linkSharing : ∀ x s x' s', LinkSharing_ID x = 0 →
    InsertLinkSharing c x s = ((x', None), s') → ¬ src TLinkSharing (LinkSharing_ID x');
  nr_unsplash : ∀ x s x' s', UnsplashPhoto_ID x = 0 →
    UnsplashPhoto_Save c x s = ((x', None), s') → ¬ src TUnsplash (UnsplashPhoto_ID x')
}.

(** ** Runs and their traces *)

(** [emits m Q]: whenever [m] runs, from whatever state, the log grows
    by a trace [evs] and the way [m] ends, together with [evs], satisfies
    [Q]. *)
Definition emits {S A} (m : M S A) (Q : Res A → list Event → Prop) : Prop :=
  ∀ st r st', m st = (r, st') → ∃ evs, log st' = log st ++ evs ∧ Q r evs.

(** Every event [m] logs satisfies [P]. *)
Definition allEv {S A} (P : Event → Prop) (m : M S A) : Prop :=
  emits m (λ _ evs, Forall P evs).

(** [m] ends with the error of any event of its trace that [F] marks. *)
Definition abortsOn {S A} (F : Err → Event → Prop) (m : M S A) : Prop :=
  emits m (λ r evs, ∀ e ev, ev ∈ evs → F e ev → r = Fail e).

(** The shape of every trace of [duplicateTasks]: the listing; then, if
    it succeeded with at least one task, the [createTask] calls [evsT];
    then, if all of them succeeded, the trace [evsD] of the rest, which is
    run with the task map built from the listing and the created tasks. *)
Definition tasksTrace doer ld bm
    (D : gmap Z Z → list Z → Res unit → list Event → Prop)
    (r : Res unit) (evs : list Event) : Prop :=
  ∃ tasks err evsT evsD,
    evs = EvGetTasks [Project_withID (ProjectID ld)] doer (tasks, err) :: evsT ++ evsD
    ∧ Forall (λ e, ∃ t res, e = EvCreateTask t doer false res) evsT
    ∧ ((err ≠ None ∨ tasks = []) → evsT = [] ∧ evsD = [])
    ∧ (r = Ok tt ∨ evsD ≠ [] →
         err = None
         ∧ createdTasks evsT = copyOfTask (Project_ID (TheProject ld)) bm <$> tasks
         ∧ length (newTaskIDs evsT) = length tasks
         ∧ (tasks ≠ [] →
              D (buildMap ∅ (zip (Task_ID <$> tasks) (newTaskIDs evsT)))
                (Task_ID <$> tasks) r evsD)).

(** The attachments are copied as [AttachmentsTrace] says when the
    function succeeds, and a file load that is not tolerated ends it with
    the error of the load. *)
Definition attachmentsCopied (doer : Auth) (taskMap : gmap Z Z) (r : Res unit)
    (evs : list Event) : Prop :=
  (r = Ok tt →
     AttachmentsTrace doer taskMap (listedAttachments evs) (fileEvents evs))
  ∧ (∀ e ev, ev ∈ evs → fatalLoad e ev → r = Fail e).

(** The link shares of a trace: every random string came from the
    generator, asked for 40 characters; every list of shares found came from
    the query; and, once the function has succeeded, there is one generated
    secret per share found and the shares inserted are, in order, the
    copies of the shares found with these secrets. *)
Definition sharesCopied {S} (c : Collab S) (dest : Z) (r : Res unit)
    (evs : list Event) : Prop :=
  Forall (λ nr, nr.1 = 40 ∧ ∃ s, nr.2 = (MakeRandomString c 40 s).1) (randomStrings evs)
  ∧ Forall (λ sh, ∃ pid s, sh ∈ (FindLinkShares c pid s).1.1) (foundLinkShares evs)
  ∧ (r = Ok tt →
       length (randomStrings evs) = length (foundLinkShares evs)
       ∧ insertedLinkShares evs
         = zip_with (copyOfLinkShare dest) (foundLinkShares evs) (randomStrings evs).*2).

(** A generator of fresh secrets: asked for 40 characters, it never
    returns the secret of a link share the store holds. *)
Definition FreshSecrets {S} (c : Collab S) : Prop :=
  ∀ s pid s0 sh, sh ∈ (FindLinkShares c pid s0).1.1 →
                 (MakeRandomString c 40 s).1 ≠ LinkSharing_Hash sh.

(** ** A scripted store

    A concrete instance of the collaborators, used to run the embedding:
    the rows and the answers come from a script, the collaborator state is
    a counter from which new identities, file handles and random strings
    are drawn. *)
Record Script : Type := {
  sc_project : Project;
  sc_canRead : bool * option Err;
  sc_canCreate : bool * option Err;
  sc_createProjectErr : option Err;
  sc_buckets : list Bucket;
  sc_tasks : list Task;
  sc_attachments : list TaskAttachment;
  sc_missingFiles : list Z;
  sc_newAttachmentErr : option Err;
  sc_labelTasks : list LabelTask;
  sc_assignees : list TaskAssginee;
  sc_comments : list TaskComment;
  sc_relations : list TaskRelation;
  sc_unsplash : option UnsplashPhoto * option Err;
  sc_users : list ProjectUser;
  sc_teams : list TeamProject;
  sc_linkShares : list LinkSharing
}.

(** The identity, or file handle, drawn at count [n]: above every
    identity a script is to use. *)
Definition newID (n : nat) : Z := 1000 + Z.of_nat n.

(** A string of [len] characters drawn at count [n]. *)
Definition randomOf (len : Z) (n : nat) : string :=
  String.string_of_list_ascii
    (replicate (Z.to_nat len) (Ascii.ascii_of_nat (48 + n `mod` 10))).

Definition scripted (sc : Script) : Collab nat := {|
  Project_CanRead p a n :=
    ((Project_set_ID (Project_ID p) (sc_project sc), (sc_canRead sc).1, 0, (sc_canRead sc).2), n);
  Project_CanCreate p a n := ((p, (sc_canCreate sc).1, (sc_canCreate sc).2), n);
  CreateProject p a n :=
    match sc_createProjectErr sc with
    | Some e => ((p, Some e), n)
    | None => ((Project_set_ID (newID n) p, None), (n + 1)%nat)
    end;
  FindBuckets pid n :=
    ((filter (λ b, Bucket_ProjectID b = pid) (sc_buckets sc), None), n);
  Bucket_Create b a n := ((Bucket_set_ID (newID n) b, None), (n + 1)%nat);
  getTasksForProjects ps a n :=
    ((filter (λ t, Task_ProjectID t ∈ Project_ID <$> ps) (sc_tasks sc), None), n);
  createTask t a _ n := ((Task_set_ID (newID n) t, None), (n + 1)%nat);
  getTaskAttachmentsByTaskIDs ids n :=
    ((filter (λ x, TaskAttachment_TaskID x ∈ ids) (sc_attachments sc), None), n);
  File_LoadFileMetaByID f n :=
    if decide (File_ID f ∈ sc_missingFiles sc) then ((f, Some ErrFileDoesNotExist), n)
    else (({| File_ID := File_ID f; File_Name := "file"; File_Size := 1;
              File_File := File_File f |}, None), n);
  File_LoadFileByID f n :=
    (({| File_ID := File_ID f; File_Name := File_Name f; File_Size := File_Size f;
         File_File := Some (newID n) |}, None), (n + 1)%nat);
  TaskAttachment_NewAttachment ta h name size a n :=
    match sc_newAttachmentErr sc with
    | Some e => ((ta, Some e), n)
    | None =>
        ((TaskAttachment_set_FileID (newID (n + 1)) (TaskAttachment_set_ID (newID n) ta),
          None), (n + 2)%nat)
    end;
  Handle_Close h n := (None, n);
  FindLabelTasks ids n :=
    ((filter (λ x, LabelTask_TaskID x ∈ ids) (sc_labelTasks sc), None), n);
  FindAssignees ids n :=
    ((filter (λ x, TaskAssginee_TaskID x ∈ ids) (sc_assignees sc), None), n);
  FindComments ids n :=
    ((filter (λ x, TaskComment_TaskID x ∈ ids) (sc_comments sc), None), n);
  FindRelations ids n :=
    ((filter (λ x, TaskRelation_TaskID x ∈ ids) (sc_relations sc), None), n);
  InsertLabelTask x n := ((LabelTask_set_ID (newID n) x, None), (n + 1)%nat);
  InsertComment x n := ((TaskComment_set_ID (newID n) x, None), (n + 1)%nat);
  InsertRelation x n := ((TaskRelation_set_ID (newID n) x, None), (n + 1)%nat);
  Task_addNewAssigneeByID t uid p a n := (None, n);
  files_Create h name size a n :=
    (({| File_ID := newID n; File_Name := name; File_Size := size; File_File := None |},
      None), (n + 1)%nat);
  GetUnsplashPhotoByFileID fid n := (sc_unsplash sc, n);
  UnsplashPhoto_Save x n := ((UnsplashPhoto_set_ID (newID n) x, None), (n + 1)%nat);
  SetProjectBackground pid f blur n := (None, n);
  FindProjectUsers pid n :=
    ((filter (λ x, ProjectUser_ProjectID x = pid) (sc_users sc), None), n);
  FindTeamProjects pid n :=
    ((filter (λ x, TeamProject_ProjectID x = pid) (sc_teams sc), None), n);
  FindLinkShares pid n :=
    ((filter (λ x, LinkSharing_ProjectID x = pid) (sc_linkShares sc), None), n);
  InsertProjectUser x n := ((ProjectUser_set_ID (newID n) x, None), (n + 1)%nat);
  InsertTeamProject x n := ((TeamProject_set_ID (newID n) x, None), (n + 1)%nat);
  InsertLinkSharing x n := ((LinkSharing_set_ID (newID n) x, None), (n + 1)%nat);
  MakeRandomString len n := (randomOf len n, (n + 1)%nat)
|}.

(** Project 1: two buckets, three tasks (the third in no bucket), a
    relation between the first two tasks and one to a task of another
    project, a comment, a label, two attachments (the file of the second is
    gone), a link share, a plain uploaded background (file 9). *)
Definition demoProject : Project :=
  {| Project_ID := 1; Project_Identifier := "DEMO"; Project_OwnerID := 5;
     Project_NamespaceID := 2; Project_BackgroundFileID := 9;
     Project_BackgroundBlurHash := "blur"; Project_Rest := 7 |}.

Definition demo : Script := {|
  sc_project := demoProject;
  sc_canRead := (true, None);
  sc_canCreate := (true, None);
  sc_createProjectErr := None;
  sc_buckets := [ {| Bucket_ID := 11; Bucket_ProjectID := 1; Bucket_Rest := 1 |};
                  {| Bucket_ID := 12; Bucket_ProjectID := 1; Bucket_Rest := 2 |} ];
  sc_tasks :=
    [ {| Task_ID := 21; Task_ProjectID := 1; Task_BucketID := 11; Task_UID := "u21";
         Task_Rest := 1 |};
      {| Task_ID := 22; Task_ProjectID := 1; Task_BucketID := 12; Task_UID := "u22";
         Task_Rest := 2 |};
      {| Task_ID := 23; Task_ProjectID := 1; Task_BucketID := 0; Task_UID := "u23";
         Task_Rest := 3 |};
      {| Task_ID := 77; Task_ProjectID := 3; Task_BucketID := 0; Task_UID := "u77";
         Task_Rest := 4 |} ];
  sc_attachments :=
    [ {| TaskAttachment_ID := 31; TaskAttachment_TaskID := 21; TaskAttachment_FileID := 41;
         TaskAttachment_File := None; TaskAttachment_Rest := 1 |};
      {| TaskAttachment_ID := 32; TaskAttachment_TaskID := 22; TaskAttachment_FileID := 42;
         TaskAttachment_File := None; TaskAttachment_Rest := 2 |} ];
  sc_missingFiles := [42];
  sc_newAttachmentErr := None;
  sc_labelTasks := [ {| LabelTask_ID := 51; LabelTask_TaskID := 22; LabelTask_Rest := 1 |} ];
  sc_assignees := [ {| TaskAssginee_TaskID := 21; TaskAssginee_UserID := 5 |} ];
  sc_comments :=
    [ {| TaskComment_ID := 61; TaskComment_TaskID := 21; TaskComment_Rest := 1 |} ];
  sc_relations :=
    [ {| TaskRelation_ID := 71; TaskRelation_TaskID := 21; TaskRelation_OtherTaskID := 22;
         TaskRelation_Rest := 1 |};
      {| TaskRelation_ID := 72; TaskRelation_TaskID := 22; TaskRelation_OtherTaskID := 77;
         TaskRelation_Rest := 2 |} ];
  sc_unsplash := (None, Some ErrFileIsNotUnsplashFile);
  sc_users := [ {| ProjectUser_ID := 81; ProjectUser_ProjectID := 1; ProjectUser_Rest := 1 |} ];
  sc_teams := [ {| TeamProject_ID := 91; TeamProject_ProjectID := 1; TeamProject_Rest := 1 |} ];
  sc_linkShares :=
    [ {| LinkSharing_ID := 95; LinkSharing_ProjectID := 1; LinkSharing_Hash := "secret";
         LinkSharing_Rest := 1 |} ]
|}.

(** Variants of a script. *)
Definition withUnsplash (answer : option UnsplashPhoto * option Err) (sc : Script) : Script :=
  {| sc_project := sc_project sc; sc_canRead := sc_canRead sc;
     sc_canCreate := sc_canCreate sc; sc_createProjectErr := sc_createProjectErr sc;
     sc_buckets := sc_buckets sc; sc_tasks := sc_tasks sc;
     sc_attachments := sc_attachments sc; sc_missingFiles := sc_missingFiles sc;
     sc_newAttachmentErr := sc_newAttachmentErr sc; sc_labelTasks := sc_labelTasks sc;
     sc_assignees := sc_assignees sc; sc_comments := sc_comments sc;
     sc_relations := sc_relations sc; sc_unsplash := answer;
     sc_users := sc_users sc; sc_teams := sc_teams sc;
     sc_linkShares := sc_linkShares sc |}.

Definition withNewAttachmentErr (err : option Err) (sc : Script) : Script :=
  {| sc_project := sc_project sc; sc_canRead := sc_canRead sc;
     sc_canCreate := sc_canCreate sc; sc_createProjectErr := sc_createProjectErr sc;
     sc_buckets := sc_buckets sc; sc_tasks := sc_tasks sc;
     sc_attachments := sc_attachments sc; sc_missingFiles := sc_missingFiles sc;
     sc_newAttachmentErr := err; sc_labelTasks := sc_labelTasks sc;
     sc_assignees := sc_assignees sc; sc_comments := sc_comments sc;
     sc_relations := sc_relations sc; sc_unsplash := sc_unsplash sc;
     sc_users := sc_users sc; sc_teams := sc_teams sc;
     sc_linkShares := sc_linkShares sc |}.

Definition withCreateProjectErr (err : option Err) (sc : Script) : Script :=
  {| sc_project := sc_project sc; sc_canRead := sc_canRead sc;
     sc_canCreate := sc_canCreate sc; sc_createProjectErr := err;
     sc_buckets := sc_buckets sc; sc_tasks := sc_tasks sc;
     sc_attachments := sc_attachments sc; sc_missingFiles := sc_missingFiles sc;
     sc_newAttachmentErr := sc_newAttachmentErr sc; sc_labelTasks := sc_labelTasks sc;
     sc_assignees := sc_assignees sc; sc_comments := sc_comments sc;
     sc_relations := sc_relations sc; sc_unsplash := sc_unsplash sc;
     sc_users := sc_users sc; sc_teams := sc_teams sc;
     sc_linkShares := sc_linkShares sc |}.

(** Project 1 with a background taken from the external image service. *)
Definition demoUnsplash : Script :=
  withUnsplash (Some {| UnsplashPhoto_ID := 97; UnsplashPhoto_FileID := 9;
                        UnsplashPhoto_Rest := 1 |}, None) demo.

(** The bucket map the bucket loop builds for project 1 when the new
    buckets are given the identities 1001 and 1002. *)
Definition demoBucketMap : gmap Z Z := <[12 := 1002]> (<[11 := 1001]> ∅).

Definition demoRequest : ProjectDuplicate :=
  {| ProjectID := 1; NamespaceID := 2; TheProject := demoProject |}.

Definition demoDoer : Auth := {| GetID := 5 |}.

Definition demoStart : St nat := {| sess := 0%nat; log := [] |}.

(** ** The errors of the calls *)

(** The [error] a call returned ([None] for nil, and for the one call
    that returns none). *)
Definition errorOf (ev : Event) : option Err :=
  match ev with
  | EvCanRead _ _ (_, _, _, err) => err
  | EvCanCreate _ _ (_, _, err) => err
  | EvCreateProject _ _ (_, err) => err
  | EvFindBuckets _ (_, err) => err
  | EvBucketCreate _ _ (_, err) => err
  | EvGetTasks _ _ (_, err) => err
  | EvCreateTask _ _ _ (_, err) => err
  | EvGetAttachments _ (_, err) => err
  | EvLoadFileMeta _ (_, err) => err
  | EvLoadFile _ (_, err) => err
  | EvNewAttachment _ _ _ _ _ (_, err) => err
  | EvClose _ err => err
  | EvFindLabelTasks _ (_, err) => err
  | EvFindAssignees _ (_, err) => err
  | EvFindComments _ (_, err) => err
  | EvFindRelations _ (_, err) => err
  | EvInsertLabelTask _ (_, err) => err
  | EvInsertComment _ (_, err) => err
  | EvInsertRelation _ (_, err) => err
  | EvAddAssignee _ _ _ _ err => err
  | EvFilesCreate _ _ _ _ (_, err) => err
  | EvGetUnsplash _ (_, err) => err
  | EvSaveUnsplash _ (_, err) => err
  | EvSetBackground _ _ _ err => err
  | EvFindProjectUsers _ (_, err) => err
  | EvFindTeamProjects _ (_, err) => err
  | EvFindLinkShares _ (_, err) => err
  | EvInsertProjectUser _ (_, err) => err
  | EvInsertTeamProject _ (_, err) => err
  | EvInsertLinkSharing _ (_, err) => err
  | EvRandomString _ _ => None
  end.

(** The errors [Create] and [duplicateTasks] may go on after: the
    identifier collision of [CreateProject], a file whose metadata does not
    exist, an assignee without access to the new project, a lookup of the
    external-image attribution that fails with anything but "not an
    external-image file", and whatever [Close] returns. *)
Definition swallowed (ev : Event) (e : Err) : bool :=
  match ev with
  | EvCreateProject _ _ _ => IsErrProjectIdentifierIsNotUnique e
  | EvLoadFileMeta _ _ => IsErrFileDoesNotExist e
  | EvAddAssignee _ _ _ _ _ => IsErrUserDoesNotHaveAccessToProject e
  | EvGetUnsplash _ _ => negb (IsErrFileIsNotUnsplashFile e)
  | EvClose _ _ => true
  | _ => false
  end.

(** A call that returned no error, or one of the errors above. *)
Definition benign (ev : Event) : Prop :=
  ∀ e, errorOf ev = Some e → swallowed ev e = true.

Definition isClose (ev : Event) : Prop := ∃ h r, ev = EvClose h r.

(** How a run ends, against the errors of its calls: every call before
    the end is benign; a run that returns an error returns the error of its
    last call, the deferred [Close] calls apart. *)
Definition errorShape {A} (r : Res A) (evs : list Event) : Prop :=
  match r with
  | Fail e => ∃ pre ev post, evs = pre ++ ev :: post ∧ Forall benign pre
                             ∧ errorOf ev = Some e ∧ Forall isClose post
  | _ => Forall benign evs
  end.

Arguments errorShape : simpl never.

(** A call that hands back a nil where the code may go on to follow the
    pointer: [LoadFileByID] with no open file (for the background, the
    [Close] of that file is deferred next), [NewAttachment] with the
    attachment left without its file. *)
Definition leavesNil (ev : Event) : Prop :=
  match ev with
  | EvLoadFile _ (f, None) => File_File f = None
  | EvNewAttachment _ _ _ _ _ (ta, None) => TaskAttachment_File ta = None
  | _ => False
  end.

(** A run that panics does so right after such a call. *)
Definition panicShape {A} (r : Res A) (evs : list Event) : Prop :=
  r = Panic → ∃ pre ev, evs = pre ++ [ev] ∧ leavesNil ev.

Arguments panicShape : simpl never.

(** ** The rows the remaining loops copy *)

(** The buckets handed to a [Bucket.Create] that succeeded, as passed. *)
Definition createdBuckets (evs : list Event) : list Bucket :=
  omap (λ e, match e with EvBucketCreate b _ (_, None) => Some b | _ => None end) evs.

Definition copyOfBucket (dest : Z) (b : Bucket) : Bucket :=
  {| Bucket_ID := 0; Bucket_ProjectID := dest; Bucket_Rest := Bucket_Rest b |}.

Definition copyOfLabelTask (taskMap : gmap Z Z) (x : LabelTask) : LabelTask :=
  {| LabelTask_ID := 0; LabelTask_TaskID := mapGet taskMap (LabelTask_TaskID x);
     LabelTask_Rest := LabelTask_Rest x |}.

Definition copyOfComment (taskMap : gmap Z Z) (x : TaskComment) : TaskComment :=
  {| TaskComment_ID := 0; TaskComment_TaskID := mapGet taskMap (TaskComment_TaskID x);
     TaskComment_Rest := TaskComment_Rest x |}.

Definition foundAssignees (evs : list Event) : list TaskAssginee :=
  evs ≫= λ e, match e with EvFindAssignees _ (rows, _) => rows | _ => [] end.

(** The calls of [addNewAssigneeByID], whatever they returned: the task,
    the user, the project and the actor they were given. *)
Definition assigneeCalls (evs : list Event) : list (Task * Z * Project * Auth) :=
  omap (λ e, match e with EvAddAssignee t uid p a _ => Some (t, uid, p, a) | _ => None end)
       evs.

(** The call made for the assignee [a]: on a task that has nothing but
    the identity of the copy and the new project. *)
Definition assigneeCall (ld : ProjectDuplicate) (doer : Auth) (taskMap : gmap Z Z)
    (a : TaskAssginee) : Task * Z * Project * Auth :=
  ({| Task_ID := mapGet taskMap (TaskAssginee_TaskID a);
      Task_ProjectID := Project_ID (TheProject ld);
      Task_BucketID := 0; Task_UID := ""; Task_Rest := 0 |},
   TaskAssginee_UserID a, TheProject ld, doer).

Definition isAssigneeEvent (e : Event) : bool :=
  match e with EvFindAssignees _ _ | EvAddAssignee _ _ _ _ _ => true | _ => false end.

Definition foundProjectUsers (evs : list Event) : list ProjectUser :=
  evs ≫= λ e, match e with EvFindProjectUsers _ (rows, _) => rows | _ => [] end.

Definition insertedProjectUsers (evs : list Event) : list ProjectUser :=
  omap (λ e, match e with EvInsertProjectUser x (_, None) => Some x | _ => None end) evs.

Definition copyOfProjectUser (dest : Z) (x : ProjectUser) : ProjectUser :=
  {| ProjectUser_ID := 0; ProjectUser_ProjectID := dest;
     ProjectUser_Rest := ProjectUser_Rest x |}.

Definition isProjectUserEvent (e : Event) : bool :=
  match e with EvFindProjectUsers _ _ | EvInsertProjectUser _ _ => true | _ => false end.

Definition foundTeamProjects (evs : list Event) : list TeamProject :=
  evs ≫= λ e, match e with EvFindTeamProjects _ (rows, _) => rows | _ => [] end.

Definition insertedTeamProjects (evs : list Event) : list TeamProject :=
  omap (λ e, match e with EvInsertTeamProject x (_, None) => Some x | _ => None end) evs.

Definition copyOfTeamProject (dest : Z) (x : TeamProject) : TeamProject :=
  {| TeamProject_ID := 0; TeamProject_ProjectID := dest;
     TeamProject_Rest := TeamProject_Rest x |}.

Definition isTeamProjectEvent (e : Event) : bool :=
  match e with EvFindTeamProjects _ _ | EvInsertTeamProject _ _ => true | _ => false end.

(** A property of traces that looks at the events of one kind only: it
    is kept when events of other kinds are put before and after. *)
Definition localTo (K : Event → bool) (P : list Event → Prop) : Prop :=
  ∀ evs1 evs2 evs3,
    Forall (λ e, K e = false) evs1 → Forall (λ e, K e = false) evs3 →
    P evs2 → P (evs1 ++ evs2 ++ evs3).

(** What a phase has done: [Pany] in every run, [Pok] when it
    succeeded. *)
Definition phaseDone (Pany Pok : list Event → Prop) {A} (r : Res A) (evs : list Event)
  : Prop :=
  Pany evs ∧ (∀ a, r = Ok a → Pok evs).

(** ** The queries of the task details *)

Inductive Detail : Type :=
| DAttachments | DLabelTasks | DAssignees | DComments | DRelations.

(** The kind of rows a query of the task details asks for, and the task
    identities it is restricted to. *)
Definition detailQuery (e : Event) : option (Detail * list Z) :=
  match e with
  | EvGetAttachments ids _ => Some (DAttachments, ids)
  | EvFindLabelTasks ids _ => Some (DLabelTasks, ids)
  | EvFindAssignees ids _ => Some (DAssignees, ids)
  | EvFindComments ids _ => Some (DComments, ids)
  | EvFindRelations ids _ => Some (DRelations, ids)
  | _ => None
  end.

Definition isDetailQuery (e : Event) : bool :=
  match detailQuery e with Some _ => true | None => false end.

Definition detailQueries (evs : list Event) : list (Detail * list Z) := omap detailQuery evs.

(** The five queries in the order of the code, all for the same tasks. *)
Definition allDetailQueries (ids : list Z) : list (Detail * list Z) :=
  [(DAttachments, ids); (DLabelTasks, ids); (DAssignees, ids); (DComments, ids);
   (DRelations, ids)].

(** The queries [qs] are made, in order: the first of them in every
    run, all of them in a run that succeeds. *)
Definition asked (qs : list (Detail * list Z)) {A} (r : Res A) (evs : list Event) : Prop :=
  phaseDone (λ evs, detailQueries evs `prefix_of` qs) (λ evs, detailQueries evs = qs) r evs.

(** The projects the buckets, the user rights and the team rights were
    queried for. *)
Definition bucketQueries (evs : list Event) : list Z :=
  omap (λ e, match e with EvFindBuckets pid _ => Some pid | _ => None end) evs.

Definition projectUserQueries (evs : list Event) : list Z :=
  omap (λ e, match e with EvFindProjectUsers pid _ => Some pid | _ => None end) evs.

Definition teamProjectQueries (evs : list Event) : list Z :=
  omap (λ e, match e with EvFindTeamProjects pid _ => Some pid | _ => None end) evs.

(** The buckets are copied: one query, for the source project; the
    buckets created are the copies of the buckets found, and each has been
    given an identity. *)
Definition bucketsCopied (src dest : Z) (evs : list Event) : Prop :=
  bucketQueries evs = [src]
  ∧ createdBuckets evs = copyOfBucket dest <$> foundBuckets evs
  ∧ length (newBucketIDs evs) = length (foundBuckets evs).

Definition projectUsersCopied (src dest : Z) (evs : list Event) : Prop :=
  projectUserQueries evs = [src]
  ∧ insertedProjectUsers evs = copyOfProjectUser dest <$> foundProjectUsers evs.

Definition teamProjectsCopied (src dest : Z) (evs : list Event) : Prop :=
  teamProjectQueries evs = [src]
  ∧ insertedTeamProjects evs = copyOfTeamProject dest <$> foundTeamProjects evs.

(** The calls of the step that copies the rights and the shares. *)
Definition isRightsEvent (e : Event) : bool :=
  isProjectUserEvent e || isTeamProjectEvent e || isLinkShareEvent e.

(** ** The background *)

(** The calls that copy the background: the new file, the lookup and the
    copy of the external-image attribution, the assignment to the project. *)
Definition isBackgroundEvent (e : Event) : bool :=
  match e with
  | EvFilesCreate _ _ _ _ _ | EvGetUnsplash _ _ | EvSaveUnsplash _ _
  | EvSetBackground _ _ _ _ => true
  | _ => false
  end.

(** The trace of a successful copy of the background of the project [p],
    once its file [f] is loaded: [files.Create] on the content, name and size
    of [f]; the lookup of the attribution by the identity of the old file;
    if it handed back a photo, the [Save] of that photo with identity zero and
    the new file; [SetProjectBackground] with the new project, the new file
    and the blur hash of [p]. *)
Definition backgroundCopied (p : Project) (doer : Auth) (f : File) (evs : list Event)
  : Prop :=
  ∃ file up err saved,
    evs = [EvFilesCreate (File_File f) (File_Name f) (File_Size f) doer (file, None);
           EvGetUnsplash (Project_BackgroundFileID p) (up, err)]
          ++ saved
          ++ [EvSetBackground (Project_ID p) file (Project_BackgroundBlurHash p) None]
    ∧ match up with
      | Some u => ∃ u', saved = [EvSaveUnsplash
                                   {| UnsplashPhoto_ID := 0;
                                      UnsplashPhoto_FileID := File_ID file;
                                      UnsplashPhoto_Rest := UnsplashPhoto_Rest u |}
                                   (u', None)]
      | None => saved = []
      end.

(** The trace of "Background files + unsplash info" and "Rights / Shares"
    in a run that succeeds.  Without a background, no file is loaded and no
    background call is made.  With one: the metadata and the content of the
    file are loaded, the background is copied, the rights and shares are
    copied, and the file is then closed, last of all. *)
Definition backgroundTrace (p : Project) (doer : Auth) (evs : list Event) : Prop :=
  if decide (Project_BackgroundFileID p = 0) then
    Forall (λ e, isBackgroundEvent e = false ∧ isFileEvent e = false) evs
  else
    ∃ f1 f2 h copy rights res,
      evs = [EvLoadFileMeta (File_withID (Project_BackgroundFileID p)) (f1, None);
             EvLoadFile f1 (f2, None)]
            ++ copy ++ rights ++ [EvClose h res]
      ∧ File_File f2 = Some h
      ∧ backgroundCopied p doer f2 copy
      ∧ Forall (λ e, isBackgroundEvent e = false ∧ isFileEvent e = false) rights.

(** ** The order of the calls *)

(** The step of the duplication a call belongs to, in the order of the
    code: for each kind of row the query comes before the calls that create
    the copies.  The loads and the [Close] of a file have no step of their
    own: the attachments and the background both make them. *)
Definition phase (e : Event) : option Z :=
  match e with
  | EvCanRead _ _ _ => Some 0
  | EvCanCreate _ _ _ => Some 1
  | EvCreateProject _ _ _ => Some 10
  | EvFindBuckets _ _ => Some 20
  | EvBucketCreate _ _ _ => Some 21
  | EvGetTasks _ _ _ => Some 30
  | EvCreateTask _ _ _ _ => Some 31
  | EvGetAttachments _ _ => Some 40
  | EvNewAttachment _ _ _ _ _ _ => Some 41
  | EvFindLabelTasks _ _ => Some 50
  | EvInsertLabelTask _ _ => Some 51
  | EvFindAssignees _ _ => Some 60
  | EvAddAssignee _ _ _ _ _ => Some 61
  | EvFindComments _ _ => Some 70
  | EvInsertComment _ _ => Some 71
  | EvFindRelations _ _ => Some 80
  | EvInsertRelation _ _ => Some 81
  | EvFilesCreate _ _ _ _ _ => Some 90
  | EvGetUnsplash _ _ => Some 91
  | EvSaveUnsplash _ _ => Some 92
  | EvSetBackground _ _ _ _ => Some 93
  | EvFindProjectUsers _ _ => Some 100
  | EvInsertProjectUser _ _ => Some 101
  | EvFindTeamProjects _ _ => Some 110
  | EvInsertTeamProject _ _ => Some 111
  | EvFindLinkShares _ _ => Some 120
  | EvRandomString _ _ | EvInsertLinkSharing _ _ => Some 121
  | EvLoadFileMeta _ _ | EvLoadFile _ _ | EvClose _ _ => None
  end.

(** The steps of a trace are in order, none before [lo], none after [hi]. *)
Definition bounded (lo hi : Z) (evs : list Event) : Prop :=
  StronglySorted Z.le (lo :: omap phase evs ++ [hi]).

Definition ordered {S A} (lo hi : Z) (m : M S A) : Prop :=
  emits m (λ _ evs, bounded lo hi evs).

(** ** Which file the attachment loop closes *)

(** Two ways [NewAttachment] may leave the pointer [attachment.File]: as
    it found it, or on a file with no open content (as it does if it puts
    there the file it has just stored). *)
Definition KeepsFile {S} (c : Collab S) : Prop :=
  ∀ ta h name size a s ta' s',
    TaskAttachment_NewAttachment c ta h name size a s = ((ta', None), s') →
    TaskAttachment_File ta' = TaskAttachment_File ta.

Definition LeavesStoredFile {S} (c : Collab S) : Prop :=
  ∀ ta h name size a s ta' s' f,
    TaskAttachment_NewAttachment c ta h name size a s = ((ta', None), s') →
    TaskAttachment_File ta' = Some f → File_File f = None.

(** The handles closed are the handles opened, in the same order, when
    the run succeeds. *)
Definition balanced {A} (r : Res A) (evs : list Event) : Prop :=
  (∃ a, r = Ok a) → closedHandles evs = openedHandles evs.

Arguments balanced : simpl never.

(** ** A store whose [NewAttachment] swaps the file of the attachment *)

(** The collaborators [c] with another [NewAttachment]. *)
Definition withNewAttachment {S}
    (f : TaskAttachment → option Handle → string → Z → Auth → S
         → (TaskAttachment * option Err) * S)
    (c : Collab S) : Collab S :=
  {| Project_CanRead := Project_CanRead c;
     Project_CanCreate := Project_CanCreate c;
     CreateProject := CreateProject c;
     FindBuckets := FindBuckets c;
     Bucket_Create := Bucket_Create c;
     getTasksForProjects := getTasksForProjects c;
     createTask := createTask c;
     getTaskAttachmentsByTaskIDs := getTaskAttachmentsByTaskIDs c;
     File_LoadFileMetaByID := File_LoadFileMetaByID c;
     File_LoadFileByID := File_LoadFileByID c;
     TaskAttachment_NewAttachment := f;
     Handle_Close := Handle_Close c;
     FindLabelTasks := FindLabelTasks c;
     FindAssignees := FindAssignees c;
     FindComments := FindComments c;
     FindRelations := FindRelations c;
     InsertLabelTask := InsertLabelTask c;
     InsertComment := InsertComment c;
     InsertRelation := InsertRelation c;
     Task_addNewAssigneeByID := Task_addNewAssigneeByID c;
     files_Create := files_Create c;
     GetUnsplashPhotoByFileID := GetUnsplashPhotoByFileID c;
     UnsplashPhoto_Save := UnsplashPhoto_Save c;
     SetProjectBackground := SetProjectBackground c;
     FindProjectUsers := FindProjectUsers c;
     FindTeamProjects := FindTeamProjects c;
     FindLinkShares := FindLinkShares c;
     InsertProjectUser := InsertProjectUser c;
     InsertTeamProject := InsertTeamProject c;
     InsertLinkSharing := InsertLinkSharing c;
     MakeRandomString := MakeRandomString c |}.

(** The scripted store with a [NewAttachment] that stores the content as
    a new file and leaves that file, which has no open content, in the
    attachment. *)
Definition storing (sc : Script) : Collab nat :=
  withNewAttachment
    (λ ta h name size a n,
       let stored := {| File_ID := newID (n + 1); File_Name := name; File_Size := size;
                        File_File := None |} in
       ((TaskAttachment_set_File (Some stored)
           (TaskAttachment_set_FileID (newID (n + 1)) (TaskAttachment_set_ID (newID n) ta)),
         None), (n + 2)%nat))
    (scripted sc).

(** ** The queries behind the rows found *)

(** The task identities the relations, and the attachments, were queried
    for; the projects the link shares were queried for. *)
Definition relationQueries (evs : list Event) : list (list Z) :=
  omap (λ e, match e with EvFindRelations ids _ => Some ids | _ => None end) evs.

Definition attachmentQueries (evs : list Event) : list (list Z) :=
  omap (λ e, match e with EvGetAttachments ids _ => Some ids | _ => None end) evs.

Definition linkShareQueries (evs : list Event) : list Z :=
  omap (λ e, match e with EvFindLinkShares pid _ => Some pid | _ => None end) evs.

(** The relations are queried once, for the tasks [ids], and the rows
    found are those the store answered with. *)
Definition relationsQueried {S} (c : Collab S) (ids : list Z) (evs : list Event) : Prop :=
  relationQueries evs = [ids]
  ∧ ∃ s, (FindRelations c ids s).1 = (foundRelations evs, None).

Definition attachmentsQueried {S} (c : Collab S) (ids : list Z) (evs : list Event) : Prop :=
  attachmentQueries evs = [ids]
  ∧ ∃ s, (getTaskAttachmentsByTaskIDs c ids s).1 = (listedAttachments evs, None).

Definition linkSharesQueried {S} (c : Collab S) (pid : Z) (evs : list Event) : Prop :=
  linkShareQueries evs = [pid]
  ∧ ∃ s, (FindLinkShares c pid s).1 = (foundLinkShares evs, None).

(** ** The call that ends a run *)

(** A run that returns an error returns the error of a call, which [F]
    holds of, and after which the run made only the calls [post], which [P]
    holds of. *)
Definition endsOn (F : Event → Err → Prop) (P : list Event → Prop) {A}
    (r : Res A) (evs : list Event) : Prop :=
  ∀ e, r = Fail e →
    ∃ pre ev post, evs = pre ++ ev :: post ∧ errorOf ev = Some e ∧ F ev e ∧ P post.

Arguments endsOn : simpl never.

(** An error the code does not go on after. *)
Definition fatal (ev : Event) (e : Err) : Prop := swallowed ev e = false.

(** What ends [Create] with an error: an error the code does not go on
    after, or any error of the metadata load of the background file [bg]. *)
Definition fatalOrBackground (bg : Z) (ev : Event) (e : Err) : Prop :=
  fatal ev e ∨ ∃ res, ev = EvLoadFileMeta (File_withID bg) res.

(** The files [NewAttachment] was called for. *)
Definition copiedFiles (evs : list Event) : list Z :=
  omap (λ e, match e with
             | EvNewAttachment ta _ _ _ _ _ => Some (TaskAttachment_FileID ta)
             | _ => None
             end) evs.

(** What the calls of [CreateProject] returned as their error. *)
Definition createProjectErrors (evs : list Event) : list (option Err) :=
  omap (λ e, match e with EvCreateProject _ _ (_, err) => Some err | _ => None end) evs.

(** * Rights (pkg/models/rights.go) *)

(** [type Right int]. *)
Definition Right : Type := Z.

(** [RightUnknown = -1], an untyped constant: as a [Right] it is the
    number -1. *)
Definition RightUnknown : Right := -1.

(** [RightRead Right = iota], then [RightWrite] and [RightAdmin]. *)
Definition RightRead : Right := 0.
Definition RightWrite : Right := 1.
Definition RightAdmin : Right := 2.

Inductive RightErr : Type := ErrInvalidRight (r : Right).

(** [Right.isValid]: [None] for a nil error. *)
Definition Right_isValid (r : Right) : option RightErr :=
  if negb (r =? RightAdmin) && negb (r =? RightRead) && negb (r =? RightWrite)
  then Some (ErrInvalidRight r)
  else None.

(** * The task list of the web front end (mixin of the list views)

    The page numbers are JavaScript numbers with integer values, modelled
    by [Z]; a page number that arrives as a string, for which [+] is a
    concatenation, is outside the model. *)

(** An entry of [this.pages]. *)
Record PageLink : Type := { number : Z; isEllipsis : bool }.

(** The test of the loop of [loadTasks] under which page [i + 1] gets no
    entry of its own:
    [i > 0 && (i + 1) < totalPages &&
     ((i + 1) > currentPage + 1 || (i + 1) < currentPage - 1)]. *)
Definition isHiddenPage (totalPages currentPage i : Z) : bool :=
  (0 <? i) && (i + 1 <? totalPages)
  && ((currentPage + 1 <? i + 1) || (i + 1 <? currentPage - 1)).

(** One round of the loop, on [this.pages].  [this.pages[i - 1]] is
    [undefined], which is falsy, when the array has no index [i - 1]. *)
Definition pageStep (totalPages currentPage : Z) (pages : list PageLink) (i : Z)
  : list PageLink :=
  if isHiddenPage totalPages currentPage i then
    match pages !! Z.to_nat (i - 1) with
    | Some p =>
        if negb (isEllipsis p) then pages ++ [{| number := 0; isEllipsis := true |}]
        else pages
    | None => pages
    end
  else pages ++ [{| number := i + 1; isEllipsis := false |}].

(** [this.pages] after the loop
    [for (let i = 0; i < totalPages; i++)], started on the empty array. *)
Definition buildPages (totalPages currentPage : Z) : list PageLink :=
  foldl (pageStep totalPages currentPage) [] (seqZ 0 totalPages).

(** The data of the mixin; [tasks] is [None] for [null]. *)
Record TaskList (T : Type) : Type := {
  tasks : option (list T);
  pages : list PageLink;
  currentPage : Z;
  showTaskSearch : bool;
  searchTerm : string
}.

Arguments tasks {T}.
Arguments pages {T}.
Arguments currentPage {T}.
Arguments showTaskSearch {T}.
Arguments searchTerm {T}.

(** [loadTasks], the callback that receives the tasks [r] of page [page]:
    [totalPages] is what the service reports. *)
Definition loadTasks_then {T} (r : list T) (page totalPages : Z) (this : TaskList T)
  : TaskList T :=
  {| tasks := Some r;
     pages := buildPages totalPages page;
     currentPage := page;
     showTaskSearch := showTaskSearch this;
     searchTerm := searchTerm this |}.

(** The numbers of the pages that get an entry: the first, the last and
    the current page with its two neighbours. *)
Definition isShownPage (totalPages currentPage n : Z) : bool :=
  (n <=? 1) || (totalPages <=? n) || ((currentPage - 1 <=? n) && (n <=? currentPage + 1)).

Definition pageNumbers (ps : list PageLink) : list Z :=
  number <$> filter (λ p, isEllipsis p = false) ps.

Definition pageLink (n : Z) : PageLink := {| number := n; isEllipsis := false |}.

Definition ellipsis : PageLink := {| number := 0; isEllipsis := true |}.

(** No two ellipses in a row. *)
Fixpoint noTwoEllipses (ps : list PageLink) : bool :=
  match ps with
  | p :: (q :: _) as rest => negb (isEllipsis p && isEllipsis q) && noTwoEllipses rest
  | _ => true
  end.

(** ** Sorting the tasks of a list *)

(** What [sortTasks] reads of a task: [done], a boolean, and [id], a
    number with an integer value. *)
Record TaskItem : Type := { item_done : bool; item_id : Z; item_title : string }.

(** [x < y] on booleans, which JavaScript compares as the numbers 0 and 1. *)
Definition boolLt (x y : bool) : bool := negb x && y.

(** The comparison function [sortTasks] hands to [Array.prototype.sort]. *)
Definition compareTasks (a b : TaskItem) : Z :=
  if boolLt (item_done a) (item_done b) then -1
  else if boolLt (item_done b) (item_done a) then 1
  else if item_id b <? item_id a then -1
  else if item_id a <? item_id b then 1
  else 0.

(** [sortTasks], with [sort] for [Array.prototype.sort]: the results are
    the data of the mixin, whose array is sorted in place, and the value
    returned, [None] for [undefined].  [this.tasks === []] compares the
    array with a new one and is false for every array. *)
Definition sortTasks (sort : (TaskItem → TaskItem → Z) → list TaskItem → list TaskItem)
    (this : TaskList TaskItem) : TaskList TaskItem * option (list TaskItem) :=
  match tasks this with
  | None => (this, None)
  | Some l =>
      let sorted := sort compareTasks l in
      ({| tasks := Some sorted; pages := pages this; currentPage := currentPage this;
          showTaskSearch := showTaskSearch this; searchTerm := searchTerm this |},
       Some sorted)
  end.

(** The order the comparison function stands for: tasks that are not
    done before those that are; among tasks of the same state, the greater
    identity first. *)
Definition undoneThenNewest (a b : TaskItem) : Prop :=
  (item_done a = false ∧ item_done b = true)
  ∨ (item_done a = item_done b ∧ item_id b ≤ item_id a).

(** What ECMAScript asks of a comparison function for the result of
    [sort] to be defined: it is a consistent comparator. *)
Record ConsistentComparator {A} (cmp : A → A → Z) : Prop := {
  cmp_refl : ∀ a, cmp a a = 0;
  cmp_antisym : ∀ a b, Z.sgn (cmp b a) = - Z.sgn (cmp a b);
  cmp_trans : ∀ a b c', cmp a b ≤ 0 → cmp b c' ≤ 0 → cmp a c' ≤ 0
}.

(** What ECMAScript promises of [sort] in return: the elements are
    permuted so that no element compares greater than a later one. *)
Definition SortContract {A} (sort : (A → A → Z) → list A → list A) : Prop :=
  ∀ cmp l, ConsistentComparator cmp →
    sort cmp l ≡ₚ l ∧ StronglySorted (λ a b, cmp a b ≤ 0) (sort cmp l).

(** A sort that keeps the contract, to run [sortTasks] with. *)
Definition mergeSort {A} (cmp : A → A → Z) (l : list A) : list A :=
  @merge_sort A (λ a b, cmp a b ≤ 0) (λ a b, decide (cmp a b ≤ 0)) l.

Definition demoTasks : list TaskItem :=
  [ {| item_done := true; item_id := 3; item_title := "c" |};
    {| item_done := false; item_id := 1; item_title := "a" |};
    {| item_done := false; item_id := 7; item_title := "g" |};
    {| item_done := true; item_id := 9; item_title := "i" |} ].

Definition demoList : TaskList TaskItem :=
  {| tasks := Some demoTasks; pages := []; currentPage := 1;
     showTaskSearch := false; searchTerm := "" |}.

(** * Properties *)

(** ** The monad: how runs decompose *)

Section Runs.

Context {S : Type}.

Implicit Types (st : St S) (evs : list Event).

Lemma bind_run {A B} (m : M S A) (k : A → M S B) st :
  (m ≫= k) st = match m st with
                | (Ok a, st1) => k a st1
                | (Fail e, st1) => (Fail e, st1)
                | (Panic, st1) => (Panic, st1)
                end.
Proof. reflexivity. Qed.

Lemma call_run {A} (f : S → A * S) (ev : A → Event) st :
  call f ev st = (Ok (f (sess st)).1,
                  {| sess := (f (sess st)).2; log := log st ++ [ev (f (sess st)).1] |}).
Proof. unfold call, callS. by destruct (f (sess st)). Qed.

Lemma emits_mono {A} (m : M S A) (Q Q' : Res A → list Event → Prop) :
  emits m Q → (∀ r evs, Q r evs → Q' r evs) → emits m Q'.
Proof.
  intros Hm HQ st r st' Hrun. destruct (Hm _ _ _ Hrun) as (evs & ? & ?). eauto.
Qed.

Lemma emits_ret {A} (a : A) (Q : Res A → list Event → Prop) :
  Q (Ok a) [] → emits (mret a : M S A) Q.
Proof.
  intros HQ st r st' [= <- <-]. exists []. by rewrite app_nil_r.
Qed.

Lemma emits_fail {A} (e : Err) (Q : Res A → list Event → Prop) :
  Q (Fail e) [] → emits (fail e : M S A) Q.
Proof.
  intros HQ st r st' [= <- <-]. exists []. by rewrite app_nil_r.
Qed.

Lemma emits_panic {A} (Q : Res A → list Event → Prop) :
  Q Panic [] → emits (panic : M S A) Q.
Proof.
  intros HQ st r st' [= <- <-]. exists []. by rewrite app_nil_r.
Qed.

Lemma emits_try (err : option Err) (Q : Res unit → list Event → Prop) :
  (err = None → Q (Ok tt) []) → (∀ e, err = Some e → Q (Fail e) []) →
  emits (try err : M S unit) Q.
Proof.
  intros H1 H2. destruct err as [e|]; [apply emits_fail | apply emits_ret]; auto.
Qed.

Lemma emits_call {A} (f : S → A * S) (ev : A → Event) (Q : Res A → list Event → Prop) :
  (∀ s a s1, f s = (a, s1) → Q (Ok a) [ev a]) → emits (call f ev) Q.
Proof.
  intros HQ st r st'. rewrite call_run. intros [= <- <-]. eexists; split; [done|].
  apply (HQ (sess st) _ (f (sess st)).2). by destruct (f (sess st)).
Qed.

Lemma emits_bind {A B} (m : M S A) (k : A → M S B)
    (Q1 : Res A → list Event → Prop) (Q : Res B → list Event → Prop) :
  emits m Q1 →
  (∀ a evs1, Q1 (Ok a) evs1 → emits (k a) (λ r evs2, Q r (evs1 ++ evs2))) →
  (∀ e evs, Q1 (Fail e) evs → Q (Fail e) evs) →
  (∀ evs, Q1 Panic evs → Q Panic evs) →
  emits (m ≫= k) Q.
Proof.
  intros Hm Hk HF HP st r st'. rewrite bind_run.
  destruct (m st) as [[a|e|] st1] eqn:Em;
    destruct (Hm _ _ _ Em) as (evs1 & Hl1 & HQ1).
  - intros Ek. destruct (Hk a _ HQ1 _ _ _ Ek) as (evs2 & Hl2 & HQ2).
    exists (evs1 ++ evs2). split; [by rewrite Hl2, Hl1, app_assoc | done].
  - intros [= <- <-]. eauto.
  - intros [= <- <-]. eauto.
Qed.

Lemma emits_assoc {A B C} (m : M S A) (f : A → M S B) (g : B → M S C)
    (Q : Res C → list Event → Prop) :
  emits (m ≫= λ a, f a ≫= g) Q → emits ((m ≫= f) ≫= g) Q.
Proof.
  intros H st r st' Hrun. apply H. rewrite <- Hrun, !bind_run.
  by destruct (m st) as [[a|e|] st1].
Qed.

Lemma emits_ret_bind {A B} (a : A) (k : A → M S B) (Q : Res B → list Event → Prop) :
  emits (k a) Q → emits (mret a ≫= k) Q.
Proof. intros H st r st' Hrun. by apply H. Qed.

Lemma emits_fail_bind {A B} (e : Err) (k : A → M S B) (Q : Res B → list Event → Prop) :
  Q (Fail e) [] → emits (fail e ≫= k) Q.
Proof. intros H. by apply (emits_fail (A:=B)). Qed.

Lemma emits_panic_bind {A B} (k : A → M S B) (Q : Res B → list Event → Prop) :
  Q Panic [] → emits (panic ≫= k) Q.
Proof. intros H. by apply (emits_panic (A:=B)). Qed.

Lemma emits_try_bind {B} (err : option Err) (k : unit → M S B)
    (Q : Res B → list Event → Prop) :
  (∀ e, err = Some e → Q (Fail e) []) → (err = None → emits (k tt) Q) →
  emits (try err ≫= k) Q.
Proof.
  intros H1 H2. destruct err as [e|]; simpl.
  - apply emits_fail_bind; auto.
  - apply emits_ret_bind; auto.
Qed.

Lemma emits_call_bind {A B} (f : S → A * S) (ev : A → Event) (k : A → M S B)
    (Q : Res B → list Event → Prop) :
  (∀ s a s1, f s = (a, s1) → emits (k a) (λ r evs, Q r (ev a :: evs))) →
  emits (call f ev ≫= k) Q.
Proof.
  intros H. eapply emits_bind with
    (Q1 := λ r evs, ∃ s a s1, f s = (a, s1) ∧ r = Ok a ∧ evs = [ev a]).
  - apply emits_call. eauto 10.
  - intros a evs1 (s & a' & s1 & Hf & [= ->] & ->). by eapply H.
  - intros e evs (? & ? & ? & ? & ? & ?). done.
  - intros evs (? & ? & ? & ? & ? & ?). done.
Qed.

Lemma emits_finally {A} (fin : M S unit) (m : M S A)
    (Q1 : Res A → list Event → Prop) (P : list Event → Prop)
    (Q : Res A → list Event → Prop) :
  emits m Q1 → emits fin (λ _ evs, P evs) →
  (∀ r evs1 evs2, Q1 r evs1 → P evs2 → Q r (evs1 ++ evs2)) →
  emits (finally fin m) Q.
Proof.
  intros Hm Hfin HQ st r st'. unfold finally.
  destruct (m st) as [r1 st1] eqn:Em. destruct (fin st1) as [r2 st2] eqn:Ef.
  intros [= <- <-].
  destruct (Hm _ _ _ Em) as (evs1 & Hl1 & HQ1).
  destruct (Hfin _ _ _ Ef) as (evs2 & Hl2 & HQ2).
  exists (evs1 ++ evs2). split; [by rewrite Hl2, Hl1, app_assoc | eauto].
Qed.

(** *** Properties of every logged event *)

Lemma allEv_ret {A} P (a : A) : allEv P (mret a : M S A).
Proof. by apply emits_ret. Qed.

Lemma allEv_fail {A} P (e : Err) : allEv P (fail e : M S A).
Proof. by apply emits_fail. Qed.

Lemma allEv_panic {A} P : allEv P (panic : M S A).
Proof. by apply emits_panic. Qed.

Lemma allEv_try P (err : option Err) : allEv P (try err : M S unit).
Proof. by apply emits_try. Qed.

Lemma allEv_call {A} P (f : S → A * S) (ev : A → Event) :
  (∀ s a s1, f s = (a, s1) → P (ev a)) → allEv P (call f ev).
Proof. intros H. apply emits_call. intros s a s1 Hf. constructor; eauto. Qed.

Lemma allEv_bind {A B} P (m : M S A) (k : A → M S B) :
  allEv P m → (∀ a, allEv P (k a)) → allEv P (m ≫= k).
Proof.
  intros Hm Hk. eapply emits_bind; [exact Hm | | done | done]. simpl.
  intros a evs1 H1. eapply emits_mono; [apply Hk|]. simpl.
  intros. by apply Forall_app.
Qed.

Lemma allEv_finally {A} P (fin : M S unit) (m : M S A) :
  allEv P m → allEv P fin → allEv P (finally fin m).
Proof.
  intros Hm Hf. eapply emits_finally; [exact Hm | exact Hf |]; simpl.
  intros. by apply Forall_app.
Qed.

Lemma allEv_forM {A} P (xs : list A) (body : A → M S unit) :
  (∀ x, x ∈ xs → allEv P (body x)) → allEv P (forM_ xs body).
Proof.
  induction xs as [|x xs IH]; intros Hb; simpl.
  - apply allEv_ret.
  - apply allEv_bind; [apply Hb; left | intros _; apply IH].
    intros y Hy. apply Hb. by right.
Qed.

Lemma allEv_foldM {A B} P (body : B → A → M S B) (xs : list A) (acc : B) :
  (∀ b x, x ∈ xs → allEv P (body b x)) → allEv P (foldM body acc xs).
Proof.
  revert acc. induction xs as [|x xs IH]; intros acc Hb; simpl.
  - apply allEv_ret.
  - apply allEv_bind; [apply Hb; left | intros b; apply IH].
    intros b' y Hy. apply Hb. by right.
Qed.

Lemma allEv_mono {A} (P P' : Event → Prop) (m : M S A) :
  allEv P m → (∀ e, P e → P' e) → allEv P' m.
Proof.
  intros Hm HP. eapply emits_mono; [exact Hm|]. simpl.
  intros _ evs Hevs. eapply Forall_impl; [exact Hevs | exact HP].
Qed.

End Runs.

(** Breaks a program down to its calls, leaving for each call the
    property of its event. *)
Ltac allEv_step :=
  first
    [ apply allEv_ret | apply allEv_fail | apply allEv_panic | apply allEv_try
    | apply allEv_bind | apply allEv_finally
    | apply allEv_forM; intros ? _ | apply allEv_foldM; intros ? ? _
    | apply allEv_call; intros ? ? ? _
    | match goal with
      | |- allEv _ (match ?x with _ => _ end) => destruct x
      | |- allEv _ (let '(_, _) := ?x in _) => destruct x
      | |- allEv _ ((let '(_, _) := ?x in _) _) => destruct x
      | |- ∀ _, _ => intros ?
      end ].

Ltac unfold_program :=
  unfold copyContents, copyBuckets, copyBucket, duplicateTasks, copyTaskDetails,
    createTasks, copyTask, copyAttachments, copyAttachment, copyLabelTasks, copyLabelTask,
    copyAssignees, copyAssignee, copyComments, copyComment, copyRelations, copyRelation,
    copyBackgroundAndShares, copyBackgroundFile, copyRightsAndShares, copyProjectUsers,
    copyTeamProjects, copyLinkShares, copyLinkShare.

Ltac allEv_auto := repeat (allEv_step; simpl).

(** Runs a program one step on, under [emits]. *)
Ltac emits_step :=
  lazymatch goal with
  | |- emits (mbind _ (mbind _ _)) _ => apply emits_assoc
  | |- emits (mbind _ (call _ _)) _ => apply emits_call_bind; intros ? ? ? ?
  | |- emits (mbind _ (try _)) _ => apply emits_try_bind; [intros ? ? | intros ?]
  | |- emits (mbind _ (mret _)) _ => apply emits_ret_bind
  | |- emits (mbind _ (fail _)) _ => apply emits_fail_bind
  | |- emits (mbind _ panic) _ => apply emits_panic_bind
  | |- emits (mret _) _ => apply emits_ret
  | |- emits (fail _) _ => apply emits_fail
  | |- emits panic _ => apply emits_panic
  | |- emits (try _) _ => apply emits_try; [intros ? | intros ? ?]
  | |- emits (mbind _ (match ?x with _ => _ end)) _ =>
      first [ is_var x; destruct x | destruct x eqn:? ]
  | |- emits (match ?x with _ => _ end) _ =>
      first [ is_var x; destruct x | destruct x eqn:? ]
  end.

Ltac emits_go := repeat (emits_step; simpl; try subst).

(** Closes a goal by the cases of a disjunction that contradict it. *)
Ltac by_cases :=
  intros; subst; simpl in *;
  repeat match goal with H : _ ∨ _ |- _ => destruct H end;
  subst; simpl in *; congruence.

(** For a goal [∀ e ev, ev ∈ evs → F e ev → _] over an explicit trace:
    one case per event of the trace, trying [tac] on each, and leaving the
    cases of the tail of the trace. *)
Ltac trace_cases tac :=
  let e := fresh "e" in
  let ev := fresh "ev" in
  let Hin := fresh "Hin" in
  let Hf := fresh "Hf" in
  intros e ev Hin Hf;
  repeat (apply elem_of_cons in Hin as [->|Hin]); simpl in Hf;
  try (by apply elem_of_nil in Hin);
  try done; try (destruct Hf; congruence); try congruence; try tac.

(** The same, keeping for each call the equation of its results. *)
Ltac allEv_calls :=
  repeat (first [ apply allEv_call; intros ? ? ? ? | allEv_step ]; simpl).

Section Properties.

Context {S : Type} (c : Collab S).

Implicit Types (st : St S) (evs : list Event) (ld : ProjectDuplicate) (doer : Auth).

(** *** The runs of [Create] *)

(** [Create] calls [CreateProject]; it stops there on an error other than
    the identifier collision, and goes on with [copyContents] otherwise (on a
    collision with the identifier cleared). *)
Lemma Create_run ld doer st :
  let p0 := Project_set_OwnerID (GetID doer)
              (Project_set_Identifier "" (Project_set_ID 0 (TheProject ld))) in
  ∃ p1 err s1,
    CreateProject c p0 doer (sess st) = ((p1, err), s1) ∧
    let st1 := {| sess := s1; log := log st ++ [EvCreateProject p0 doer (p1, err)] |} in
    match err with
    | Some e =>
        if IsErrProjectIdentifierIsNotUnique e then
          let ld1 := set_TheProject (Project_set_Identifier "" p1) ld in
          Create c ld doer st
          = ((ld1, (copyContents c ld1 doer st1).1), (copyContents c ld1 doer st1).2)
        else Create c ld doer st = ((set_TheProject p1 ld, Fail e), st1)
    | None =>
        let ld1 := set_TheProject p1 ld in
        Create c ld doer st
        = ((ld1, (copyContents c ld1 doer st1).1), (copyContents c ld1 doer st1).2)
    end.
Proof.
  simpl. unfold Create, callS.
  destruct (CreateProject c _ doer (sess st)) as [[p1 err] s1] eqn:Ecp.
  exists p1, err, s1. split; [done|].
  destruct err as [e|]; [destruct (IsErrProjectIdentifierIsNotUnique e)|];
    try done; by destruct (copyContents c _ doer _).
Qed.

Lemma Create_emits (Q : Res unit → list Event → Prop) ld doer st :
  (∀ p s p1 e s1, CreateProject c p doer s = ((p1, Some e), s1) →
     IsErrProjectIdentifierIsNotUnique e = false →
     Q (Fail e) [EvCreateProject p doer (p1, Some e)]) →
  (∀ ld1 p s r s1, CreateProject c p doer s = (r, s1) →
     emits (copyContents c ld1 doer) (λ res evs, Q res (EvCreateProject p doer r :: evs))) →
  ∃ evs, log (Create c ld doer st).2 = log st ++ evs ∧ Q (Create c ld doer st).1.2 evs.
Proof.
  intros Hstop Hgo. destruct (Create_run ld doer st) as (p1 & err & s1 & Ecp & Hrun).
  simpl in Hrun.
  set (st1 := {| sess := s1; log := _ |}) in *.
  assert (Hcc : ∀ ld1, ∃ evs, log (copyContents c ld1 doer st1).2 = log st ++ evs
                         ∧ Q (copyContents c ld1 doer st1).1 evs).
  { intros ld1. destruct (copyContents c ld1 doer st1) as [r st2] eqn:Ecc.
    destruct (Hgo ld1 _ _ _ _ Ecp _ _ _ Ecc) as (evs & Hl & HQ). simpl.
    eexists. split; [|exact HQ]. rewrite Hl. simpl. by rewrite <- app_assoc. }
  destruct err as [e|]; [destruct (IsErrProjectIdentifierIsNotUnique e) eqn:Ee|];
    rewrite Hrun; simpl; [apply Hcc | | apply Hcc].
  eexists. split; [done|]. by eapply Hstop.
Qed.

(** A successful [Create] is a successful [copyContents] on the project
    it returns, after the call of [CreateProject]. *)
Lemma Create_succeeds ld doer st ld' st' :
  Create c ld doer st = ((ld', Ok tt), st') →
  ∃ p r s1,
    copyContents c ld' doer {| sess := s1; log := log st ++ [EvCreateProject p doer r] |}
    = (Ok tt, st').
Proof.
  intros Hrun. destruct (Create_run ld doer st) as (p1 & err & s1 & _ & Hrun').
  simpl in Hrun'.
  destruct err as [e|]; [destruct (IsErrProjectIdentifierIsNotUnique e)|];
    rewrite Hrun in Hrun'; try done.
  - destruct (copyContents c _ doer _) as [r2 st2] eqn:E in Hrun'.
    injection Hrun' as -> <- ->. eexists _, _, s1. exact E.
  - destruct (copyContents c _ doer _) as [r2 st2] eqn:E in Hrun'.
    injection Hrun' as -> <- ->. eexists _, _, s1. exact E.
Qed.

(** ** Identities of the copied rows *)

Lemma copyContents_zero_identity ld doer :
  allEv (λ e, ∀ id, writtenIdentity e = Some id → id = 0) (copyContents c ld doer).
Proof.
  unfold_program.
  allEv_auto; congruence.
Qed.

Lemma copyContents_new_identity ld doer src :
  NeverReuses c src →
  allEv (λ e, ∀ T id, createdIdentity e = Some (T, id) → ¬ src T id)
        (copyContents c ld doer).
Proof.
  intros [].
  unfold_program.
  allEv_calls;
    repeat match goal with
           | x : (_ * _)%type |- _ => destruct x
           | x : option Err |- _ => destruct x
           end; simpl in *; simplify_eq;
    first [ by eapply nr_bucket0; [|eassumption]
          | by eapply nr_task0; [|eassumption]
          | by eapply nr_attachment0; [|eassumption]
          | by eapply nr_labelTask0; [|eassumption]
          | by eapply nr_comment0; [|eassumption]
          | by eapply nr_relation0; [|eassumption]
          | by eapply nr_projectUser0; [|eassumption]
          | by eapply nr_teamProject0; [|eassumption]
          | by eapply nr_linkSharing0; [|eassumption]
          | by eapply nr_unsplash0; [|eassumption] ].
Qed.

(** [Create] logs the call of [CreateProject], then what [copyContents]
    logs, if it gets there. *)
Lemma Create_allEv (P : Event → Prop) ld doer st :
  (∀ p s r s1, Project_ID p = 0 → CreateProject c p doer s = (r, s1) →
               P (EvCreateProject p doer r)) →
  (∀ ld1, allEv P (copyContents c ld1 doer)) →
  ∃ evs, log (Create c ld doer st).2 = log st ++ evs ∧ Forall P evs.
Proof.
  intros Hp Hc. unfold Create, callS.
  destruct (CreateProject c _ doer (sess st)) as [[p1 err] s1] eqn:Ecp.
  apply Hp in Ecp; [|done].
  set (st1 := {| sess := s1; log := _ |}).
  assert (Hgo : ∀ ld1, ∃ evs, log (copyContents c ld1 doer st1).2 = log st ++ evs
                           ∧ Forall P evs).
  { intros ld1. destruct (copyContents c ld1 doer st1) as [r st2] eqn:Ecc.
    destruct (Hc ld1 _ _ _ Ecc) as (evs & Hl & Hevs). simpl. rewrite Hl.
    eexists. split; [symmetry; apply app_assoc|]. by constructor. }
  destruct err as [e|]; [destruct (IsErrProjectIdentifierIsNotUnique e)|].
  - specialize (Hgo (set_TheProject (Project_set_Identifier "" p1) ld)).
    by destruct (copyContents c _ doer st1).
  - simpl. eexists. split; [done|]. by constructor.
  - specialize (Hgo (set_TheProject p1 ld)). by destruct (copyContents c _ doer st1).
Qed.

(** C8. Every row the duplication hands to a creating call (project,
    bucket, task, attachment, label association, comment, relation, user
    right, team right, link share, external-image attribution) carries
    identity zero, on every path through [Create]; hence, for a store that
    gives a zero-identity row an identity outside the set [src] of the
    source identities, no created row has an identity of [src]. *)
Theorem Create_clears_identities ld doer st :
  ∃ evs, log (Create c ld doer st).2 = log st ++ evs
    ∧ Forall (λ e, ∀ id, writtenIdentity e = Some id → id = 0) evs
    ∧ ∀ src, NeverReuses c src →
        Forall (λ e, ∀ T id, createdIdentity e = Some (T, id) → ¬ src T id) evs.
Proof.
  destruct (Create_allEv (λ e, ∀ id, writtenIdentity e = Some id → id = 0) ld doer st)
    as (evs & Hl & Hz).
  { simpl. intros. congruence. }
  { intros. apply copyContents_zero_identity. }
  exists evs. split; [done|]. split; [done|]. intros src Hsrc.
  destruct (Create_allEv (λ e, ∀ T id, createdIdentity e = Some (T, id) → ¬ src T id)
              ld doer st) as (evs' & Hl' & Hn).
  { intros p s [p' [e|]] s1 Hid Hcp; simpl; [done|]. intros T id [= <- <-].
    eapply nr_project; eauto. }
  { intros. by apply copyContents_new_identity. }
  rewrite Hl in Hl'. by apply app_inv_head in Hl' as ->.
Qed.

(** ** The access gate *)

(** C7. [CanCreate] answers [(true, nil)] exactly when the read check on
    the source project answers [(true, nil)] and the create check on that
    project, moved to the target namespace, answers [(true, nil)].  When the
    read check fails or denies, its answer is returned as it is and the
    create check is not called.  The gate calls nothing but the two
    checks. *)
Theorem CanCreate_gate ld (a : Auth) st :
  let p := Project_withID (ProjectID ld) in
  let '((p1, canRead, maxRight, errR), s1) := Project_CanRead c p a (sess st) in
  let p2 := Project_set_NamespaceID (NamespaceID ld) p1 in
  let '((_, canCreate, errC), _) := Project_CanCreate c p2 a s1 in
  let '((_, answer), st') := CanCreate c ld a st in
  (answer = (true, None) ↔
     (canRead = true ∧ errR = None) ∧ (canCreate = true ∧ errC = None))
  ∧ (errR ≠ None ∨ canRead = false →
       answer = (canRead, errR)
       ∧ log st' = log st ++ [EvCanRead p a (p1, canRead, maxRight, errR)])
  ∧ ∃ evs, log st' = log st ++ evs ∧ Forall (λ e, isCheck e = true) evs.
Proof.
  unfold CanCreate, callS. simpl.
  destruct (Project_CanRead c _ a (sess st)) as [[[[p1 canRead] maxRight] errR] s1].
  destruct (Project_CanCreate c _ a s1) as [[[p3 canCreate] errC] s2] eqn:Ecc.
  destruct errR as [e|], canRead; simpl; rewrite ?Ecc.
  - split; [intuition congruence|]. split; [done|]. eexists. split; [done|]. by repeat constructor.
  - split; [intuition congruence|]. split; [done|]. eexists. split; [done|]. by repeat constructor.
  - split; [intuition congruence|]. split; [intros [|]; congruence|].
    eexists. split; [by rewrite <- app_assoc|]. by repeat constructor.
  - split; [intuition congruence|]. split; [done|]. eexists. split; [done|]. by repeat constructor.
Qed.

(** ** The task loop *)

Lemma createTasks_loop ld doer bm tasks : ∀ tm ids,
  emits (foldM (copyTask c ld doer bm) (tm, ids) tasks) (λ r evs,
    Forall (λ e, ∃ t res, e = EvCreateTask t doer false res) evs ∧
    ∀ tm' ids', r = Ok (tm', ids') →
       createdTasks evs = copyOfTask (Project_ID (TheProject ld)) bm <$> tasks
       ∧ length (newTaskIDs evs) = length tasks
       ∧ tm' = buildMap tm (zip (Task_ID <$> tasks) (newTaskIDs evs))
       ∧ ids' = ids ++ (Task_ID <$> tasks)).
Proof.
  induction tasks as [|t tasks IH]; intros tm ids; simpl.
  - apply emits_ret. split; [constructor|]. intros ? ? [= <- <-]. simpl.
    by rewrite app_nil_r.
  - unfold copyTask at 1. emits_go.
    + split; [apply Forall_singleton; eauto|]. done.
    + eapply emits_mono; [apply IH|]. simpl. intros r evs [Hall Hok].
      split; [constructor; eauto|]. intros tm' ids' ->.
      destruct (Hok _ _ eq_refl) as (Hc & Hn & -> & ->).
      unfold createdTasks, newTaskIDs in *. simpl. rewrite Hc, Hn.
      repeat split; try done. by rewrite <- app_assoc.
Qed.

Lemma emits_conj {A} (m : M S A) (Q1 Q2 : Res A → list Event → Prop) :
  emits m Q1 → emits m Q2 → emits m (λ r evs, Q1 r evs ∧ Q2 r evs).
Proof.
  intros H1 H2 st r st' Hrun.
  destruct (H1 _ _ _ Hrun) as (evs1 & Hl1 & ?).
  destruct (H2 _ _ _ Hrun) as (evs2 & Hl2 & ?).
  rewrite Hl1 in Hl2. apply app_inv_head in Hl2 as <-. eauto.
Qed.

Lemma duplicateTasks_emits doer ld bm
    (D : gmap Z Z → list Z → Res unit → list Event → Prop) :
  (∀ tm ids, emits (copyTaskDetails c ld doer tm ids) (D tm ids)) →
  emits (duplicateTasks c doer ld bm) (tasksTrace doer ld bm D).
Proof.
  intros HD. unfold duplicateTasks. emits_go.
  - exists l, (Some e), [], []. repeat split; try done; by_cases.
  - destruct l; [|done]. exists [], None, [], []. repeat split; try done.
  - eapply emits_bind; [apply createTasks_loop|..].
    + intros [tm ids] evsT [HT Hok]. destruct (Hok _ _ eq_refl) as (Hc & Hn & -> & ->).
      eapply emits_mono; [apply HD|]. simpl. intros r evsD HDr.
      exists l, None, evsT, evsD. repeat split; try done; by_cases.
    + intros e evsT [HT _]. exists l, None, evsT, []. rewrite app_nil_r.
      repeat split; try done; by_cases.
    + intros evsT [HT _]. exists l, None, evsT, []. rewrite app_nil_r.
      repeat split; try done; by_cases.
Qed.

(** *** Events that a projection of the log ignores *)

Lemma omap_ignored {A} (sel : Event → option A) (P : Event → Prop) evs :
  Forall P evs → (∀ e, P e → sel e = None) → omap sel evs = [].
Proof.
  intros Hall Hsel. induction Hall as [|e evs He _ IH]; [done|].
  simpl. by rewrite (Hsel e He).
Qed.

Lemma bind_ignored {A} (sel : Event → list A) (P : Event → Prop) evs :
  Forall P evs → (∀ e, P e → sel e = []) → evs ≫= sel = [].
Proof.
  intros Hall Hsel. induction Hall as [|e evs He _ IH]; [done|].
  simpl. by rewrite (Hsel e He).
Qed.

Lemma copyTaskDetails_no_task_event ld doer tm ids :
  allEv (λ e, isTaskEvent e = false) (copyTaskDetails c ld doer tm ids).
Proof. unfold_program. allEv_auto; done. Qed.

Lemma task_events_of_createTasks doer evsT :
  Forall (λ e, ∃ t res, e = EvCreateTask t doer false res) evsT →
  listedTasks evsT = [].
Proof.
  intros H. eapply bind_ignored; [exact H|]. by intros e (t & res & ->).
Qed.

Lemma task_events_of_details evsD :
  Forall (λ e, isTaskEvent e = false) evsD →
  listedTasks evsD = [] ∧ createdTasks evsD = [] ∧ newTaskIDs evsD = [].
Proof.
  intros H. split; [|split].
  - eapply bind_ignored; [exact H|]. by intros [].
  - eapply omap_ignored; [exact H|]. by intros [].
  - eapply omap_ignored; [exact H|]. by intros [].
Qed.

(** What a trace of [duplicateTasks] says about the tasks, whatever the
    rest of the function logs. *)
Lemma tasksTrace_tasks doer ld bm D r evs :
  tasksTrace doer ld bm (λ tm ids r evsD, Forall (λ e, isTaskEvent e = false) evsD
                                          ∧ D tm ids r evsD) r evs →
  ∃ tasks err evsT evsD,
    evs = EvGetTasks [Project_withID (ProjectID ld)] doer (tasks, err) :: evsT ++ evsD
    ∧ Forall (λ e, ∃ t res, e = EvCreateTask t doer false res) evsT
    ∧ listedTasks evs = tasks
    ∧ createdTasks evs = createdTasks evsT
    ∧ newTaskIDs evs = newTaskIDs evsT
    ∧ (r = Ok tt ∨ evsD ≠ [] →
         createdTasks evsT = copyOfTask (Project_ID (TheProject ld)) bm <$> tasks
         ∧ length (newTaskIDs evsT) = length tasks
         ∧ (tasks ≠ [] → D (taskMapOf evs) (Task_ID <$> tasks) r evsD))
    ∧ (evsD ≠ [] → tasks ≠ []).
Proof.
  intros (tasks & err & evsT & evsD & -> & HT & Hnone & Hsome).
  exists tasks, err, evsT, evsD.
  assert (Hne : evsD ≠ [] → tasks ≠ []).
  { intros Hne ->. by destruct Hnone as [_ ?]; [right|]. }
  assert (HD : listedTasks evsD = [] ∧ createdTasks evsD = [] ∧ newTaskIDs evsD = []).
  { destruct (decide (evsD = [])) as [->|Hd]; [done|].
    destruct Hsome as (_ & _ & _ & Hd'); [by right|].
    apply task_events_of_details, Hd', Hne, Hd. }
  destruct HD as (HD1 & HD2 & HD3).
  assert (HL : listedTasks (EvGetTasks [Project_withID (ProjectID ld)] doer (tasks, err)
                              :: evsT ++ evsD) = tasks).
  { unfold listedTasks in *. simpl. rewrite bind_app, HD1.
    fold (listedTasks evsT). rewrite (task_events_of_createTasks doer); [|done].
    by rewrite !app_nil_r. }
  assert (HC : createdTasks (EvGetTasks [Project_withID (ProjectID ld)] doer (tasks, err)
                               :: evsT ++ evsD) = createdTasks evsT).
  { unfold createdTasks in *. simpl. by rewrite omap_app, HD2, app_nil_r. }
  assert (HN : newTaskIDs (EvGetTasks [Project_withID (ProjectID ld)] doer (tasks, err)
                             :: evsT ++ evsD) = newTaskIDs evsT).
  { unfold newTaskIDs in *. simpl. by rewrite omap_app, HD3, app_nil_r. }
  assert (Hmap : taskMapOf (EvGetTasks [Project_withID (ProjectID ld)] doer (tasks, err)
                              :: evsT ++ evsD)
                 = buildMap ∅ (zip (Task_ID <$> tasks) (newTaskIDs evsT))).
  { unfold taskMapOf. by rewrite HL, HN. }
  rewrite Hmap. repeat split; try done.
  - by apply Hsome.
  - by apply Hsome.
  - intros Hnn. destruct Hsome as (_ & _ & _ & Hd'); [done|]. by apply Hd'.
Qed.

(** ** C1: the tasks *)



(** *** The bucket loop *)






(** ** C2: the relations *)

Lemma copyRelation_unmapped tm (x : TaskRelation) :
  tm !! TaskRelation_OtherTaskID x = None →
  copyRelation c tm x = mret tt ∧ copyOfRelation tm x = None.
Proof. intros E. unfold copyRelation, copyOfRelation. by rewrite E. Qed.

Lemma copyRelation_mapped tm (x : TaskRelation) other :
  tm !! TaskRelation_OtherTaskID x = Some other →
  let x1 := {| TaskRelation_ID := 0;
               TaskRelation_TaskID := mapGet tm (TaskRelation_TaskID x);
               TaskRelation_OtherTaskID := other;
               TaskRelation_Rest := TaskRelation_Rest x |} in
  copyRelation c tm x
  = ('(_, err) ← call (InsertRelation c x1) (EvInsertRelation x1); try err)
  ∧ copyOfRelation tm x = Some x1.
Proof. intros E. unfold copyRelation, copyOfRelation. by rewrite E. Qed.

Lemma copyRelations_loop tm rels :
  emits (forM_ rels (copyRelation c tm)) (λ r evs,
    Forall (λ e, ∃ x res, e = EvInsertRelation x res) evs
    ∧ insertedRelations evs `prefix_of` omap (copyOfRelation tm) rels
    ∧ (r = Ok tt → insertedRelations evs = omap (copyOfRelation tm) rels)).
Proof.
  induction rels as [|x rels IH]; simpl.
  - apply emits_ret. by repeat split.
  - destruct (tm !! TaskRelation_OtherTaskID x) as [other|] eqn:E.
    + destruct (copyRelation_mapped tm x other E) as [-> ->]. emits_go.
      * split; [apply Forall_singleton; eauto|]. split; [apply prefix_nil|done].
      * eapply emits_mono; [apply IH|]. simpl. intros r evs (Hall & Hpre & Hok).
        split; [constructor; eauto|]. unfold insertedRelations in *. simpl.
        split; [by apply prefix_cons|]. intros Hr. by rewrite Hok.
    + destruct (copyRelation_unmapped tm x E) as [-> ->]. emits_go.
      eapply emits_mono; [apply IH|]. done.
Qed.

Lemma copyRelations_emits tm ids :
  emits (copyRelations c tm ids) (λ r evs,
    Forall (λ e, isRelationEvent e = true) evs
    ∧ insertedRelations evs `prefix_of` omap (copyOfRelation tm) (foundRelations evs)
    ∧ (r = Ok tt →
         insertedRelations evs = omap (copyOfRelation tm) (foundRelations evs))).
Proof.
  unfold copyRelations. emits_go.
  - split; [by repeat constructor|]. split; [apply prefix_nil|done].
  - eapply emits_mono; [apply copyRelations_loop|]. simpl.
    intros r evs (Hall & Hpre & Hok).
    assert (Hf : foundRelations evs = []).
    { eapply bind_ignored; [exact Hall|]. by intros e (x & res & ->). }
    unfold foundRelations in *. simpl. rewrite Hf, app_nil_r.
    split; [|done]. constructor; [done|].
    eapply Forall_impl; [exact Hall|]. by intros e (x & res & ->).
Qed.

Lemma relation_events_ignored evs :
  Forall (λ e, isRelationEvent e = false) evs →
  foundRelations evs = [] ∧ insertedRelations evs = [].
Proof.
  intros H. split.
  - eapply bind_ignored; [exact H|]. by intros [].
  - eapply omap_ignored; [exact H|]. by intros [].
Qed.

Lemma relationsCopied_ignored tm r evs :
  Forall (λ e, isRelationEvent e = false) evs → relationsCopied tm r evs.
Proof.
  intros H. destruct (relation_events_ignored evs H) as [Hf Hi].
  unfold relationsCopied. by rewrite Hf, Hi.
Qed.

Lemma relationsCopied_frame tm r evs1 evs2 :
  Forall (λ e, isRelationEvent e = false) evs1 →
  relationsCopied tm r evs2 → relationsCopied tm r (evs1 ++ evs2).
Proof.
  intros H. destruct (relation_events_ignored evs1 H) as [Hf Hi].
  unfold relationsCopied, foundRelations, insertedRelations in *.
  by rewrite bind_app, omap_app, Hf, Hi.
Qed.

(** A phase that logs only events a property ignores, before the phase
    the property is about. *)
Lemma emits_skip {A B} (P : Event → Prop) (m : M S A) (k : A → M S B)
    (Q : Res B → list Event → Prop) :
  allEv P m → (∀ a, emits (k a) Q) →
  (∀ r evs1 evs2, Forall P evs1 → Q r evs2 → Q r (evs1 ++ evs2)) →
  (∀ r evs, Forall P evs → Q r evs) →
  emits (m ≫= k) Q.
Proof.
  intros Hm Hk Hframe Hign. eapply emits_bind; [exact Hm|..]; simpl; auto.
  intros a evs1 H1. eapply emits_mono; [apply Hk|]. simpl. auto.
Qed.

Lemma details_before_relations ld doer tm ids :
  allEv (λ e, isRelationEvent e = false ∧ isTaskEvent e = false)
        (copyAttachments c doer tm ids)
  ∧ allEv (λ e, isRelationEvent e = false ∧ isTaskEvent e = false)
          (copyLabelTasks c tm ids)
  ∧ allEv (λ e, isRelationEvent e = false ∧ isTaskEvent e = false)
          (copyAssignees c ld doer tm ids)
  ∧ allEv (λ e, isRelationEvent e = false ∧ isTaskEvent e = false)
          (copyComments c tm ids).
Proof. repeat split; unfold_program; allEv_auto; done. Qed.

Lemma copyTaskDetails_relations ld doer tm ids :
  emits (copyTaskDetails c ld doer tm ids) (λ r evs,
    Forall (λ e, isTaskEvent e = false) evs ∧ relationsCopied tm r evs).
Proof.
  destruct (details_before_relations ld doer tm ids) as (HA & HL & HAs & HC).
  assert (Hframe : ∀ (r : Res unit) evs1 evs2,
    Forall (λ e, isRelationEvent e = false ∧ isTaskEvent e = false) evs1 →
    Forall (λ e, isTaskEvent e = false) evs2 ∧ relationsCopied tm r evs2 →
    Forall (λ e, isTaskEvent e = false) (evs1 ++ evs2)
    ∧ relationsCopied tm r (evs1 ++ evs2)).
  { intros r evs1 evs2 H1 [H2 H3]. split.
    - apply Forall_app. split; [|done]. eapply Forall_impl; [exact H1|]. by intros e [].
    - apply relationsCopied_frame; [|done]. eapply Forall_impl; [exact H1|]. by intros e []. }
  assert (Hign : ∀ (r : Res unit) evs,
    Forall (λ e, isRelationEvent e = false ∧ isTaskEvent e = false) evs →
    Forall (λ e, isTaskEvent e = false) evs ∧ relationsCopied tm r evs).
  { intros r evs H. split.
    - eapply Forall_impl; [exact H|]. by intros e [].
    - apply relationsCopied_ignored. eapply Forall_impl; [exact H|]. by intros e []. }
  unfold copyTaskDetails.
  eapply emits_skip; [exact HA | intros _ | exact Hframe | exact Hign].
  eapply emits_skip; [exact HL | intros _ | exact Hframe | exact Hign].
  eapply emits_skip; [exact HAs | intros _ | exact Hframe | exact Hign].
  eapply emits_skip; [exact HC | intros _ | exact Hframe | exact Hign].
  eapply emits_mono; [apply copyRelations_emits|]. simpl.
  intros r evs (Hall & Hrel). split; [|done].
  eapply Forall_impl; [exact Hall|]. by intros [].
Qed.

(** The relations inserted by [duplicateTasks], against the relations
    found, whatever query found them: with [taskMap] the map from the
    identities of the listed tasks to those of the created tasks, the
    relations inserted are, in order, copies of the relations found whose
    [other_task_id] is a key of [taskMap], of all of them when the function
    succeeds. *)
Lemma duplicateTasks_relations_copied doer ld (bucketMap : gmap Z Z) st r st' :
  duplicateTasks c doer ld bucketMap st = (r, st') →
  ∃ evs, log st' = log st ++ evs ∧
    let taskMap := taskMapOf evs in
    insertedRelations evs `prefix_of` omap (copyOfRelation taskMap) (foundRelations evs)
    ∧ (r = Ok tt →
         insertedRelations evs = omap (copyOfRelation taskMap) (foundRelations evs))
    ∧ ∀ x : TaskRelation,
        (taskMap !! TaskRelation_OtherTaskID x = None → copyOfRelation taskMap x = None)
        ∧ ∀ new other,
            taskMap !! TaskRelation_TaskID x = Some new →
            taskMap !! TaskRelation_OtherTaskID x = Some other →
            copyOfRelation taskMap x
            = Some {| TaskRelation_ID := 0; TaskRelation_TaskID := new;
                      TaskRelation_OtherTaskID := other;
                      TaskRelation_Rest := TaskRelation_Rest x |}.
Proof.
  intros Hrun.
  destruct (duplicateTasks_emits doer ld bucketMap _
              (copyTaskDetails_relations ld doer) _ _ _ Hrun) as (evs & Hlog & Htr).
  exists evs. split; [done|]. simpl.
  assert (Hrel : relationsCopied (taskMapOf evs) r evs).
  { apply tasksTrace_tasks in Htr
      as (tasks & err & evsT & evsD & Hevs & HT & _ & _ & _ & HD & Hne).
    assert (Hpre : Forall (λ e, isRelationEvent e = false)
                     (EvGetTasks [Project_withID (ProjectID ld)] doer (tasks, err)
                      :: evsT)).
    { constructor; [done|]. eapply Forall_impl; [exact HT|]. by intros e (t & res & ->). }
    destruct (decide (evsD = [])) as [->|Hd].
    - apply relationsCopied_ignored. by rewrite Hevs, app_nil_r.
    - destruct HD as (_ & _ & HD); [by right|]. rewrite Hevs at 2.
      apply (relationsCopied_frame _ _ (_ :: _) _ Hpre). by apply HD, Hne. }
  destruct Hrel as [Hpre Hok]. split; [done|]. split; [done|].
  intros x. split.
  - intros E. unfold copyOfRelation. by rewrite E.
  - intros new other E1 E2. unfold copyOfRelation, mapGet. by rewrite E1, E2.
Qed.

(** ** C10: the task references of the copied details *)

Lemma allEv_call_bind {A B} P (f : S → A * S) (ev : A → Event) (k : A → M S B) :
  (∀ s a s1, f s = (a, s1) → P (ev a) ∧ allEv P (k a)) → allEv P (call f ev ≫= k).
Proof.
  intros H. apply emits_call_bind. intros s a s1 Hf.
  destruct (H s a s1 Hf) as [Hev Hk].
  eapply emits_mono; [exact Hk|]. simpl. intros. by constructor.
Qed.

Lemma buildMap_dom (m : gmap Z Z) (ks vs : list Z) :
  length ks = length vs →
  dom (buildMap m (zip ks vs)) = dom m ∪ list_to_set ks.
Proof.
  revert m vs. induction ks as [|k ks IH]; intros m [|v vs] Hlen; try done.
  - simpl. set_solver.
  - simpl in *. unfold buildMap in *. simpl. rewrite IH by lia.
    rewrite dom_insert_L. set_solver.
Qed.

Lemma buildMap_lookup (m : gmap Z Z) (kvs : list (Z * Z)) k v :
  buildMap m kvs !! k = Some v → m !! k = Some v ∨ v ∈ kvs.*2.
Proof.
  revert m. induction kvs as [|[k' v'] kvs IH]; intros m; simpl; [by left|].
  intros H. apply IH in H as [H|H]; [|right; by right].
  simpl in H. destruct (decide (k' = k)) as [->|Hne].
  - rewrite lookup_insert_eq in H. injection H as ->. right. by left.
  - rewrite lookup_insert_ne in H by done. by left.
Qed.

Lemma copyTaskDetails_respects ld doer tm ids :
  RestrictedToTasks c →
  allEv (respectsTaskMap tm ids) (copyTaskDetails c ld doer tm ids).
Proof.
  intros [Hl Hc Hr]. unfold copyTaskDetails.
  apply allEv_bind; [unfold_program; allEv_auto; done | intros _].
  apply allEv_bind; [| intros _].
  { unfold copyLabelTasks. apply allEv_call_bind. intros s [rows err] s1 Hf.
    pose proof (Hl _ _ _ _ _ Hf) as Hrows. split; [done|].
    apply allEv_bind; [apply allEv_try | intros _].
    apply allEv_forM. intros x Hx. unfold copyLabelTask. allEv_auto.
    exists (LabelTask_TaskID x). split; [|done].
    by apply (proj1 (Forall_forall _ _) Hrows). }
  apply allEv_bind; [unfold_program; allEv_auto; done | intros _].
  apply allEv_bind; [| intros _].
  { unfold copyComments. apply allEv_call_bind. intros s [rows err] s1 Hf.
    pose proof (Hc _ _ _ _ _ Hf) as Hrows. split; [done|].
    apply allEv_bind; [apply allEv_try | intros _].
    apply allEv_forM. intros x Hx. unfold copyComment. allEv_auto.
    exists (TaskComment_TaskID x). split; [|done].
    by apply (proj1 (Forall_forall _ _) Hrows). }
  unfold copyRelations. apply allEv_call_bind. intros s [rows err] s1 Hf.
  pose proof (Hr _ _ _ _ _ Hf) as Hrows. split; [done|].
  apply allEv_bind; [apply allEv_try | intros _].
  apply allEv_forM. intros x Hx. unfold copyRelation. allEv_auto.
  exists (TaskRelation_TaskID x). split; [|done].
  by apply (proj1 (Forall_forall _ _) Hrows).
Qed.

Lemma Forall_bind_events {A} (P : Event → Prop) (Q : A → Prop) (sel : Event → list A) evs :
  Forall P evs → (∀ e, P e → Forall Q (sel e)) → Forall Q (evs ≫= sel).
Proof.
  intros Hall Hsel. induction Hall as [|e evs He _ IH]; simpl; [done|].
  apply Forall_app. auto.
Qed.

Lemma Forall_omap_events {A} (P : Event → Prop) (Q : A → Prop) (sel : Event → option A) evs :
  Forall P evs → (∀ e x, P e → sel e = Some x → Q x) → Forall Q (omap sel evs).
Proof.
  intros Hall Hsel. induction Hall as [|e evs He _ IH]; simpl; [done|].
  destruct (sel e) as [x|] eqn:E; [constructor; eauto | done].
Qed.

(** C10. Let the queries of the task details be restricted to the task
    identities they are given.  In every run of [duplicateTasks], with
    [taskMap] the map from the identities of the listed tasks to those of the
    created tasks: the key set of [taskMap] is the list of identities the
    queries are given; the [task_id] of every label association, comment and
    relation found is a key of [taskMap]; and the [task_id] of every such row
    inserted is the identity of a task that [createTask] created. *)
Theorem duplicateTasks_task_references doer ld (bucketMap : gmap Z Z) st r st' :
  RestrictedToTasks c →
  duplicateTasks c doer ld bucketMap st = (r, st') →
  ∃ evs, log st' = log st ++ evs ∧
    let taskMap := taskMapOf evs in
    (∀ e ids, e ∈ evs → queriedTaskIDs e = Some ids →
              dom taskMap = list_to_set ids)
    ∧ Forall (λ x, is_Some (taskMap !! LabelTask_TaskID x)) (foundLabelTasks evs)
    ∧ Forall (λ x, is_Some (taskMap !! TaskComment_TaskID x)) (foundComments evs)
    ∧ Forall (λ x, is_Some (taskMap !! TaskRelation_TaskID x)) (foundRelations evs)
    ∧ Forall (λ x, LabelTask_TaskID x ∈ newTaskIDs evs) (insertedLabelTasks evs)
    ∧ Forall (λ x, TaskComment_TaskID x ∈ newTaskIDs evs) (insertedComments evs)
    ∧ Forall (λ x, TaskRelation_TaskID x ∈ newTaskIDs evs) (insertedRelations evs).
Proof.
  intros Hc Hrun.
  destruct (duplicateTasks_emits doer ld bucketMap
              (λ tm ids _ evsD, Forall (λ e, isTaskEvent e = false) evsD
                                ∧ Forall (respectsTaskMap tm ids) evsD)
              (λ tm ids, emits_conj _ _ _ (copyTaskDetails_no_task_event ld doer tm ids)
                           (copyTaskDetails_respects ld doer tm ids Hc))
              _ _ _ Hrun) as (evs & Hlog & Htr).
  exists evs. split; [done|]. simpl.
  apply tasksTrace_tasks in Htr
    as (tasks & err & evsT & evsD & Hevs & HT & HL & _ & HN & HD & Hne).
  set (tm := taskMapOf evs) in *. set (ids := Task_ID <$> tasks) in *.
  (* every event respects the task map, with the keys and values as they should be *)
  assert (Hall : Forall (respectsTaskMap tm ids) evs
                 ∧ (evsD ≠ [] → dom tm = list_to_set ids
                                ∧ ∀ k, k ∈ ids → mapGet tm k ∈ newTaskIDs evs)).
  { assert (HpreT : Forall (respectsTaskMap tm ids)
                      (EvGetTasks [Project_withID (ProjectID ld)] doer (tasks, err)
                       :: evsT)).
    { constructor; [done|]. eapply Forall_impl; [exact HT|]. by intros e (t & res & ->). }
    split.
    - destruct (decide (evsD = [])) as [Hd|Hd].
      + rewrite Hevs, Hd, app_nil_r. exact HpreT.
      + destruct HD as (_ & _ & HD); [by right|].
        rewrite Hevs. apply (Forall_app _ (_ :: _)). split; [done|]. by apply HD, Hne.
    - intros Hd. destruct HD as (_ & Hlen & _); [by right|].
      assert (Hdom : dom tm = list_to_set ids).
      { unfold tm, taskMapOf. rewrite HL, HN.
        rewrite buildMap_dom by (by rewrite length_fmap). set_solver. }
      split; [done|]. intros k Hk.
      assert (is_Some (tm !! k)) as [v Hv].
      { apply elem_of_dom. rewrite Hdom. by apply elem_of_list_to_set. }
      unfold mapGet. rewrite Hv. simpl.
      unfold tm, taskMapOf in Hv. apply buildMap_lookup in Hv as [Hv|Hv]; [done|].
      rewrite snd_zip in Hv; [done|]. rewrite HL, HN, length_fmap. lia. }
  destruct Hall as [Hall Hkeys].
  assert (Hin : ∀ e, e ∈ evs → isTaskEvent e = false → evsD ≠ []).
  { intros e He Hk ->. rewrite Hevs, app_nil_r in He.
    apply elem_of_cons in He as [->|He]; [done|].
    apply (proj1 (Forall_forall _ _) HT) in He as (t & res & ->). done. }
  assert (Hsome : ∀ k, evsD ≠ [] → k ∈ ids → is_Some (tm !! k)).
  { intros k Hd Hk. apply elem_of_dom. rewrite (proj1 (Hkeys Hd)).
    by apply elem_of_list_to_set. }
  assert (Hall' : Forall (λ e, respectsTaskMap tm ids e
                               ∧ (isTaskEvent e = false → evsD ≠ [])) evs).
  { apply Forall_forall. intros e He. split; [|by apply Hin].
    by apply (proj1 (Forall_forall _ _) Hall). }
  repeat split.
  - intros e ids' He Hq. destruct e; try done; simpl in Hq; injection Hq as ->;
      apply (proj1 (Forall_forall _ _) Hall') in He as [Hres Hd];
      destruct r0 as [rows err']; destruct Hres as [-> _]; by apply Hkeys, Hd.
  - eapply Forall_bind_events; [exact Hall'|]. intros [] [He Hd]; try done.
    destruct r0 as [rows err']. destruct He as [_ He].
    eapply Forall_impl; [exact He|]. intros x Hx. by apply Hsome; [apply Hd|].
  - eapply Forall_bind_events; [exact Hall'|]. intros [] [He Hd]; try done.
    destruct r0 as [rows err']. destruct He as [_ He].
    eapply Forall_impl; [exact He|]. intros x Hx. by apply Hsome; [apply Hd|].
  - eapply Forall_bind_events; [exact Hall'|]. intros [] [He Hd]; try done.
    destruct r0 as [rows err']. destruct He as [_ He].
    eapply Forall_impl; [exact He|]. intros x Hx. by apply Hsome; [apply Hd|].
  - eapply Forall_omap_events; [exact Hall'|]. intros [] x [He Hd]; try done.
    destruct r0 as [y [e|]]; [done|]. intros [= <-].
    destruct He as (k & Hk & ->). by apply Hkeys; [apply Hd|].
  - eapply Forall_omap_events; [exact Hall'|]. intros [] x [He Hd]; try done.
    destruct r0 as [y [e|]]; [done|]. intros [= <-].
    destruct He as (k & Hk & ->). by apply Hkeys; [apply Hd|].
  - eapply Forall_omap_events; [exact Hall'|]. intros [] x [He Hd]; try done.
    destruct r0 as [y [e|]]; [done|]. intros [= <-].
    destruct He as (k & Hk & ->). by apply Hkeys; [apply Hd|].
Qed.

(** ** C5: the attachments *)

Lemma copyAttachments_loop doer tm atts :
  emits (forM_ atts (copyAttachment c doer tm)) (λ r evs,
    Forall (λ e, isFileEvent e = true) evs
    ∧ (r = Ok tt → AttachmentsTrace doer tm atts evs)
    ∧ (∀ e ev, ev ∈ evs → fatalLoad e ev → r = Fail e)).
Proof.
  induction atts as [|a atts IH]; simpl.
  - apply emits_ret. split; [done|]. split; [constructor|]. by intros e ev ?%elem_of_nil.
  - set (rest := forM_ atts _). unfold copyAttachment.
    destruct (tm !! TaskAttachment_TaskID a) as [newTaskID|] eqn:E; emits_go.
    all: try (subst rest; eapply emits_mono; [apply IH|]; simpl;
              intros r evs (Hall & Hok & Hfatal)).
    all: try (split; [repeat (constructor; [done|]); try done|]).
    all: split;
      [ try done
      | trace_cases eauto ].
    + intros Hr. eapply at_missing; eauto.
    + intros Hr.
      eapply (at_copied doer tm a newTaskID _ _ _ [_] atts evs); auto.
      apply Forall_singleton. eauto.
    + intros Hr.
      eapply (at_copied doer tm a newTaskID _ _ _ [] atts evs); auto.
    + intros Hr. apply at_unmapped; auto.
Qed.

Lemma fileEvents_all evs :
  Forall (λ e, isFileEvent e = true) evs → fileEvents evs = evs.
Proof.
  intros H. unfold fileEvents. induction H as [|e evs He _ IH]; [done|].
  rewrite filter_cons_True by done. by rewrite IH.
Qed.

Lemma attachment_events_ignored evs :
  Forall (λ e, isAttachmentEvent e = false) evs →
  listedAttachments evs = [] ∧ fileEvents evs = []
  ∧ ∀ e ev, ev ∈ evs → ¬ fatalLoad e ev.
Proof.
  intros H. split; [|split].
  - eapply bind_ignored; [exact H|]. by intros [].
  - unfold fileEvents. induction H as [|e evs He _ IH]; [done|].
    rewrite filter_cons_False; [done|]. by destruct e.
  - intros e ev Hin. apply (proj1 (Forall_forall _ _) H) in Hin.
    destruct ev; simpl in *; try done; by intros [].
Qed.

Lemma attachmentsCopied_ignored doer tm r evs :
  Forall (λ e, isAttachmentEvent e = false) evs → attachmentsCopied doer tm r evs.
Proof.
  intros H. destruct (attachment_events_ignored evs H) as (Hl & Hf & Hn).
  split.
  - intros _. rewrite Hl, Hf. constructor.
  - intros e ev Hin Hfat. by destruct (Hn e ev Hin).
Qed.

Lemma attachmentsCopied_frame doer tm r evs1 evs2 :
  Forall (λ e, isAttachmentEvent e = false) evs1 →
  attachmentsCopied doer tm r evs2 → attachmentsCopied doer tm r (evs1 ++ evs2).
Proof.
  intros H [Hok Hfat]. destruct (attachment_events_ignored evs1 H) as (Hl & Hf & Hn).
  split.
  - intros Hr. unfold listedAttachments, fileEvents in *.
    rewrite bind_app, filter_app, Hl, Hf. by apply Hok.
  - intros e ev [Hin|Hin]%elem_of_app Hfatal; [by destruct (Hn e ev Hin)|eauto].
Qed.

Lemma copyAttachments_emits doer tm ids :
  emits (copyAttachments c doer tm ids) (λ r evs,
    Forall (λ e, isAttachmentEvent e = true) evs ∧ attachmentsCopied doer tm r evs).
Proof.
  unfold copyAttachments. emits_go.
  - split; [by apply Forall_singleton|]. split; [done|].
    intros e0 ev [->|[]%elem_of_nil]%elem_of_cons. done.
  - eapply emits_mono; [apply copyAttachments_loop|]. simpl.
    intros r evs (Hall & Hok & Hfat). split.
    + constructor; [done|]. eapply Forall_impl; [exact Hall|].
      intros e He. unfold isAttachmentEvent. rewrite He. by destruct e.
    + split.
      * intros Hr.
        assert (Hl : listedAttachments evs = []).
        { eapply bind_ignored; [exact Hall|]. by intros []. }
        change (listedAttachments (?e :: evs)) with (l ++ listedAttachments evs).
        rewrite Hl, app_nil_r. unfold fileEvents. rewrite filter_cons_False by done.
        fold (fileEvents evs). rewrite (fileEvents_all _ Hall). by apply Hok.
      * intros e ev [->|Hin]%elem_of_cons; [done|]. by apply Hfat.
Qed.

Lemma details_after_attachments ld doer tm ids :
  allEv (λ e, isAttachmentEvent e = false ∧ isTaskEvent e = false)
        (copyLabelTasks c tm ids;; copyAssignees c ld doer tm ids;;
         copyComments c tm ids;; copyRelations c tm ids).
Proof. unfold_program. allEv_auto; done. Qed.

Lemma copyTaskDetails_attachments ld doer tm ids :
  emits (copyTaskDetails c ld doer tm ids) (λ r evs,
    Forall (λ e, isTaskEvent e = false) evs ∧ attachmentsCopied doer tm r evs).
Proof.
  unfold copyTaskDetails.
  eapply emits_bind; [apply copyAttachments_emits|..]; simpl.
  - intros [] evs1 [Hall [Hok Hfat]].
    eapply emits_mono; [apply details_after_attachments|]. simpl.
    intros r evs2 H2.
    assert (H2a : Forall (λ e, isAttachmentEvent e = false) evs2).
    { eapply Forall_impl; [exact H2|]. by intros e []. }
    destruct (attachment_events_ignored evs2 H2a) as (Hl & Hf & Hn).
    split.
    + apply Forall_app. split.
      * eapply Forall_impl; [exact Hall|]. by intros [].
      * eapply Forall_impl; [exact H2|]. by intros e [].
    + split.
      * intros _. unfold listedAttachments, fileEvents in *.
        rewrite bind_app, filter_app, Hl, Hf, !app_nil_r. by apply Hok.
      * intros e ev [Hin|Hin]%elem_of_app Hfatal.
        -- by specialize (Hfat e ev Hin Hfatal).
        -- by destruct (Hn e ev Hin).
  - intros e evs [Hall Hcop]. split; [|done].
    eapply Forall_impl; [exact Hall|]. by intros [].
  - intros evs [Hall Hcop]. split; [|done].
    eapply Forall_impl; [exact Hall|]. by intros [].
Qed.

Lemma duplicateTasks_attachments doer ld bm :
  emits (duplicateTasks c doer ld bm) (λ r evs,
    attachmentsCopied doer (taskMapOf evs) r evs).
Proof.
  eapply emits_mono; [apply (duplicateTasks_emits doer ld bm _
                              (copyTaskDetails_attachments ld doer))|].
  simpl. intros r evs Htr.
  apply tasksTrace_tasks in Htr
    as (tasks & err & evsT & evsD & Hevs & HT & _ & _ & _ & HD & Hne).
  assert (Hpre : Forall (λ e, isAttachmentEvent e = false)
                   (EvGetTasks [Project_withID (ProjectID ld)] doer (tasks, err)
                    :: evsT)).
  { constructor; [done|]. eapply Forall_impl; [exact HT|]. by intros e (t & res & ->). }
  destruct (decide (evsD = [])) as [->|Hd].
  - apply attachmentsCopied_ignored. by rewrite Hevs, app_nil_r.
  - destruct HD as (_ & _ & HD); [by right|]. rewrite Hevs at 2.
    apply (attachmentsCopied_frame _ _ _ (_ :: _) _ Hpre). by apply HD, Hne.
Qed.

(** *** Loads that end the whole duplication *)

Lemma abortsOn_of_allEv {A} (F : Err → Event → Prop) (m : M S A) :
  allEv (λ ev, ∀ e, ¬ F e ev) m → abortsOn F m.
Proof.
  intros H. eapply emits_mono; [exact H|]. simpl. intros r evs Hall e ev Hin HF.
  by destruct (proj1 (Forall_forall _ _) Hall ev Hin e).
Qed.

Lemma abortsOn_bind {A B} (F : Err → Event → Prop) (m : M S A) (k : A → M S B) :
  abortsOn F m → (∀ a, abortsOn F (k a)) → abortsOn F (m ≫= k).
Proof.
  intros Hm Hk. eapply emits_bind; [exact Hm|..]; simpl.
  - intros a evs1 H1. eapply emits_mono; [apply Hk|]. simpl.
    intros r evs2 H2 e ev [Hin|Hin]%elem_of_app HF; [|eauto].
    by specialize (H1 e ev Hin HF).
  - intros e evs H e0 ev Hin HF. specialize (H e0 ev Hin HF). by injection H as ->.
  - intros evs H e0 ev Hin HF. by specialize (H e0 ev Hin HF).
Qed.

Lemma abortsOn_finally {A} (F : Err → Event → Prop) (fin : M S unit) (m : M S A) :
  abortsOn F m → allEv (λ ev, ∀ e, ¬ F e ev) fin → abortsOn F (finally fin m).
Proof.
  intros Hm Hfin. eapply emits_finally; [exact Hm | exact Hfin |]. simpl.
  intros r evs1 evs2 H1 H2 e ev [Hin|Hin]%elem_of_app HF; [eauto|].
  by destruct (proj1 (Forall_forall _ _) H2 ev Hin e).
Qed.

Lemma no_fatalLoad_outside_files ev :
  isFileEvent ev = false → ∀ e, ¬ fatalLoad e ev.
Proof. intros H e. destruct ev; simpl in *; try done; by intros []. Qed.

Lemma copyRightsAndShares_no_file_event ld :
  allEv (λ ev, isFileEvent ev = false) (copyRightsAndShares c ld).
Proof. unfold_program. allEv_auto; done. Qed.

Lemma copyBackgroundFile_no_file_event ld doer f :
  allEv (λ ev, isFileEvent ev = false) (copyBackgroundFile c ld doer f).
Proof. unfold_program. allEv_auto; done. Qed.

Lemma copyBuckets_no_file_event ld doer :
  allEv (λ ev, isFileEvent ev = false) (copyBuckets c ld doer).
Proof. unfold_program. allEv_auto; done. Qed.

Lemma copyBackgroundAndShares_aborts ld doer :
  abortsOn fatalLoad (copyBackgroundAndShares c ld doer).
Proof.
  assert (Hshares : abortsOn fatalLoad (copyRightsAndShares c ld)).
  { apply abortsOn_of_allEv. eapply allEv_mono; [apply copyRightsAndShares_no_file_event|].
    apply no_fatalLoad_outside_files. }
  unfold copyBackgroundAndShares.
  destruct (decide (Project_BackgroundFileID (TheProject ld) = 0)); [exact Hshares|].
  unfold abortsOn. emits_go.
  all: try (by trace_cases idtac).
  eapply emits_mono.
  { apply abortsOn_finally.
    - apply abortsOn_bind; [|intros _; exact Hshares].
      apply abortsOn_of_allEv.
      eapply allEv_mono; [apply copyBackgroundFile_no_file_event|].
      apply no_fatalLoad_outside_files.
    - allEv_auto. tauto. }
  simpl. intros r evs Hfat. trace_cases eauto.
Qed.

Lemma copyContents_aborts ld doer :
  abortsOn fatalLoad (copyContents c ld doer).
Proof.
  unfold copyContents. apply abortsOn_bind.
  - apply abortsOn_of_allEv. eapply allEv_mono; [apply copyBuckets_no_file_event|].
    apply no_fatalLoad_outside_files.
  - intros bm. apply abortsOn_bind; [|intros _; apply copyBackgroundAndShares_aborts].
    eapply emits_mono; [apply duplicateTasks_attachments|]. simpl.
    by intros r evs [_ H].
Qed.

(** In every run of [duplicateTasks]: when it succeeds, the file calls
    it made are those of a pass over the listed attachments in which an
    attachment whose task is not in the task map, or whose file metadata is
    reported not to exist, is skipped and every other attachment is copied;
    and a metadata load that fails otherwise, or a content load that fails,
    ends the function with that error.  Such a load also ends [Create] with
    that error. *)
Lemma attachments_copied_or_fatal doer ld :
  (∀ (bucketMap : gmap Z Z) st r st',
     duplicateTasks c doer ld bucketMap st = (r, st') →
     ∃ evs, log st' = log st ++ evs
       ∧ (r = Ok tt →
            AttachmentsTrace doer (taskMapOf evs) (listedAttachments evs) (fileEvents evs))
       ∧ (∀ e ev, ev ∈ evs → fatalLoad e ev → r = Fail e))
  ∧ (∀ st, ∃ evs, log (Create c ld doer st).2 = log st ++ evs
       ∧ ∀ e ev, ev ∈ evs → fatalLoad e ev → (Create c ld doer st).1.2 = Fail e).
Proof.
  split.
  - intros bucketMap st r st' Hrun.
    destruct (duplicateTasks_attachments doer ld bucketMap _ _ _ Hrun)
      as (evs & Hlog & Hok & Hfat). eauto.
  - intros st.
    apply (Create_emits (λ r evs, ∀ e ev, ev ∈ evs → fatalLoad e ev → r = Fail e)).
    + intros p s p1 e s1 _ _ e0 ev [->|[]%elem_of_nil]%elem_of_cons. done.
    + intros ld1 p s r s1 _. eapply emits_mono; [apply copyContents_aborts|]. simpl.
      intros res evs H e0 ev [->|Hin]%elem_of_cons; [done|]. eauto.
Qed.

(** ** C6: the link shares *)

Lemma copyLinkShares_loop ld shares :
  emits (forM_ shares (copyLinkShare c ld)) (λ r evs,
    Forall (λ e, isLinkShareEvent e = true) evs
    ∧ foundLinkShares evs = []
    ∧ Forall (λ nr, nr.1 = 40 ∧ ∃ s, nr.2 = (MakeRandomString c 40 s).1)
             (randomStrings evs)
    ∧ (r = Ok tt →
         length (randomStrings evs) = length shares
         ∧ insertedLinkShares evs
           = zip_with (copyOfLinkShare (Project_ID (TheProject ld))) shares
                      (randomStrings evs).*2)).
Proof.
  induction shares as [|sh shares IH]; simpl.
  - apply emits_ret. by repeat split.
  - set (rest := forM_ shares _). unfold copyLinkShare. emits_go.
    + repeat split; try done; [by repeat constructor|].
      apply Forall_singleton. split; [done|]. exists s. by rewrite H.
    + subst rest. eapply emits_mono; [apply IH|]. simpl.
      intros r evs (Hall & Hf & Hgen & Hok). repeat split.
      * by repeat (constructor; [done|]).
      * done.
      * unfold randomStrings in *. simpl. constructor; [|done].
        split; [done|]. exists s. by rewrite H.
      * destruct (Hok H1) as [Hlen _]. unfold randomStrings in *. simpl. by rewrite Hlen.
      * destruct (Hok H1) as [_ Hins].
        unfold insertedLinkShares, randomStrings in *. simpl. by rewrite Hins.
Qed.

Lemma copyLinkShares_emits ld :
  emits (copyLinkShares c ld) (sharesCopied c (Project_ID (TheProject ld))).
Proof.
  unfold copyLinkShares. emits_go.
  - repeat split; try done. unfold foundLinkShares. simpl. rewrite app_nil_r.
    apply Forall_forall. intros sh Hsh. exists (ProjectID ld), s. by rewrite H.
  - eapply emits_mono; [apply copyLinkShares_loop|]. simpl.
    intros r evs (Hall & Hf & Hgen & Hok).
    assert (Hfound : foundLinkShares (EvFindLinkShares (ProjectID ld) (l, None) :: evs) = l).
    { change (l ++ foundLinkShares evs = l). by rewrite Hf, app_nil_r. }
    unfold sharesCopied. rewrite Hfound. repeat split; try done.
    + apply Forall_forall. intros sh Hsh. exists (ProjectID ld), s. by rewrite H.
    + by apply Hok.
    + by apply Hok.
Qed.

Lemma link_share_events_ignored evs :
  Forall (λ e, isLinkShareEvent e = false) evs →
  foundLinkShares evs = [] ∧ insertedLinkShares evs = [] ∧ randomStrings evs = [].
Proof.
  intros H. split; [|split].
  - eapply bind_ignored; [exact H|]. by intros [].
  - eapply omap_ignored; [exact H|]. by intros [].
  - eapply omap_ignored; [exact H|]. by intros [].
Qed.

Lemma sharesCopied_ignored dest r evs :
  Forall (λ e, isLinkShareEvent e = false) evs → sharesCopied c dest r evs.
Proof.
  intros H. destruct (link_share_events_ignored evs H) as (Hf & Hi & Hr).
  unfold sharesCopied. rewrite Hf, Hi, Hr. by repeat split.
Qed.

Lemma sharesCopied_frame dest r evs1 evs2 evs3 :
  Forall (λ e, isLinkShareEvent e = false) evs1 →
  Forall (λ e, isLinkShareEvent e = false) evs3 →
  sharesCopied c dest r evs2 → sharesCopied c dest r (evs1 ++ evs2 ++ evs3).
Proof.
  intros H1 H3.
  destruct (link_share_events_ignored evs1 H1) as (Hf1 & Hi1 & Hr1).
  destruct (link_share_events_ignored evs3 H3) as (Hf3 & Hi3 & Hr3).
  unfold sharesCopied, foundLinkShares, insertedLinkShares, randomStrings in *.
  by rewrite !bind_app, !omap_app, Hf1, Hi1, Hr1, Hf3, Hi3, Hr3, !app_nil_r.
Qed.

Lemma sharesCopied_before dest r evs1 evs2 :
  Forall (λ e, isLinkShareEvent e = false) evs1 →
  sharesCopied c dest r evs2 → sharesCopied c dest r (evs1 ++ evs2).
Proof.
  intros H1 H2. rewrite <- (app_nil_r evs2).
  by apply sharesCopied_frame.
Qed.

Lemma before_link_shares ld doer :
  allEv (λ e, isLinkShareEvent e = false) (copyBuckets c ld doer)
  ∧ (∀ bm, allEv (λ e, isLinkShareEvent e = false) (duplicateTasks c doer ld bm))
  ∧ (∀ f, allEv (λ e, isLinkShareEvent e = false) (copyBackgroundFile c ld doer f))
  ∧ allEv (λ e, isLinkShareEvent e = false) (copyProjectUsers c ld)
  ∧ allEv (λ e, isLinkShareEvent e = false) (copyTeamProjects c ld).
Proof. repeat split; intros; unfold_program; allEv_auto; done. Qed.

Lemma copyRightsAndShares_shares ld :
  emits (copyRightsAndShares c ld) (sharesCopied c (Project_ID (TheProject ld))).
Proof.
  destruct (before_link_shares ld {| GetID := 0 |}) as (_ & _ & _ & HU & HT).
  unfold copyRightsAndShares.
  eapply emits_skip; [exact HU | intros _ | intros; by apply sharesCopied_before
                     | intros; by apply sharesCopied_ignored].
  eapply emits_skip; [exact HT | intros _ | intros; by apply sharesCopied_before
                     | intros; by apply sharesCopied_ignored].
  apply copyLinkShares_emits.
Qed.

Lemma copyBackgroundAndShares_shares ld doer :
  emits (copyBackgroundAndShares c ld doer) (sharesCopied c (Project_ID (TheProject ld))).
Proof.
  destruct (before_link_shares ld doer) as (_ & _ & HF & _ & _).
  unfold copyBackgroundAndShares.
  destruct (decide (Project_BackgroundFileID (TheProject ld) = 0));
    [apply copyRightsAndShares_shares|].
  emits_go.
  all: try (apply sharesCopied_ignored; by repeat (constructor; [done|])).
  eapply emits_finally.
  - eapply emits_skip; [apply HF | intros _; apply copyRightsAndShares_shares
                       | intros; by apply sharesCopied_before
                       | intros; by apply sharesCopied_ignored].
  - instantiate (1 := λ evs, Forall (λ e, isLinkShareEvent e = false) evs).
    allEv_auto. done.
  - simpl. intros r evs1 evs2 H1 H2.
    apply (sharesCopied_frame _ _ [_; _] evs1 evs2); [by repeat constructor|done|done].
Qed.

Lemma copyContents_shares ld doer :
  emits (copyContents c ld doer) (sharesCopied c (Project_ID (TheProject ld))).
Proof.
  destruct (before_link_shares ld doer) as (HB & HD & _ & _ & _).
  unfold copyContents.
  eapply emits_skip; [exact HB | intros bm | intros; by apply sharesCopied_before
                     | intros; by apply sharesCopied_ignored].
  eapply emits_skip; [apply HD | intros _ | intros; by apply sharesCopied_before
                     | intros; by apply sharesCopied_ignored].
  apply copyBackgroundAndShares_shares.
Qed.

(** The link shares inserted by a [Create] that succeeds, against the
    link shares found, whatever query found them: as many are inserted as
    were found, the generator was asked for one string of 40 characters per
    share, and the i-th share inserted is the i-th share found with identity
    zero, the destination project and the i-th generated string as its
    secret. *)
Lemma Create_link_shares_copied ld doer st ld' st' :
  Create c ld doer st = ((ld', Ok tt), st') →
  ∃ evs, log st' = log st ++ evs ∧
    length (insertedLinkShares evs) = length (foundLinkShares evs)
    ∧ length (randomStrings evs) = length (foundLinkShares evs)
    ∧ Forall (λ nr, nr.1 = 40 ∧ ∃ s, nr.2 = (MakeRandomString c 40 s).1)
             (randomStrings evs)
    ∧ insertedLinkShares evs
      = zip_with (λ sh secret,
                    {| LinkSharing_ID := 0;
                       LinkSharing_ProjectID := Project_ID (TheProject ld');
                       LinkSharing_Hash := secret;
                       LinkSharing_Rest := LinkSharing_Rest sh |})
                 (foundLinkShares evs) (randomStrings evs).*2
    ∧ ((∀ n s, String.length (MakeRandomString c n s).1 = Z.to_nat n) →
         Forall (λ sh, String.length (LinkSharing_Hash sh) = 40%nat)
                (insertedLinkShares evs))
    ∧ (FreshSecrets c →
         Forall2 (λ src new, LinkSharing_Hash new ≠ LinkSharing_Hash src)
                 (foundLinkShares evs) (insertedLinkShares evs)).
Proof.
  intros Hrun.
  destruct (Create_succeeds ld doer st ld' st' Hrun) as (p & r0 & s1 & Hcc).
  destruct (copyContents_shares ld' doer _ _ _ Hcc) as (evs & Hlog & Hgen & Hfound & Hok).
  destruct (Hok eq_refl) as [Hlen Hins].
  exists (EvCreateProject p doer r0 :: evs). simpl in Hlog.
  split; [by rewrite Hlog, <- app_assoc|].
  change (insertedLinkShares (EvCreateProject p doer r0 :: evs))
    with (insertedLinkShares evs).
  change (foundLinkShares (EvCreateProject p doer r0 :: evs)) with (foundLinkShares evs).
  change (randomStrings (EvCreateProject p doer r0 :: evs)) with (randomStrings evs).
  assert (Hlen2 : length (foundLinkShares evs) = length (randomStrings evs).*2).
  { by rewrite length_fmap. }
  assert (Hith : ∀ i new, insertedLinkShares evs !! i = Some new →
            ∃ src secret s, foundLinkShares evs !! i = Some src
              ∧ secret = (MakeRandomString c 40 s).1
              ∧ new = copyOfLinkShare (Project_ID (TheProject ld')) src secret).
  { intros i new Hi. rewrite Hins in Hi.
    apply lookup_zip_with_Some in Hi as (src & secret & -> & Hsrc & Hsec).
    apply list_lookup_fmap_Some in Hsec as ([n str] & -> & Hnr). simpl.
    apply (Forall_lookup_1 _ _ _ _ Hgen) in Hnr as [_ [s Hs]]. simpl in Hs.
    eauto 10. }
  repeat split; try done.
  - rewrite Hins, length_zip_with. lia.
  - intros Hlength. apply Forall_lookup. intros i new Hi.
    destruct (Hith i new Hi) as (src & secret & s & _ & -> & ->). simpl.
    by rewrite Hlength.
  - intros Hfresh. apply Forall2_same_length_lookup_2.
    { rewrite Hins, length_zip_with. lia. }
    intros i src new Hsrc Hi.
    destruct (Hith i new Hi) as (src' & secret & s & Hsrc' & -> & ->). simpl.
    rewrite Hsrc in Hsrc'. injection Hsrc' as <-.
    apply (Forall_lookup_1 _ _ _ _ Hfound) in Hsrc as (pid & s0 & Hin).
    by eapply Hfresh.
Qed.

(** ** The background: the lookup of the external-image attribution *)

Lemma no_unsplash_answer_elsewhere ev :
  (∀ fid r, ev ≠ EvGetUnsplash fid r) → ∀ e, ¬ notUnsplashAnswer e ev.
Proof. intros H e. destruct ev; simpl; try tauto. by destruct (H fid r). Qed.

Lemma copyBackgroundFile_aborts ld doer f :
  abortsOn notUnsplashAnswer (copyBackgroundFile c ld doer f).
Proof.
  unfold copyBackgroundFile, abortsOn. emits_go.
  all: by trace_cases idtac.
Qed.

(** For every store: when the lookup answers "not an external-image
    file", as it does for a plain uploaded background, [Create] ends with
    that error. *)
Lemma Create_fails_on_plain_background ld doer st :
  ∃ evs, log (Create c ld doer st).2 = log st ++ evs
    ∧ ∀ e ev, ev ∈ evs → notUnsplashAnswer e ev → (Create c ld doer st).1.2 = Fail e.
Proof.
  assert (Hother : ∀ {A} (m : M S A),
             allEv (λ ev, ∀ fid r, ev ≠ EvGetUnsplash fid r) m →
             abortsOn notUnsplashAnswer m).
  { intros A m H. apply abortsOn_of_allEv. eapply allEv_mono; [exact H|].
    apply no_unsplash_answer_elsewhere. }
  apply (Create_emits
           (λ r evs, ∀ e ev, ev ∈ evs → notUnsplashAnswer e ev → r = Fail e)).
  - intros p s p1 e s1 _ _ e0 ev [->|[]%elem_of_nil]%elem_of_cons. done.
  - intros ld1 p s r s1 _.
    eapply emits_mono with
      (Q := λ res evs, ∀ e ev, ev ∈ evs → notUnsplashAnswer e ev → res = Fail e).
    2:{ simpl. intros res evs H e0 ev [->|Hin]%elem_of_cons; [done|]. eauto. }
    unfold copyContents.
    apply abortsOn_bind; [apply Hother; unfold_program; allEv_auto; done | intros bm].
    apply abortsOn_bind; [apply Hother; unfold_program; allEv_auto; done | intros _].
    assert (Hshares : abortsOn notUnsplashAnswer (copyRightsAndShares c ld1)).
    { apply Hother. unfold_program. allEv_auto; done. }
    unfold copyBackgroundAndShares.
    destruct (decide (Project_BackgroundFileID (TheProject ld1) = 0)); [exact Hshares|].
    unfold abortsOn. emits_go.
    all: try (by trace_cases idtac).
    eapply emits_mono.
    { apply abortsOn_finally.
      - apply abortsOn_bind; [apply copyBackgroundFile_aborts | intros _; exact Hshares].
      - allEv_auto. tauto. }
    simpl. intros res evs Hfat. trace_cases eauto.
Qed.

(** For every store: when the lookup fails with another error and hands
    back no photo, [copyBackgroundFile] goes on to set the background and
    succeeds. *)
Lemma copyBackgroundFile_tolerates_other_errors ld doer f st file s1 e s2 s3 :
  files_Create c (File_File f) (File_Name f) (File_Size f) doer (sess st)
  = ((file, None), s1) →
  GetUnsplashPhotoByFileID c (Project_BackgroundFileID (TheProject ld)) s1
  = ((None, Some e), s2) →
  IsErrFileIsNotUnsplashFile e = false →
  SetProjectBackground c (Project_ID (TheProject ld)) file
    (Project_BackgroundBlurHash (TheProject ld)) s2 = (None, s3) →
  (copyBackgroundFile c ld doer f st).1 = Ok tt.
Proof.
  intros H1 H2 He H3.
  unfold copyBackgroundFile, mbind, M_bind, bind, call, callS. simpl.
  rewrite H1. simpl. rewrite H2, He. simpl. by rewrite H3.
Qed.

(** ** The file handles *)

(** For every store: when [NewAttachment] fails for an attachment whose
    file has been loaded, the body of the attachment loop returns the error
    and has not closed the file. *)
Lemma copyAttachment_returns_without_close doer tm (a : TaskAttachment) newTaskID st
    f1 s1 f2 s2 a2 e s3 :
  tm !! TaskAttachment_TaskID a = Some newTaskID →
  File_LoadFileMetaByID c (File_withID (TaskAttachment_FileID a)) (sess st)
  = ((f1, None), s1) →
  File_LoadFileByID c f1 s1 = ((f2, None), s2) →
  let a1 := {| TaskAttachment_ID := 0; TaskAttachment_TaskID := newTaskID;
               TaskAttachment_FileID := TaskAttachment_FileID a;
               TaskAttachment_File := Some f2;
               TaskAttachment_Rest := TaskAttachment_Rest a |} in
  TaskAttachment_NewAttachment c a1 (File_File f2) (File_Name f2) (File_Size f2) doer s2
  = ((a2, Some e), s3) →
  copyAttachment c doer tm a st
  = (Fail e,
     {| sess := s3;
        log := log st ++ [EvLoadFileMeta (File_withID (TaskAttachment_FileID a)) (f1, None);
                          EvLoadFile f1 (f2, None);
                          EvNewAttachment a1 (File_File f2) (File_Name f2) (File_Size f2)
                            doer (a2, Some e)] |})
  ∧ openedHandles [EvLoadFile f1 (f2, None)] = option_list (File_File f2).
Proof.
  intros Hmap H1 H2 a1 H3. subst a1.
  unfold copyAttachment, mbind, M_bind, bind, call, callS. rewrite Hmap. simpl.
  rewrite H1. simpl. rewrite H2. simpl. unfold TaskAttachment_set_File. simpl.
  rewrite H3. simpl.
  rewrite <- !app_assoc. simpl. split; [reflexivity|]. by destruct (File_File f2).
Qed.

(** For every store: the background file is closed on every path out of
    [copyBackgroundAndShares], that is, when [Create] returns. *)
Lemma background_handle_closed ld doer :
  emits (copyBackgroundAndShares c ld doer) (λ _ evs, leakedHandles evs = []).
Proof.
  assert (Hnone : ∀ evs, Forall (λ e, isFileEvent e = false) evs →
                         openedHandles evs = [] ∧ closedHandles evs = []).
  { intros evs H. split; eapply omap_ignored; try exact H; by intros []. }
  assert (Hleak : ∀ evs, openedHandles evs = [] → leakedHandles evs = []).
  { intros evs H. unfold leakedHandles. by rewrite H. }
  unfold copyBackgroundAndShares.
  destruct (decide (Project_BackgroundFileID (TheProject ld) = 0)).
  { eapply emits_mono; [apply copyRightsAndShares_no_file_event|]. simpl.
    intros _ evs H. by apply Hleak, Hnone. }
  emits_go; try done.
  all: try match goal with
           | H : File_File _ = None |- _ =>
               unfold leakedHandles, openedHandles; simpl; by rewrite H
           end.
  eapply emits_mono.
  { eapply emits_finally with
      (Q1 := λ _ evs, Forall (λ e, isFileEvent e = false) evs)
      (P := λ evs, ∃ res, evs = [EvClose h res])
      (Q := λ _ evs, openedHandles evs = [] ∧ closedHandles evs = [h]).
    - apply allEv_bind; [apply copyBackgroundFile_no_file_event|].
      intros _. apply copyRightsAndShares_no_file_event.
    - emits_go. eauto.
    - simpl. intros r evs1 evs2 H1 [res ->].
      destruct (Hnone evs1 H1) as [Ho Hc].
      unfold openedHandles, closedHandles in *.
      by rewrite !omap_app, Ho, Hc. }
  simpl. intros _ evs [Ho Hc].
  unfold leakedHandles, openedHandles, closedHandles in *.
  change (@omap list _) with list_omap in *. simpl.
  match goal with H : File_File _ = Some _ |- _ => rewrite H end.
  rewrite Ho, Hc.
  rewrite filter_cons_False; [done|]. intros Hn. apply Hn. by left.
Qed.

End Properties.

(** * Runs on the scripted store *)

(** ** The store keeps its side of the contracts *)

Lemma scripted_restricted sc : RestrictedToTasks (scripted sc).
Proof.
  split; simpl; intros ids s rows err s1 [= <- _ _];
    apply Forall_forall; by intros x [? _]%list_elem_of_filter.
Qed.

Lemma scripted_never_reuses sc : NeverReuses (scripted sc) (λ _ id, id < 1000).
Proof.
  split; simpl; intros; unfold newID in *;
    repeat match goal with
           | H : context [match ?x with _ => _ end] |- _ => destruct x
           end;
    simplify_eq; simpl; lia.
Qed.

Lemma randomOf_length len n : String.length (randomOf len n) = Z.to_nat len.
Proof.
  unfold randomOf. generalize (Ascii.ascii_of_nat (48 + n `mod` 10)).
  intros a. induction (Z.to_nat len) as [|k IH]; simpl; [done|]. by rewrite IH.
Qed.

Lemma scripted_fresh_secrets : FreshSecrets (scripted demoUnsplash).
Proof.
  intros s pid s0 sh Hsh Heq. simpl in *.
  apply list_elem_of_filter in Hsh as [_ Hsh].
  apply list_elem_of_singleton in Hsh as ->.
  apply (f_equal String.length) in Heq. by rewrite randomOf_length in Heq.
Qed.

(** ** The duplication of project 1 *)


Lemma duplicateTasks_task_references_demo :
  ∃ evs,
    log (duplicateTasks (scripted demo) demoDoer demoRequest demoBucketMap demoStart).2
    = log demoStart ++ evs
    ∧ Forall (λ x, LabelTask_TaskID x ∈ newTaskIDs evs) (insertedLabelTasks evs)
    ∧ Forall (λ x, TaskComment_TaskID x ∈ newTaskIDs evs) (insertedComments evs)
    ∧ Forall (λ x, TaskRelation_TaskID x ∈ newTaskIDs evs) (insertedRelations evs).
Proof.
  destruct (duplicateTasks_task_references (scripted demo) demoDoer demoRequest
              demoBucketMap demoStart (Ok tt)
              (duplicateTasks (scripted demo) demoDoer demoRequest demoBucketMap
                 demoStart).2 (scripted_restricted demo))
    as (evs & Hlog & _ & _ & _ & _ & Hl & Hc & Hr).
  - vm_compute. reflexivity.
  - exists evs. auto.
Defined.

Lemma Create_clears_identities_demo :
  ∃ evs,
    log (Create (scripted demoUnsplash) demoRequest demoDoer demoStart).2
    = log demoStart ++ evs
    ∧ Forall (λ e, ∀ id, writtenIdentity e = Some id → id = 0) evs
    ∧ Forall (λ e, ∀ T id, createdIdentity e = Some (T, id) → ¬ id < 1000) evs.
Proof.
  destruct (Create_clears_identities (scripted demoUnsplash) demoRequest demoDoer
              demoStart) as (evs & Hlog & Hzero & Hnew).
  exists evs. split; [exact Hlog|]. split; [exact Hzero|].
  exact (Hnew _ (scripted_never_reuses demoUnsplash)).
Defined.

(** ** Where the code departs from its specification *)

(** C3. The background of project 1 is a plain upload: the lookup of the
    external-image attribution answers "not an external-image file", and
    [Create] returns that error.  When the lookup fails for another reason,
    [Create] goes on and succeeds. *)
Theorem Create_unsplash_check_inverted :
  (Create (scripted demo) demoRequest demoDoer demoStart).1.2
  = Fail ErrFileIsNotUnsplashFile
  ∧ (Create (scripted (withUnsplash (None, Some (ErrGeneric 500)) demo))
       demoRequest demoDoer demoStart).1.2
    = Ok tt.
Proof. split; vm_compute; reflexivity. Qed.

(** C9. When [NewAttachment] fails, [Create] returns its error and the
    file of the attachment, opened by [LoadFileByID], is left open: handle
    1006 is opened and never closed.  In a run that succeeds every handle is
    closed. *)
Theorem attachment_handle_leaks_on_error :
  let failing := Create (scripted (withNewAttachmentErr (Some (ErrGeneric 507)) demoUnsplash))
                   demoRequest demoDoer demoStart in
  let succeeding := Create (scripted demoUnsplash) demoRequest demoDoer demoStart in
  failing.1.2 = Fail (ErrGeneric 507)
  ∧ openedHandles (log failing.2) = [1006]
  ∧ closedHandles (log failing.2) = []
  ∧ leakedHandles (log failing.2) = [1006]
  ∧ succeeding.1.2 = Ok tt
  ∧ leakedHandles (log succeeding.2) = [].
Proof. repeat split; vm_compute; reflexivity. Qed.

(** * Further properties of the duplication *)

(** ** Which errors end [Create] *)

Section ErrorShape.
Context {S : Type} (c : Collab S).
Implicit Types (st : St S) (evs : list Event) (ld : ProjectDuplicate) (doer : Auth).

Lemma errorShape_cons {A} ev (r : Res A) evs :
  benign ev → errorShape r evs → errorShape r (ev :: evs).
Proof.
  intros Hb. destruct r as [a|e|]; unfold errorShape.
  - by constructor.
  - intros (pre & ev' & post & -> & Hpre & He & Hpost).
    exists (ev :: pre), ev', post. repeat split; try done. by constructor.
  - by constructor.
Qed.

Lemma errorShape_app {A B} (a : A) evs1 (r : Res B) evs2 :
  errorShape (Ok a) evs1 → errorShape r evs2 → errorShape r (evs1 ++ evs2).
Proof.
  unfold errorShape at 1. intros H1 H2. induction H1 as [|ev evs1 Hev _ IH]; [done|].
  simpl. by apply errorShape_cons.
Qed.

Lemma errorShape_last {A} ev e :
  errorOf ev = Some e → errorShape (@Fail A e) [ev].
Proof. intros H. exists [], ev, []. by repeat split. Qed.

Lemma errorShape_closed {A} (r : Res A) evs1 evs2 :
  errorShape r evs1 → Forall isClose evs2 → errorShape r (evs1 ++ evs2).
Proof.
  intros H1 H2.
  assert (H2' : Forall benign evs2).
  { eapply Forall_impl; [exact H2|]. by intros ev (h & r0 & ->) e _. }
  destruct r as [a|e|]; unfold errorShape in *.
  - by apply Forall_app.
  - destruct H1 as (pre & ev & post & -> & Hpre & He & Hpost).
    exists pre, ev, (post ++ evs2). rewrite <- app_assoc. simpl.
    repeat split; try done. by apply Forall_app.
  - by apply Forall_app.
Qed.

Lemma errorShape_bind {A B} (m : M S A) (k : A → M S B) :
  emits m errorShape → (∀ a, emits (k a) errorShape) → emits (m ≫= k) errorShape.
Proof.
  intros Hm Hk. eapply emits_bind; [exact Hm|..]; try done.
  intros a evs1 H1. eapply emits_mono; [apply Hk|]. simpl.
  intros r evs2 H2. by apply (errorShape_app a).
Qed.

Lemma errorShape_forM {A} (xs : list A) (body : A → M S unit) :
  (∀ x, emits (body x) errorShape) → emits (forM_ xs body) errorShape.
Proof.
  intros Hb. induction xs as [|x xs IH]; simpl.
  - apply emits_ret. constructor.
  - apply errorShape_bind; [apply Hb | intros _; apply IH].
Qed.

Lemma errorShape_foldM {A B} (body : B → A → M S B) (xs : list A) : ∀ acc,
  (∀ b x, emits (body b x) errorShape) → emits (foldM body acc xs) errorShape.
Proof.
  induction xs as [|x xs IH]; intros acc Hb; simpl.
  - apply emits_ret. constructor.
  - apply errorShape_bind; [apply Hb | intros b; by apply IH].
Qed.

End ErrorShape.

Ltac benign_tac :=
  let e := fresh "e" in
  let H := fresh "H" in
  intros e H; simpl in H; simplify_eq; simpl;
  first [ done | match goal with H' : _ = _ |- _ => by rewrite H' end ].

(** Closes [errorShape r evs] for an explicit trace [evs]. *)
Ltac shape_leaf :=
  simpl;
  repeat first [ apply errorShape_last; reflexivity
               | apply errorShape_cons; [benign_tac|] ];
  try (by constructor).

(** [errorShape r (e1 :: ... :: evs)] from [errorShape r evs]. *)
Ltac shape_prefix :=
  repeat (apply errorShape_cons; [benign_tac|]); assumption.

Ltac shape_loop :=
  lazymatch goal with
  | |- emits (forM_ _ _) _ =>
      eapply emits_mono;
      [ apply errorShape_forM; intros ?
      | simpl; intros ? ? ?; shape_prefix ]
  | |- emits (foldM _ _ _) _ =>
      eapply emits_mono;
      [ apply errorShape_foldM; intros ? ?
      | simpl; intros ? ? ?; shape_prefix ]
  | |- emits (mbind _ (forM_ _ _)) _ =>
      eapply emits_mono;
      [ apply errorShape_bind; [apply errorShape_forM; intros ? | intros ?]
      | simpl; intros ? ? ?; shape_prefix ]
  | |- emits (mbind _ (foldM _ _ _)) _ =>
      eapply emits_mono;
      [ apply errorShape_bind; [apply errorShape_foldM; intros ? ? | intros ?]
      | simpl; intros ? ? ?; shape_prefix ]
  end.

Ltac shape_go := repeat (emits_go; try shape_loop; simpl); try shape_leaf.

Section ErrorsOfCreate.
Context {S : Type} (c : Collab S).
Implicit Types (st : St S) (evs : list Event) (ld : ProjectDuplicate) (doer : Auth).

Lemma copyBuckets_errorShape ld doer : emits (copyBuckets c ld doer) errorShape.
Proof. unfold copyBuckets, copyBucket. shape_go. Qed.

Lemma createTasks_errorShape ld doer bm tasks :
  emits (createTasks c ld doer bm tasks) errorShape.
Proof. unfold createTasks, copyTask. shape_go. Qed.

Lemma copyAttachments_errorShape doer tm ids :
  emits (copyAttachments c doer tm ids) errorShape.
Proof. unfold copyAttachments, copyAttachment. shape_go. Qed.

Lemma copyLabelTasks_errorShape tm ids : emits (copyLabelTasks c tm ids) errorShape.
Proof. unfold copyLabelTasks, copyLabelTask. shape_go. Qed.

Lemma copyAssignees_errorShape ld doer tm ids :
  emits (copyAssignees c ld doer tm ids) errorShape.
Proof. unfold copyAssignees, copyAssignee. shape_go. Qed.

Lemma copyComments_errorShape tm ids : emits (copyComments c tm ids) errorShape.
Proof. unfold copyComments, copyComment. shape_go. Qed.

Lemma copyRelations_errorShape tm ids : emits (copyRelations c tm ids) errorShape.
Proof. unfold copyRelations, copyRelation. shape_go. Qed.

Lemma duplicateTasks_errorShape doer ld bm :
  emits (duplicateTasks c doer ld bm) errorShape.
Proof.
  unfold duplicateTasks. emits_go; try shape_leaf.
  eapply emits_mono with (Q := errorShape); [|simpl; intros ? ? ?; shape_prefix].
  apply errorShape_bind; [apply createTasks_errorShape|]. intros [tm ids].
  unfold copyTaskDetails.
  apply errorShape_bind; [apply copyAttachments_errorShape | intros _].
  apply errorShape_bind; [apply copyLabelTasks_errorShape | intros _].
  apply errorShape_bind; [apply copyAssignees_errorShape | intros _].
  apply errorShape_bind; [apply copyComments_errorShape | intros _].
  apply copyRelations_errorShape.
Qed.

Lemma copyRightsAndShares_errorShape ld : emits (copyRightsAndShares c ld) errorShape.
Proof.
  unfold copyRightsAndShares.
  apply errorShape_bind; [|intros _; apply errorShape_bind; [|intros _]].
  - unfold copyProjectUsers. shape_go.
  - unfold copyTeamProjects. shape_go.
  - unfold copyLinkShares, copyLinkShare. shape_go.
Qed.

Lemma copyBackgroundFile_errorShape ld doer f :
  emits (copyBackgroundFile c ld doer f) errorShape.
Proof. unfold copyBackgroundFile. shape_go. Qed.

Lemma copyBackgroundAndShares_errorShape ld doer :
  emits (copyBackgroundAndShares c ld doer) errorShape.
Proof.
  unfold copyBackgroundAndShares.
  destruct (decide (Project_BackgroundFileID (TheProject ld) = 0));
    [apply copyRightsAndShares_errorShape|].
  emits_go; try shape_leaf.
  eapply emits_mono with (Q := errorShape); [|simpl; intros ? ? ?; shape_prefix].
  eapply emits_finally with (Q1 := errorShape) (P := Forall isClose).
  - apply errorShape_bind; [apply copyBackgroundFile_errorShape | intros _].
    apply copyRightsAndShares_errorShape.
  - emits_go. apply Forall_singleton. by eexists _, _.
  - intros r evs1 evs2. apply errorShape_closed.
Qed.

Lemma copyContents_errorShape ld doer : emits (copyContents c ld doer) errorShape.
Proof.
  unfold copyContents.
  apply errorShape_bind; [apply copyBuckets_errorShape | intros bm].
  apply errorShape_bind; [apply duplicateTasks_errorShape | intros _].
  apply copyBackgroundAndShares_errorShape.
Qed.

Lemma Create_errorShape ld doer st :
  ∃ evs, log (Create c ld doer st).2 = log st ++ evs
    ∧ errorShape (Create c ld doer st).1.2 evs.
Proof.
  destruct (Create_run c ld doer st) as (p1 & err & s1 & Ecp & Hrun). simpl in Hrun.
  set (p0 := Project_set_OwnerID _ _) in *.
  set (st1 := {| sess := s1; log := _ |}) in *.
  assert (Hgo : benign (EvCreateProject p0 doer (p1, err)) → ∀ ld1,
            ∃ evs, log (copyContents c ld1 doer st1).2 = log st ++ evs
              ∧ errorShape (copyContents c ld1 doer st1).1 evs).
  { intros Hb ld1. destruct (copyContents c ld1 doer st1) as [r st2] eqn:Ecc.
    destruct (copyContents_errorShape ld1 doer _ _ _ Ecc) as (evs & Hl & Hs).
    exists (EvCreateProject p0 doer (p1, err) :: evs). simpl. split.
    - rewrite Hl. simpl. by rewrite <- app_assoc.
    - by apply errorShape_cons. }
  destruct err as [e|]; [destruct (IsErrProjectIdentifierIsNotUnique e) eqn:Ee|];
    rewrite Hrun; simpl.
  - apply Hgo. by intros e' [= <-].
  - eexists. split; [done|]. by apply errorShape_last.
  - apply Hgo. by intros e' [=].
Qed.

(** No error is lost: in every run of [Create], a call that returns an
    error other than the five the code goes on after ends [Create] with that
    very error. *)
Theorem Create_returns_every_fatal_error ld doer st :
  ∃ evs, log (Create c ld doer st).2 = log st ++ evs
    ∧ ∀ ev e, ev ∈ evs → errorOf ev = Some e → swallowed ev e = false →
        (Create c ld doer st).1.2 = Fail e.
Proof.
  destruct (Create_errorShape ld doer st) as (evs & Hlog & Hs).
  exists evs. split; [done|]. intros ev e Hin He Hsw.
  assert (Hnot : ∀ l, Forall benign l → ev ∉ l).
  { intros l Hl Hev. rewrite Forall_forall in Hl. specialize (Hl ev Hev e He). congruence. }
  destruct (Create c ld doer st).1.2 as [[]|e'|]; unfold errorShape in Hs.
  - by destruct (Hnot evs Hs).
  - destruct Hs as (pre & ev' & post & -> & Hpre & He' & Hpost).
    apply elem_of_app in Hin as [Hin|Hin]; [by destruct (Hnot pre Hpre)|].
    apply elem_of_cons in Hin as [->|Hin]; [congruence|].
    rewrite Forall_forall in Hpost. destruct (Hpost ev Hin) as (h & r & ->).
    done.
  - by destruct (Hnot evs Hs).
Qed.

(** No error is made up: when [Create] returns an error, it is the error
    the last call returned, the deferred [Close] of the background file
    apart, and no call before that one returned an error the code does not
    go on after. *)
Theorem Create_error_comes_from_last_call ld doer st :
  ∃ evs, log (Create c ld doer st).2 = log st ++ evs
    ∧ ∀ e, (Create c ld doer st).1.2 = Fail e →
        ∃ pre ev post, evs = pre ++ ev :: post
          ∧ errorOf ev = Some e
          ∧ Forall (λ ev', ∀ e', errorOf ev' = Some e' → swallowed ev' e' = true) pre
          ∧ Forall (λ ev', ∃ h r, ev' = EvClose h r) post.
Proof.
  destruct (Create_errorShape ld doer st) as (evs & Hlog & Hs).
  exists evs. split; [done|]. intros e He. rewrite He in Hs.
  destruct Hs as (pre & ev & post & -> & Hpre & Hev & Hpost). eauto 10.
Qed.

End ErrorsOfCreate.

(** ** Where [Create] panics *)

Section Panic.
Context {S : Type} (c : Collab S).
Implicit Types (st : St S) (evs : list Event) (ld : ProjectDuplicate) (doer : Auth).

Lemma panicShape_cons {A} ev (r : Res A) evs :
  panicShape r evs → panicShape r (ev :: evs).
Proof.
  intros H Hr. destruct (H Hr) as (pre & ev' & -> & Hnil). by exists (ev :: pre), ev'.
Qed.

Lemma panicShape_last {A} ev : leavesNil ev → panicShape (@Panic A) [ev].
Proof. intros H _. by exists [], ev. Qed.

Lemma panicShape_bind {A B} (m : M S A) (k : A → M S B) :
  emits m panicShape → (∀ a, emits (k a) panicShape) → emits (m ≫= k) panicShape.
Proof.
  intros Hm Hk. eapply emits_bind; [exact Hm|..].
  - intros a evs1 _. eapply emits_mono; [apply Hk|]. simpl.
    intros r evs2 H2. induction evs1 as [|ev evs1 IH]; [done|]. by apply panicShape_cons.
  - by intros e evs _ [=].
  - intros evs H _. by apply H.
Qed.

Lemma panicShape_forM {A} (xs : list A) (body : A → M S unit) :
  (∀ x, emits (body x) panicShape) → emits (forM_ xs body) panicShape.
Proof.
  intros Hb. induction xs as [|x xs IH]; simpl.
  - by apply emits_ret.
  - apply panicShape_bind; [apply Hb | intros _; apply IH].
Qed.

Lemma panicShape_foldM {A B} (body : B → A → M S B) (xs : list A) : ∀ acc,
  (∀ b x, emits (body b x) panicShape) → emits (foldM body acc xs) panicShape.
Proof.
  induction xs as [|x xs IH]; intros acc Hb; simpl.
  - by apply emits_ret.
  - apply panicShape_bind; [apply Hb | intros b; by apply IH].
Qed.

End Panic.

Ltac panic_leaf :=
  simpl;
  repeat first [ apply panicShape_last; simpl; assumption
               | apply panicShape_cons ];
  try done.

Ltac panic_prefix := repeat apply panicShape_cons; assumption.

Ltac panic_loop :=
  lazymatch goal with
  | |- emits (forM_ _ _) _ =>
      eapply emits_mono;
      [ apply panicShape_forM; intros ? | simpl; intros ? ? ?; panic_prefix ]
  | |- emits (foldM _ _ _) _ =>
      eapply emits_mono;
      [ apply panicShape_foldM; intros ? ? | simpl; intros ? ? ?; panic_prefix ]
  | |- emits (mbind _ (forM_ _ _)) _ =>
      eapply emits_mono;
      [ apply panicShape_bind; [apply panicShape_forM; intros ? | intros ?]
      | simpl; intros ? ? ?; panic_prefix ]
  | |- emits (mbind _ (foldM _ _ _)) _ =>
      eapply emits_mono;
      [ apply panicShape_bind; [apply panicShape_foldM; intros ? ? | intros ?]
      | simpl; intros ? ? ?; panic_prefix ]
  end.

Ltac panic_go := repeat (emits_go; try panic_loop; simpl); try panic_leaf.

Section PanicOfCreate.
Context {S : Type} (c : Collab S).
Implicit Types (st : St S) (evs : list Event) (ld : ProjectDuplicate) (doer : Auth).

Lemma no_panic_without_nil {A} (r : Res A) evs :
  panicShape r evs → Forall (λ ev, ¬ leavesNil ev) evs → r ≠ Panic.
Proof.
  intros H Hall Hr. destruct (H Hr) as (pre & ev & -> & Hnil).
  apply Forall_app in Hall as [_ Hall]. by inversion_clear Hall.
Qed.

Lemma no_nil_outside_files ev : isFileEvent ev = false → ¬ leavesNil ev.
Proof. intros H. destruct ev; simpl in *; first [discriminate | tauto]. Qed.

Lemma copyBackgroundAndShares_panicShape ld doer :
  emits (copyBackgroundAndShares c ld doer) panicShape.
Proof.
  assert (Hshares : emits (copyRightsAndShares c ld)
                      (λ r evs, panicShape r evs ∧ Forall (λ e, isFileEvent e = false) evs)).
  { apply emits_conj; [|apply copyRightsAndShares_no_file_event].
    unfold_program. panic_go. }
  assert (Hfile : ∀ f, emits (copyBackgroundFile c ld doer f)
                      (λ r evs, panicShape r evs ∧ Forall (λ e, isFileEvent e = false) evs)).
  { intros f. apply emits_conj; [|apply copyBackgroundFile_no_file_event].
    unfold_program. panic_go. }
  unfold copyBackgroundAndShares.
  destruct (decide (Project_BackgroundFileID (TheProject ld) = 0)).
  { eapply emits_mono; [exact Hshares|]. by intros r evs []. }
  emits_go; try panic_leaf.
  eapply emits_mono with (Q := λ r _, r ≠ Panic); [|by intros r evs Hne Hr].
  eapply emits_finally with (Q1 := λ r _, r ≠ Panic) (P := λ _, True); [| |done].
  - eapply emits_bind; [apply Hfile|..]; simpl.
    + intros _ _ _. eapply emits_mono; [apply Hshares|]. simpl.
      intros r evs [Hp Hall]. apply (no_panic_without_nil _ _ Hp).
      eapply Forall_impl; [exact Hall|]. apply no_nil_outside_files.
    + done.
    + intros evs [Hp Hall]. apply (no_panic_without_nil _ _ Hp).
      eapply Forall_impl; [exact Hall|]. apply no_nil_outside_files.
  - emits_go. done.
Qed.

Lemma copyContents_panicShape ld doer : emits (copyContents c ld doer) panicShape.
Proof.
  unfold copyContents.
  apply panicShape_bind; [unfold copyBuckets, copyBucket; panic_go | intros bm].
  apply panicShape_bind; [unfold_program; panic_go | intros _].
  apply copyBackgroundAndShares_panicShape.
Qed.

(** What the contracts of the two calls give: no call leaves a nil. *)
Lemma copyContents_leaves_no_nil ld doer :
  (∀ f s f' s', File_LoadFileByID c f s = ((f', None), s') → File_File f' ≠ None) →
  (∀ ta h name size a s ta' s',
     TaskAttachment_File ta ≠ None →
     TaskAttachment_NewAttachment c ta h name size a s = ((ta', None), s') →
     TaskAttachment_File ta' ≠ None) →
  allEv (λ ev, ¬ leavesNil ev) (copyContents c ld doer).
Proof.
  intros Hload Hnew. unfold_program.
  allEv_calls;
    repeat match goal with
           | x : (_ * _)%type |- _ => destruct x
           | x : option Err |- _ => destruct x
           end; simpl; try tauto; eauto.
  all: by eapply Hnew; [|eassumption].
Qed.

(** The data of the embedding stands for a receiver whose [Project] is
    set, an actor that is not nil and rows that are not nil.  On these,
    [Create] follows two more pointers without a nil check: the content of
    the background file, whose [Close] it defers, and the file of an
    attachment after [NewAttachment].  A run that panics does so right after
    the call that left the nil; and it does not panic when [LoadFileByID]
    opens a file whenever it succeeds and [NewAttachment] keeps the file of
    the attachment. *)
Theorem Create_panics_only_on_nil_file ld doer st :
  ∃ evs, log (Create c ld doer st).2 = log st ++ evs
    ∧ ((Create c ld doer st).1.2 = Panic →
         ∃ pre ev, evs = pre ++ [ev] ∧ leavesNil ev)
    ∧ ((∀ f s f' s', File_LoadFileByID c f s = ((f', None), s') → File_File f' ≠ None) →
       (∀ ta h name size a s ta' s',
          TaskAttachment_File ta ≠ None →
          TaskAttachment_NewAttachment c ta h name size a s = ((ta', None), s') →
          TaskAttachment_File ta' ≠ None) →
       (Create c ld doer st).1.2 ≠ Panic).
Proof.
  destruct (Create_emits c (λ r evs, panicShape r evs) ld doer st) as (evs & Hlog & Hp).
  { by intros p s p1 e s1 _ _ [=]. }
  { intros ld1 p s r s1 _. eapply emits_mono; [apply copyContents_panicShape|]. simpl.
    intros res evs H. by apply panicShape_cons. }
  exists evs. split; [done|]. split; [exact Hp|]. intros Hload Hnew.
  apply (no_panic_without_nil _ _ Hp).
  destruct (Create_allEv c (λ ev, ¬ leavesNil ev) ld doer st) as (evs' & Hlog' & Hall).
  { intros p s r s1 _ _. simpl. tauto. }
  { intros ld1. by apply copyContents_leaves_no_nil. }
  rewrite Hlog in Hlog'. by apply app_inv_head in Hlog' as ->.
Qed.

End PanicOfCreate.

(** ** Phases of a run and the events they log *)

Section Phases.
Context {S : Type}.
Implicit Types (evs : list Event).

Lemma omap_local {A} (sel : Event → option A) (K : Event → bool) evs1 evs2 evs3 :
  (∀ e, K e = false → sel e = None) →
  Forall (λ e, K e = false) evs1 → Forall (λ e, K e = false) evs3 →
  omap sel (evs1 ++ evs2 ++ evs3) = omap sel evs2.
Proof.
  intros Hsel H1 H3. rewrite !omap_app.
  rewrite (omap_ignored sel _ evs1 H1), (omap_ignored sel _ evs3 H3); [|done..].
  by rewrite app_nil_r.
Qed.

Lemma bind_local {A} (sel : Event → list A) (K : Event → bool) evs1 evs2 evs3 :
  (∀ e, K e = false → sel e = []) →
  Forall (λ e, K e = false) evs1 → Forall (λ e, K e = false) evs3 →
  (evs1 ++ evs2 ++ evs3) ≫= sel = evs2 ≫= sel.
Proof.
  intros Hsel H1 H3. rewrite !bind_app.
  rewrite (bind_ignored sel _ evs1 H1), (bind_ignored sel _ evs3 H3); [|done..].
  by rewrite app_nil_r.
Qed.

Lemma filter_local (K K' : Event → bool) evs1 evs2 evs3 :
  (∀ e, K e = false → K' e = false) →
  Forall (λ e, K e = false) evs1 → Forall (λ e, K e = false) evs3 →
  filter (λ e, K' e = true) (evs1 ++ evs2 ++ evs3) = filter (λ e, K' e = true) evs2.
Proof.
  intros HK H1 H3.
  assert (Hnil : ∀ evs, Forall (λ e, K e = false) evs →
                        filter (λ e, K' e = true) evs = []).
  { intros evs H. induction H as [|e evs He _ IH]; [done|].
    rewrite filter_cons_False; [done|]. rewrite (HK e He). done. }
  by rewrite !filter_app, (Hnil _ H1), (Hnil _ H3), app_nil_r.
Qed.

(** A phase that logs no event of the kind, before the phase that does. *)
Lemma phaseDone_before {A B} (K : Event → bool) Pany Pok (m : M S A) (k : A → M S B) :
  localTo K Pany → localTo K Pok → Pany [] →
  allEv (λ e, K e = false) m → (∀ a, emits (k a) (phaseDone Pany Pok)) →
  emits (m ≫= k) (phaseDone Pany Pok).
Proof.
  intros Hany Hok Hnil Hm Hk.
  assert (Hign : ∀ evs, Forall (λ e, K e = false) evs → Pany evs).
  { intros evs H. specialize (Hany evs [] [] H (Forall_nil_2 _) Hnil).
    by rewrite app_nil_r in Hany. }
  eapply emits_bind; [exact Hm|..]; simpl.
  - intros a evs1 H1. eapply emits_mono; [apply Hk|]. simpl.
    intros r evs2 [H2 H3]. split.
    + specialize (Hany evs1 evs2 [] H1 (Forall_nil_2 _) H2). by rewrite app_nil_r in Hany.
    + intros b Hr. specialize (Hok evs1 evs2 [] H1 (Forall_nil_2 _) (H3 b Hr)).
      by rewrite app_nil_r in Hok.
  - intros e evs H. split; [by apply Hign|]. done.
  - intros evs H. split; [by apply Hign|]. done.
Qed.

(** The phases after it. *)
Lemma phaseDone_after {A B} (K : Event → bool) Pany Pok (m : M S A) (k : A → M S B) :
  localTo K Pany → localTo K Pok →
  emits m (phaseDone Pany Pok) → (∀ a, allEv (λ e, K e = false) (k a)) →
  emits (m ≫= k) (phaseDone Pany Pok).
Proof.
  intros Hany Hok Hm Hk.
  eapply emits_bind; [exact Hm|..]; simpl.
  - intros a evs1 [H1 H1']. eapply emits_mono; [apply Hk|]. simpl.
    intros r evs2 H2. split.
    + by apply (Hany [] evs1 evs2).
    + intros b _. apply (Hok [] evs1 evs2); [done|done|]. by eapply H1'.
  - intros e evs [H _]. by split.
  - intros evs [H _]. by split.
Qed.

(** A phase that logs no event of the kind at all. *)
Lemma phaseDone_none {A} (K : Event → bool) Pany Pok (m : M S A) :
  localTo K Pany → localTo K Pok → Pany [] → Pok [] →
  allEv (λ e, K e = false) m → emits m (phaseDone Pany Pok).
Proof.
  intros Hany Hok Hnil Hnil' Hm. eapply emits_mono; [exact Hm|]. simpl.
  intros r evs H. split.
  - specialize (Hany evs [] [] H (Forall_nil_2 _) Hnil). by rewrite app_nil_r in Hany.
  - intros a _. specialize (Hok evs [] [] H (Forall_nil_2 _) Hnil').
    by rewrite app_nil_r in Hok.
Qed.

Lemma phaseDone_finally {A} (K : Event → bool) Pany Pok (fin : M S unit) (m : M S A) :
  localTo K Pany → localTo K Pok →
  emits m (phaseDone Pany Pok) → allEv (λ e, K e = false) fin →
  emits (finally fin m) (phaseDone Pany Pok).
Proof.
  intros Hany Hok Hm Hfin.
  eapply emits_finally; [exact Hm | exact Hfin |]. simpl.
  intros r evs1 evs2 [H1 H1'] H2. split.
  - by apply (Hany [] evs1 evs2).
  - intros a Hr. apply (Hok [] evs1 evs2); [done|done|]. by eapply H1'.
Qed.

Lemma phaseDone_prefix {A} (K : Event → bool) Pany Pok (m : M S A) pre :
  localTo K Pany → localTo K Pok → Forall (λ e, K e = false) pre →
  emits m (phaseDone Pany Pok) →
  emits m (λ r evs, phaseDone Pany Pok r (pre ++ evs)).
Proof.
  intros Hany Hok Hpre Hm. eapply emits_mono; [exact Hm|]. simpl.
  intros r evs [H1 H2]. split.
  - specialize (Hany pre evs [] Hpre (Forall_nil_2 _) H1). by rewrite app_nil_r in Hany.
  - intros a Hr. specialize (Hok pre evs [] Hpre (Forall_nil_2 _) (H2 a Hr)).
    by rewrite app_nil_r in Hok.
Qed.

(** A loop that hands the image under [f] of every row to an inserting
    call [ins], logged as [ev]: the rows inserted are the images of the
    first rows, and of all rows when the loop succeeds. *)
Lemma insert_loop {R} (f : R → R) (ins : R → S → (R * option Err) * S)
    (ev : R → R * option Err → Event) (sel : Event → option R) (rows : list R) :
  (∀ x y, sel (ev x (y, None)) = Some x) →
  (∀ x y e, sel (ev x (y, Some e)) = None) →
  emits (forM_ rows (λ x, '(_, err) ← call (ins (f x)) (ev (f x)); try err)) (λ r evs,
    Forall (λ e, ∃ x res, e = ev x res) evs
    ∧ omap sel evs `prefix_of` (f <$> rows)
    ∧ (r = Ok tt → omap sel evs = f <$> rows)).
Proof.
  intros Hok Herr. induction rows as [|x rows IH]; simpl.
  - apply emits_ret. by repeat split.
  - set (rest := forM_ rows _). emits_go.
    + split; [apply Forall_singleton; eauto|]. simpl. rewrite Herr.
      split; [apply prefix_nil|done].
    + subst rest. eapply emits_mono; [apply IH|]. simpl.
      intros res evs (Hall & Hpre & Hall'). split; [constructor; eauto|].
      rewrite Hok. split; [by apply prefix_cons|]. intros Hr. f_equal. by apply Hall'.
Qed.

(** The same with the query that finds the rows: [found] reads the rows
    off the query's event. *)
Lemma find_insert_phase {R} (find : S → (list R * option Err) * S)
    (evF : list R * option Err → Event) (f : R → R)
    (ins : R → S → (R * option Err) * S) (ev : R → R * option Err → Event)
    (sel : Event → option R) (found : Event → list R) :
  (∀ x y, sel (ev x (y, None)) = Some x) →
  (∀ x y e, sel (ev x (y, Some e)) = None) →
  (∀ res, sel (evF res) = None) →
  (∀ rows err, found (evF (rows, err)) = rows) →
  (∀ x res, found (ev x res) = []) →
  emits ('(rows, err) ← call find evF; try err;;
         forM_ rows (λ x, '(_, err) ← call (ins (f x)) (ev (f x)); try err))
    (phaseDone (λ evs, omap sel evs `prefix_of` f <$> (evs ≫= found))
               (λ evs, omap sel evs = f <$> (evs ≫= found))).
Proof.
  intros Hok Herr HselF HfoundF Hfound. emits_go.
  - split; [|done]. change (omap sel [evF (l, Some e)]) with
      (match sel (evF (l, Some e)) with Some y => [y] | None => [] end).
    rewrite HselF. apply prefix_nil.
  - eapply emits_mono; [by apply (insert_loop f ins ev sel)|]. simpl.
    intros r evs (Hall & Hpre & Hall').
    assert (Hf : evs ≫= found = []).
    { eapply bind_ignored; [exact Hall|]. intros e0 (x & res & ->). apply Hfound. }
    assert (E1 : (evF (l, None) :: evs) ≫= found = l).
    { change (found (evF (l, None)) ++ (evs ≫= found) = l).
      by rewrite HfoundF, Hf, app_nil_r. }
    assert (E2 : omap sel (evF (l, None) :: evs) = omap sel evs).
    { change (match sel (evF (l, None)) with Some y => y :: omap sel evs
                                        | None => omap sel evs end = omap sel evs).
      by rewrite HselF. }
    unfold phaseDone. rewrite E1, E2. split; [done|]. intros [] Hr. by apply Hall'.
Qed.

(** The query is made once, whatever follows. *)
Lemma find_insert_query {R Q} (find : S → (list R * option Err) * S)
    (evF : list R * option Err → Event) (f : R → R)
    (ins : R → S → (R * option Err) * S) (ev : R → R * option Err → Event)
    (qsel : Event → option Q) (q : Q) :
  (∀ res, qsel (evF res) = Some q) →
  (∀ x res, qsel (ev x res) = None) →
  emits ('(rows, err) ← call find evF; try err;;
         forM_ rows (λ x, '(_, err) ← call (ins (f x)) (ev (f x)); try err))
    (λ _ evs, omap qsel evs = [q]).
Proof.
  intros HqF Hq. emits_go.
  - change (omap qsel [?e]) with (match qsel e with Some y => [y] | None => [] end).
    by rewrite HqF.
  - assert (Hloop : allEv (λ e, ∃ x res, e = ev x res)
                       (forM_ l (λ x, '(_, err) ← call (ins (f x)) (ev (f x)); try err))).
    { allEv_auto; eauto. }
    eapply emits_mono; [exact Hloop|]. simpl. intros r evs Hall.
    change (omap qsel (?e :: evs))
      with (match qsel e with Some y => y :: omap qsel evs | None => omap qsel evs end).
    rewrite HqF. f_equal. eapply omap_ignored; [exact Hall|].
    intros e0 (x & res & ->). apply Hq.
Qed.

End Phases.

(** Closes [localTo K P] for a [P] made of projections that ignore the
    events outside [K]. *)
Ltac local_tac K :=
  let evs1 := fresh "evs1" in
  let evs2 := fresh "evs2" in
  let evs3 := fresh "evs3" in
  let H1 := fresh "H1" in
  let H3 := fresh "H3" in
  intros evs1 evs2 evs3 H1 H3;
  rewrite ?(omap_local _ K evs1 evs2 evs3) by (first [by intros [] | done]);
  rewrite ?(bind_local _ K evs1 evs2 evs3) by (first [by intros [] | done]);
  try done.

(** ** The details of the tasks *)

Section Details.
Context {S : Type} (c : Collab S).
Implicit Types (st : St S) (evs : list Event) (ld : ProjectDuplicate) (doer : Auth).

(** Lifts what a phase of the task details has done to [duplicateTasks],
    for the task map it has built and the identities of the tasks listed. *)
Lemma duplicateTasks_phase (K : Event → bool)
    (Pany Pok : gmap Z Z → list Z → list Event → Prop) doer ld bm :
  (∀ e, isTaskEvent e = true → K e = false) →
  (∀ tm ids, localTo K (Pany tm ids)) → (∀ tm ids, localTo K (Pok tm ids)) →
  (∀ tm ids, Pany tm ids []) → (∀ tm, Pok tm [] []) →
  (∀ tm ids, ids ≠ [] → emits (copyTaskDetails c ld doer tm ids)
                           (phaseDone (Pany tm ids) (Pok tm ids))) →
  emits (duplicateTasks c doer ld bm)
        (λ r evs, phaseDone (Pany (taskMapOf evs) (Task_ID <$> listedTasks evs))
                            (Pok (taskMapOf evs) (Task_ID <$> listedTasks evs)) r evs).
Proof.
  intros HK Hany Hok Hnil Hnil' Hdet.
  eapply emits_mono.
  { apply (duplicateTasks_emits c doer ld bm
             (λ tm ids r evsD, Forall (λ e, isTaskEvent e = false) evsD
                               ∧ (ids ≠ [] → phaseDone (Pany tm ids) (Pok tm ids) r evsD))).
    intros tm ids. apply emits_conj; [apply copyTaskDetails_no_task_event|].
    destruct (decide (ids = [])) as [->|Hids].
    - eapply emits_mono; [apply (copyTaskDetails_no_task_event c)|]. done.
    - eapply emits_mono; [by apply Hdet|]. done. }
  simpl. intros r evs Htr.
  apply tasksTrace_tasks in Htr
    as (tasks & err & evsT & evsD & Hevs & HT & HL & _ & _ & HD & Hne).
  assert (Hpre : Forall (λ e, K e = false)
                   (EvGetTasks [Project_withID (ProjectID ld)] doer (tasks, err) :: evsT)).
  { constructor; [by apply HK|]. eapply Forall_impl; [exact HT|].
    intros e (t & res & ->). by apply HK. }
  rewrite HL.
  set (tm := taskMapOf evs) in *. clearbody tm.
  assert (Hlift : ∀ P, localTo K P → P evsD → P evs).
  { intros P HP H. specialize (HP _ _ [] Hpre (Forall_nil_2 _) H).
    rewrite app_nil_r in HP. by rewrite Hevs. }
  destruct (decide (evsD = [])) as [->|Hd].
  - split; [by apply Hlift|]. intros [] ->. apply Hlift; [done|].
    destruct tasks as [|t tasks]; [apply Hnil'|].
    destruct HD as (_ & _ & HD); [by left|].
    destruct (HD ltac:(done) ltac:(done)) as [_ H2]. by eapply H2.
  - destruct HD as (_ & _ & HD); [by right|].
    assert (Hids : Task_ID <$> tasks ≠ []).
    { intros E. apply fmap_nil_inv in E. by apply (Hne Hd). }
    destruct (HD (Hne Hd) Hids) as [H1 H2].
    split; [by apply Hlift|]. intros a Hr. apply Hlift; [done|]. by eapply H2.
Qed.

Lemma Create_phase_ok (K : Event → bool)
    (Pany Pok : ProjectDuplicate → list Event → Prop) ld doer st ld' st' :
  (∀ p a r, K (EvCreateProject p a r) = false) →
  (∀ ld1, localTo K (Pok ld1)) →
  (∀ ld1, emits (copyContents c ld1 doer) (phaseDone (Pany ld1) (Pok ld1))) →
  Create c ld doer st = ((ld', Ok tt), st') →
  ∃ evs, log st' = log st ++ evs ∧ Pok ld' evs.
Proof.
  intros HK Hok Hcc Hrun.
  destruct (Create_succeeds c ld doer st ld' st' Hrun) as (p & r0 & s1 & Hrun').
  destruct (Hcc ld' _ _ _ Hrun') as (evs & Hlog & _ & Hp).
  exists (EvCreateProject p doer r0 :: evs). simpl in Hlog.
  split; [by rewrite Hlog, <- app_assoc|].
  specialize (Hok ld' [EvCreateProject p doer r0] evs [] ).
  rewrite app_nil_r in Hok. apply Hok; [by repeat constructor | constructor | by eapply Hp].
Qed.

(** *** Label associations and comments *)

Lemma copyLabelTasks_emits tm ids :
  emits (copyLabelTasks c tm ids)
    (phaseDone
       (λ evs, insertedLabelTasks evs `prefix_of` copyOfLabelTask tm <$> foundLabelTasks evs)
       (λ evs, insertedLabelTasks evs = copyOfLabelTask tm <$> foundLabelTasks evs)).
Proof.
  apply (find_insert_phase (FindLabelTasks c ids) (EvFindLabelTasks ids)
           (copyOfLabelTask tm) (InsertLabelTask c) EvInsertLabelTask);
    by try intros [].
Qed.

Lemma copyComments_emits tm ids :
  emits (copyComments c tm ids)
    (phaseDone
       (λ evs, insertedComments evs `prefix_of` copyOfComment tm <$> foundComments evs)
       (λ evs, insertedComments evs = copyOfComment tm <$> foundComments evs)).
Proof.
  apply (find_insert_phase (FindComments c ids) (EvFindComments ids)
           (copyOfComment tm) (InsertComment c) EvInsertComment);
    by try intros [].
Qed.

Lemma duplicateTasks_labels doer ld bm :
  emits (duplicateTasks c doer ld bm) (λ r evs,
    phaseDone
      (λ evs, insertedLabelTasks evs
              `prefix_of` copyOfLabelTask (taskMapOf evs) <$> foundLabelTasks evs)
      (λ evs, insertedLabelTasks evs = copyOfLabelTask (taskMapOf evs) <$> foundLabelTasks evs)
      r evs).
Proof.
  apply (duplicateTasks_phase isLabelTaskEvent
           (λ tm _ evs, insertedLabelTasks evs `prefix_of` copyOfLabelTask tm <$> foundLabelTasks evs)
           (λ tm _ evs, insertedLabelTasks evs = copyOfLabelTask tm <$> foundLabelTasks evs)).
  - by intros [].
  - intros tm _. unfold insertedLabelTasks, foundLabelTasks. local_tac isLabelTaskEvent.
  - intros tm _. unfold insertedLabelTasks, foundLabelTasks. local_tac isLabelTaskEvent.
  - intros tm _. apply prefix_nil.
  - done.
  - intros tm ids _. unfold copyTaskDetails.
    apply (phaseDone_before isLabelTaskEvent).
    + unfold insertedLabelTasks, foundLabelTasks. local_tac isLabelTaskEvent.
    + unfold insertedLabelTasks, foundLabelTasks. local_tac isLabelTaskEvent.
    + apply prefix_nil.
    + unfold_program. allEv_auto; done.
    + intros _. apply (phaseDone_after isLabelTaskEvent).
      * unfold insertedLabelTasks, foundLabelTasks. local_tac isLabelTaskEvent.
      * unfold insertedLabelTasks, foundLabelTasks. local_tac isLabelTaskEvent.
      * apply copyLabelTasks_emits.
      * intros _. unfold_program. allEv_auto; done.
Qed.

Lemma duplicateTasks_comments doer ld bm :
  emits (duplicateTasks c doer ld bm) (λ r evs,
    phaseDone
      (λ evs, insertedComments evs
              `prefix_of` copyOfComment (taskMapOf evs) <$> foundComments evs)
      (λ evs, insertedComments evs = copyOfComment (taskMapOf evs) <$> foundComments evs)
      r evs).
Proof.
  apply (duplicateTasks_phase isCommentEvent
           (λ tm _ evs, insertedComments evs `prefix_of` copyOfComment tm <$> foundComments evs)
           (λ tm _ evs, insertedComments evs = copyOfComment tm <$> foundComments evs)).
  - by intros [].
  - intros tm _. unfold insertedComments, foundComments. local_tac isCommentEvent.
  - intros tm _. unfold insertedComments, foundComments. local_tac isCommentEvent.
  - intros tm _. apply prefix_nil.
  - done.
  - intros tm ids _. unfold copyTaskDetails.
    assert (Hany : localTo isCommentEvent
              (λ evs, insertedComments evs `prefix_of` copyOfComment tm <$> foundComments evs)).
    { unfold insertedComments, foundComments. local_tac isCommentEvent. }
    assert (Hok : localTo isCommentEvent
              (λ evs, insertedComments evs = copyOfComment tm <$> foundComments evs)).
    { unfold insertedComments, foundComments. local_tac isCommentEvent. }
    apply (phaseDone_before isCommentEvent _ _ _ _ Hany Hok (prefix_nil _));
      [unfold_program; allEv_auto; done | intros _].
    apply (phaseDone_before isCommentEvent _ _ _ _ Hany Hok (prefix_nil _));
      [unfold_program; allEv_auto; done | intros _].
    apply (phaseDone_before isCommentEvent _ _ _ _ Hany Hok (prefix_nil _));
      [unfold_program; allEv_auto; done | intros _].
    apply (phaseDone_after isCommentEvent _ _ _ _ Hany Hok); [apply copyComments_emits|].
    intros _. unfold_program. allEv_auto; done.
Qed.

(** In every run of [duplicateTasks], with [taskMap] the map from the
    identities of the listed tasks to those of the created tasks: the label
    associations inserted are, in order, the associations found, each with
    identity zero and its task replaced by the image under [taskMap] (zero
    for a task that is no key); likewise the comments.  They are the copies
    of the first rows found, and of all of them when the function
    succeeds. *)
Theorem duplicateTasks_copies_labels_and_comments doer ld (bucketMap : gmap Z Z) st r st' :
  duplicateTasks c doer ld bucketMap st = (r, st') →
  ∃ evs, log st' = log st ++ evs ∧
    let taskMap := taskMapOf evs in
    let label x := {| LabelTask_ID := 0;
                      LabelTask_TaskID := default 0 (taskMap !! LabelTask_TaskID x);
                      LabelTask_Rest := LabelTask_Rest x |} in
    let comment x := {| TaskComment_ID := 0;
                        TaskComment_TaskID := default 0 (taskMap !! TaskComment_TaskID x);
                        TaskComment_Rest := TaskComment_Rest x |} in
    insertedLabelTasks evs `prefix_of` label <$> foundLabelTasks evs
    ∧ insertedComments evs `prefix_of` comment <$> foundComments evs
    ∧ (r = Ok tt →
         insertedLabelTasks evs = label <$> foundLabelTasks evs
         ∧ insertedComments evs = comment <$> foundComments evs).
Proof.
  intros Hrun.
  destruct (emits_conj _ _ _ (duplicateTasks_labels doer ld bucketMap)
              (duplicateTasks_comments doer ld bucketMap) _ _ _ Hrun)
    as (evs & Hlog & [HL1 HL2] & [HC1 HC2]).
  exists evs. split; [done|]. simpl. split; [exact HL1|]. split; [exact HC1|].
  intros ->. split; [by eapply HL2 | by eapply HC2].
Qed.

End Details.

(** *** The assignees *)

Section Assignees.
Context {S : Type} (c : Collab S).
Implicit Types (st : St S) (evs : list Event) (ld : ProjectDuplicate) (doer : Auth).

Lemma copyAssignees_loop ld doer tm rows :
  emits (forM_ rows (copyAssignee c ld doer tm)) (λ r evs,
    Forall (λ e, ∃ t uid p a res, e = EvAddAssignee t uid p a res) evs
    ∧ assigneeCalls evs `prefix_of` assigneeCall ld doer tm <$> rows
    ∧ (r = Ok tt → assigneeCalls evs = assigneeCall ld doer tm <$> rows)).
Proof.
  induction rows as [|x rows IH]; simpl.
  - apply emits_ret. by repeat split.
  - set (rest := forM_ rows _). unfold copyAssignee. emits_go.
    + subst rest. eapply emits_mono; [apply IH|]. simpl.
      intros res evs (Hall & Hpre & Hok). split; [constructor; eauto 10|].
      split; [by apply prefix_cons|]. intros Hr. f_equal. by apply Hok.
    + split; [apply Forall_singleton; eauto 10|].
      split; [|done]. apply prefix_cons, prefix_nil.
    + subst rest. eapply emits_mono; [apply IH|]. simpl.
      intros res evs (Hall & Hpre & Hok). split; [constructor; eauto 10|].
      split; [by apply prefix_cons|]. intros Hr. f_equal. by apply Hok.
Qed.

Lemma copyAssignees_emits ld doer tm ids :
  emits (copyAssignees c ld doer tm ids)
    (phaseDone
       (λ evs, assigneeCalls evs `prefix_of` assigneeCall ld doer tm <$> foundAssignees evs)
       (λ evs, assigneeCalls evs = assigneeCall ld doer tm <$> foundAssignees evs)).
Proof.
  unfold copyAssignees. emits_go.
  - split; [apply prefix_nil | done].
  - eapply emits_mono; [apply copyAssignees_loop|]. simpl.
    intros r evs (Hall & Hpre & Hok).
    assert (Hf : foundAssignees evs = []).
    { eapply bind_ignored; [exact Hall|]. by intros e (t & uid & p & a & res & ->). }
    unfold phaseDone.
    change (foundAssignees (?e :: evs)) with (l ++ foundAssignees evs).
    change (assigneeCalls (?e :: evs)) with (assigneeCalls evs).
    rewrite Hf, app_nil_r. split; [done|]. intros [] Hr. by apply Hok.
Qed.

Lemma duplicateTasks_assignees doer ld bm :
  emits (duplicateTasks c doer ld bm) (λ r evs,
    phaseDone
      (λ evs, assigneeCalls evs
              `prefix_of` assigneeCall ld doer (taskMapOf evs) <$> foundAssignees evs)
      (λ evs, assigneeCalls evs = assigneeCall ld doer (taskMapOf evs) <$> foundAssignees evs)
      r evs).
Proof.
  assert (Hany : ∀ tm, localTo isAssigneeEvent
            (λ evs, assigneeCalls evs `prefix_of` assigneeCall ld doer tm <$> foundAssignees evs)).
  { intros tm. unfold assigneeCalls, foundAssignees. local_tac isAssigneeEvent. }
  assert (Hok : ∀ tm, localTo isAssigneeEvent
            (λ evs, assigneeCalls evs = assigneeCall ld doer tm <$> foundAssignees evs)).
  { intros tm. unfold assigneeCalls, foundAssignees. local_tac isAssigneeEvent. }
  apply (duplicateTasks_phase c isAssigneeEvent
           (λ tm _ evs, assigneeCalls evs `prefix_of` assigneeCall ld doer tm <$> foundAssignees evs)
           (λ tm _ evs, assigneeCalls evs = assigneeCall ld doer tm <$> foundAssignees evs));
    [by intros [] | intros; apply Hany | intros; apply Hok | intros; apply prefix_nil | done |].
  intros tm ids _. unfold copyTaskDetails.
  { apply (phaseDone_before isAssigneeEvent _ _ _ _ (Hany tm) (Hok tm) (prefix_nil _));
      [unfold_program; allEv_auto; done | intros _].
    apply (phaseDone_before isAssigneeEvent _ _ _ _ (Hany tm) (Hok tm) (prefix_nil _));
      [unfold_program; allEv_auto; done | intros _].
    apply (phaseDone_after isAssigneeEvent _ _ _ _ (Hany tm) (Hok tm));
      [apply copyAssignees_emits|].
    intros _. unfold_program. allEv_auto; done. }
Qed.

(** In every run of [duplicateTasks], with [taskMap] the map from the
    identities of the listed tasks to those of the created tasks:
    [addNewAssigneeByID] is called for the assignees found, in order, each
    time on a task that has the identity of the copy (zero when the task is no
    key of the map) and the new project and nothing else, with the user of
    the assignee, the new project and the actor; when the function succeeds
    it was called once for every assignee found, whether or not the user had
    access. *)
Theorem duplicateTasks_copies_assignees doer ld (bucketMap : gmap Z Z) st r st' :
  duplicateTasks c doer ld bucketMap st = (r, st') →
  ∃ evs, log st' = log st ++ evs ∧
    let taskMap := taskMapOf evs in
    let callFor a :=
      ({| Task_ID := default 0 (taskMap !! TaskAssginee_TaskID a);
          Task_ProjectID := Project_ID (TheProject ld);
          Task_BucketID := 0; Task_UID := ""; Task_Rest := 0 |},
       TaskAssginee_UserID a, TheProject ld, doer) in
    assigneeCalls evs `prefix_of` callFor <$> foundAssignees evs
    ∧ (r = Ok tt → assigneeCalls evs = callFor <$> foundAssignees evs).
Proof.
  intros Hrun.
  destruct (duplicateTasks_assignees doer ld bucketMap _ _ _ Hrun) as (evs & Hlog & H1 & H2).
  exists evs. split; [done|]. simpl. split; [exact H1|]. intros ->. by eapply H2.
Qed.

End Assignees.

Section Queries.
Context {S : Type} (c : Collab S).
Implicit Types (st : St S) (evs : list Event) (ld : ProjectDuplicate) (doer : Auth).

(** *** The queries *)

Lemma asked_seq {A B} q qs (m : M S A) (k : A → M S B) :
  emits m (asked [q]) → (∀ a, emits (k a) (asked qs)) → emits (m ≫= k) (asked (q :: qs)).
Proof.
  intros Hm Hk. eapply emits_bind; [exact Hm|..]; simpl.
  - intros a evs1 [_ H1]. specialize (H1 a eq_refl). simpl in H1.
    eapply emits_mono; [apply Hk|]. simpl. intros r evs2 [H2 H3].
    unfold asked, phaseDone, detailQueries in *. rewrite omap_app, H1. simpl.
    split; [by apply prefix_cons|]. intros b Hr. f_equal. by eapply H3.
  - intros e evs [H _]. split; [|done]. simpl in *.
    etrans; [exact H|]. apply prefix_cons, prefix_nil.
  - intros evs [H _]. split; [|done]. simpl in *.
    etrans; [exact H|]. apply prefix_cons, prefix_nil.
Qed.

Lemma asked_one {A B} (find : S → (A * option Err) * S) (evF : A * option Err → Event)
    (k : A → M S B) q :
  (∀ res, detailQuery (evF res) = Some q) →
  (∀ a, allEv (λ e, detailQuery e = None) (k a)) →
  emits ('(rows, err) ← call find evF; try err;; k rows) (asked [q]).
Proof.
  intros Hq Hk. emits_go.
  - split; [|done]. unfold detailQueries.
    change (omap detailQuery [?e])
      with (match detailQuery e with Some y => [y] | None => [] end).
    by rewrite Hq.
  - eapply emits_mono; [apply Hk|]. simpl. intros r evs Hall.
    assert (E : detailQueries (evF (a, None) :: evs) = [q]).
    { unfold detailQueries. change (omap detailQuery (?e :: evs))
        with (match detailQuery e with Some y => y :: omap detailQuery evs
                                     | None => omap detailQuery evs end).
      rewrite Hq. f_equal. eapply omap_ignored; [exact Hall|]. done. }
    unfold asked, phaseDone. by rewrite E.
Qed.

Lemma copyTaskDetails_queries ld doer tm ids :
  emits (copyTaskDetails c ld doer tm ids) (asked (allDetailQueries ids)).
Proof.
  unfold copyTaskDetails, allDetailQueries.
  apply asked_seq; [|intros _; apply asked_seq; [|intros _; apply asked_seq;
                     [|intros _; apply asked_seq; [|intros _]]]].
  - apply (asked_one (getTaskAttachmentsByTaskIDs c ids) (EvGetAttachments ids)
             (λ rows, forM_ rows (copyAttachment c doer tm))); [done|].
    intros rows. unfold_program. allEv_auto; done.
  - apply (asked_one (FindLabelTasks c ids) (EvFindLabelTasks ids)
             (λ rows, forM_ rows (copyLabelTask c tm))); [done|].
    intros rows. unfold_program. allEv_auto; done.
  - apply (asked_one (FindAssignees c ids) (EvFindAssignees ids)
             (λ rows, forM_ rows (copyAssignee c ld doer tm))); [done|].
    intros rows. unfold_program. allEv_auto; done.
  - apply (asked_one (FindComments c ids) (EvFindComments ids)
             (λ rows, forM_ rows (copyComment c tm))); [done|].
    intros rows. unfold_program. allEv_auto; done.
  - apply (asked_one (FindRelations c ids) (EvFindRelations ids)
             (λ rows, forM_ rows (copyRelation c tm))); [done|].
    intros rows. unfold_program. allEv_auto; done.
Qed.

(** In every run of [duplicateTasks] the queries of the task details are
    made in the order attachments, label associations, assignees, comments,
    relations, each restricted to the identities of the listed tasks, in
    listing order.  A run that succeeds has made all five, or none when no
    task was listed. *)
Theorem duplicateTasks_detail_queries doer ld (bucketMap : gmap Z Z) st r st' :
  duplicateTasks c doer ld bucketMap st = (r, st') →
  ∃ evs, log st' = log st ++ evs ∧
    let ids := Task_ID <$> listedTasks evs in
    detailQueries evs `prefix_of` allDetailQueries ids
    ∧ (r = Ok tt →
         detailQueries evs = if decide (ids = []) then [] else allDetailQueries ids).
Proof.
  intros Hrun.
  assert (Hany : ∀ ids, localTo isDetailQuery
                          (λ evs, detailQueries evs `prefix_of` allDetailQueries ids)).
  { intros ids. unfold detailQueries. intros evs1 evs2 evs3 H1 H3.
    rewrite (omap_local _ isDetailQuery evs1 evs2 evs3); [done| |done|done].
    intros e. unfold isDetailQuery. by destruct (detailQuery e). }
  assert (Hok : ∀ ids, localTo isDetailQuery
             (λ evs, detailQueries evs
                     = if decide (ids = []) then [] else allDetailQueries ids)).
  { intros ids. unfold detailQueries. intros evs1 evs2 evs3 H1 H3.
    rewrite (omap_local _ isDetailQuery evs1 evs2 evs3); [done| |done|done].
    intros e. unfold isDetailQuery. by destruct (detailQuery e). }
  destruct (duplicateTasks_phase c isDetailQuery
              (λ _ ids evs, detailQueries evs `prefix_of` allDetailQueries ids)
              (λ _ ids evs, detailQueries evs
                            = if decide (ids = []) then [] else allDetailQueries ids)
              doer ld bucketMap) with (st := st) (r := r) (st' := st')
    as (evs & Hlog & H1 & H2); try done.
  - by intros [].
  - intros _ ids. apply prefix_nil.
  - intros tm ids Hids. eapply emits_mono; [apply copyTaskDetails_queries|]. simpl.
    intros res evs [H1 H2]. split; [done|]. intros a Hr. rewrite decide_False; [|done].
    by eapply H2.
  - exists evs. split; [done|]. simpl. split; [done|]. intros ->. by eapply H2.
Qed.

(** The empty listing: when [getTasksForProjects] fails or lists no
    task, [duplicateTasks] has made that one call, for the source project,
    and returns the error of the listing, or nil. *)
Theorem duplicateTasks_without_tasks doer ld (bucketMap : gmap Z Z) st :
  let ps := [Project_withID (ProjectID ld)] in
  let '((tasks, err), s1) := getTasksForProjects c ps doer (sess st) in
  let listing := {| sess := s1; log := log st ++ [EvGetTasks ps doer (tasks, err)] |} in
  (∀ e, err = Some e → duplicateTasks c doer ld bucketMap st = (Fail e, listing))
  ∧ (err = None → tasks = [] → duplicateTasks c doer ld bucketMap st = (Ok tt, listing)).
Proof.
  simpl. destruct (getTasksForProjects c _ doer (sess st)) as [[tasks err] s1] eqn:E.
  unfold duplicateTasks, mbind, M_bind, bind, call, callS. rewrite E. simpl.
  split.
  - by intros e ->.
  - by intros -> ->.
Qed.

End Queries.

(** ** The buckets and the rights *)

Section Rows.
Context {S : Type} (c : Collab S).
Implicit Types (st : St S) (evs : list Event) (ld : ProjectDuplicate) (doer : Auth).

Lemma copyBuckets_rows ld doer buckets : ∀ bm,
  emits (foldM (copyBucket c ld doer) bm buckets) (λ r evs,
    Forall (λ e, ∃ b res, e = EvBucketCreate b doer res) evs ∧
    ∀ bm', r = Ok bm' →
       createdBuckets evs = copyOfBucket (Project_ID (TheProject ld)) <$> buckets
       ∧ length (newBucketIDs evs) = length buckets).
Proof.
  induction buckets as [|b buckets IH]; intros bm; simpl.
  - apply emits_ret. split; [constructor|]. done.
  - set (rest := foldM _). unfold copyBucket. emits_go.
    + split; [apply Forall_singleton; eauto|]. done.
    + subst rest. eapply emits_mono; [apply IH|]. simpl. intros res evs [Hall Hok].
      split; [constructor; eauto|]. intros bm' ->.
      destruct (Hok _ eq_refl) as [Hc Hn]. unfold createdBuckets, newBucketIDs in *.
      simpl. split; f_equal; done.
Qed.

Lemma bucketsCopied_local src dest : localTo isBucketEvent (bucketsCopied src dest).
Proof.
  unfold bucketsCopied, bucketQueries, createdBuckets, foundBuckets, newBucketIDs.
  local_tac isBucketEvent.
Qed.

Lemma copyBuckets_copied ld doer :
  emits (copyBuckets c ld doer)
    (phaseDone (λ _, True) (bucketsCopied (ProjectID ld) (Project_ID (TheProject ld)))).
Proof.
  unfold copyBuckets. emits_go.
  - by split.
  - eapply emits_mono; [apply copyBuckets_rows|]. simpl. intros r evs [Hall Hok].
    split; [done|]. intros bm ->. destruct (Hok _ eq_refl) as [Hc Hn].
    assert (Hf : foundBuckets evs = []).
    { eapply bind_ignored; [exact Hall|]. by intros e (b & res & ->). }
    assert (Hq : bucketQueries evs = []).
    { eapply omap_ignored; [exact Hall|]. by intros e (b & res & ->). }
    unfold bucketsCopied.
    change (foundBuckets (?e :: evs)) with (l ++ foundBuckets evs).
    change (bucketQueries (?e :: evs)) with (ProjectID ld :: bucketQueries evs).
    change (createdBuckets (?e :: evs)) with (createdBuckets evs).
    change (newBucketIDs (?e :: evs)) with (newBucketIDs evs).
    by rewrite Hf, Hq, app_nil_r.
Qed.

Lemma copyContents_buckets ld doer :
  emits (copyContents c ld doer)
    (phaseDone (λ _, True) (bucketsCopied (ProjectID ld) (Project_ID (TheProject ld)))).
Proof.
  unfold copyContents.
  apply (phaseDone_after isBucketEvent); [done | apply bucketsCopied_local | |].
  - apply copyBuckets_copied.
  - intros bm. unfold_program. allEv_auto; done.
Qed.

(** When [Create] succeeds, it has queried the buckets of the source
    project, once, and has created one bucket per bucket found, in order:
    each is handed to [Bucket.Create] with identity zero and the new project,
    the rest of the bucket being kept; and the bucket map it hands to
    [duplicateTasks] has an entry for every bucket found. *)
Theorem Create_copies_buckets ld doer st ld' st' :
  Create c ld doer st = ((ld', Ok tt), st') →
  ∃ evs, log st' = log st ++ evs
    ∧ bucketQueries evs = [ProjectID ld]
    ∧ createdBuckets evs
      = (λ b, {| Bucket_ID := 0; Bucket_ProjectID := Project_ID (TheProject ld');
                 Bucket_Rest := Bucket_Rest b |}) <$> foundBuckets evs
    ∧ dom (bucketMapOf evs) = list_to_set (Bucket_ID <$> foundBuckets evs).
Proof.
  intros Hrun.
  destruct (Create_phase_ok c isBucketEvent (λ _ _, True)
              (λ ld1, bucketsCopied (ProjectID ld1) (Project_ID (TheProject ld1)))
              ld doer st ld' st') as (evs & Hlog & Hq & Hc & Hn); try done.
  - intros ld1. apply bucketsCopied_local.
  - intros ld1. apply copyContents_buckets.
  - exists evs. split; [done|].
    assert (Hsrc : ProjectID ld' = ProjectID ld).
    { destruct (Create_run c ld doer st) as (p1 & err & s1 & _ & Hrun'). simpl in Hrun'.
      destruct err as [e|]; [destruct (IsErrProjectIdentifierIsNotUnique e)|];
        rewrite Hrun in Hrun'; by injection Hrun' as -> _ _. }
    rewrite <- Hsrc. split; [done|]. split; [done|].
    unfold bucketMapOf. rewrite buildMap_dom by (by rewrite length_fmap).
    set_solver.
Qed.

(** *** The user rights and the team rights *)

Lemma phaseDone_ignored {A} (K : Event → bool) Pany Pok (r : Res A) evs :
  localTo K Pany → Pany [] → (∀ a, r ≠ Ok a) → Forall (λ e, K e = false) evs →
  phaseDone Pany Pok r evs.
Proof.
  intros Hany Hnil Hr H. split.
  - specialize (Hany evs [] [] H (Forall_nil_2 _) Hnil). by rewrite app_nil_r in Hany.
  - intros a ->. by destruct (Hr a).
Qed.

(** Lifts what a phase of "Rights / Shares" has done to [copyContents]. *)
Lemma copyContents_rights_phase (K : Event → bool) Pany Pok ld doer :
  localTo K Pany → localTo K Pok → Pany [] →
  (∀ e, isRightsEvent e = false → K e = false) →
  emits (copyRightsAndShares c ld) (phaseDone Pany Pok) →
  emits (copyContents c ld doer) (phaseDone Pany Pok).
Proof.
  intros Hany Hok Hnil HK Hrights.
  assert (Hskip : ∀ {A} (m : M S A),
            allEv (λ e, isRightsEvent e = false) m → allEv (λ e, K e = false) m).
  { intros A m H. eapply allEv_mono; [exact H | exact HK]. }
  unfold copyContents.
  apply (phaseDone_before K _ _ _ _ Hany Hok Hnil);
    [apply Hskip; unfold_program; allEv_auto; done | intros bm].
  apply (phaseDone_before K _ _ _ _ Hany Hok Hnil);
    [apply Hskip; unfold_program; allEv_auto; done | intros _].
  unfold copyBackgroundAndShares.
  destruct (decide (Project_BackgroundFileID (TheProject ld) = 0)); [exact Hrights|].
  emits_go.
  all: try (apply (phaseDone_ignored K); [done | done | done |];
            repeat (constructor; [by apply HK|]); constructor).
  apply (phaseDone_prefix K _ _ _ [_; _] Hany Hok); [by repeat (constructor; [by apply HK|])|].
  apply (phaseDone_finally K _ _ _ _ Hany Hok); [|apply Hskip; allEv_auto; done].
  apply (phaseDone_before K _ _ _ _ Hany Hok Hnil);
    [apply Hskip; unfold_program; allEv_auto; done | intros _].
  exact Hrights.
Qed.

Lemma projectUsersCopied_local src dest :
  localTo isProjectUserEvent (projectUsersCopied src dest).
Proof.
  unfold projectUsersCopied, projectUserQueries, insertedProjectUsers, foundProjectUsers.
  local_tac isProjectUserEvent.
Qed.

Lemma teamProjectsCopied_local src dest :
  localTo isTeamProjectEvent (teamProjectsCopied src dest).
Proof.
  unfold teamProjectsCopied, teamProjectQueries, insertedTeamProjects, foundTeamProjects.
  local_tac isTeamProjectEvent.
Qed.

Lemma copyProjectUsers_copied ld :
  emits (copyProjectUsers c ld)
    (phaseDone (λ _, True) (projectUsersCopied (ProjectID ld) (Project_ID (TheProject ld)))).
Proof.
  eapply emits_mono.
  { apply emits_conj.
    - apply (find_insert_phase (FindProjectUsers c (ProjectID ld))
               (EvFindProjectUsers (ProjectID ld))
               (copyOfProjectUser (Project_ID (TheProject ld)))
               (InsertProjectUser c) EvInsertProjectUser
               (λ e, match e with EvInsertProjectUser x (_, None) => Some x | _ => None end)
               (λ e, match e with EvFindProjectUsers _ (rows, _) => rows | _ => [] end));
        by try intros [].
    - apply (find_insert_query (FindProjectUsers c (ProjectID ld))
               (EvFindProjectUsers (ProjectID ld))
               (copyOfProjectUser (Project_ID (TheProject ld)))
               (InsertProjectUser c) EvInsertProjectUser
               (λ e, match e with EvFindProjectUsers pid _ => Some pid | _ => None end)
               (ProjectID ld)); done. }
  simpl. intros r evs [[_ Hok] Hq]. split; [done|]. intros a Hr. split; [done|].
  by eapply Hok.
Qed.

Lemma copyTeamProjects_copied ld :
  emits (copyTeamProjects c ld)
    (phaseDone (λ _, True) (teamProjectsCopied (ProjectID ld) (Project_ID (TheProject ld)))).
Proof.
  eapply emits_mono.
  { apply emits_conj.
    - apply (find_insert_phase (FindTeamProjects c (ProjectID ld))
               (EvFindTeamProjects (ProjectID ld))
               (copyOfTeamProject (Project_ID (TheProject ld)))
               (InsertTeamProject c) EvInsertTeamProject
               (λ e, match e with EvInsertTeamProject x (_, None) => Some x | _ => None end)
               (λ e, match e with EvFindTeamProjects _ (rows, _) => rows | _ => [] end));
        by try intros [].
    - apply (find_insert_query (FindTeamProjects c (ProjectID ld))
               (EvFindTeamProjects (ProjectID ld))
               (copyOfTeamProject (Project_ID (TheProject ld)))
               (InsertTeamProject c) EvInsertTeamProject
               (λ e, match e with EvFindTeamProjects pid _ => Some pid | _ => None end)
               (ProjectID ld)); done. }
  simpl. intros r evs [[_ Hok] Hq]. split; [done|]. intros a Hr. split; [done|].
  by eapply Hok.
Qed.

Lemma copyContents_project_users ld doer :
  emits (copyContents c ld doer)
    (phaseDone (λ _, True) (projectUsersCopied (ProjectID ld) (Project_ID (TheProject ld)))).
Proof.
  apply (copyContents_rights_phase isProjectUserEvent);
    [done | apply projectUsersCopied_local | done | |].
  { unfold isRightsEvent. intros e H. by destruct (isProjectUserEvent e). }
  unfold copyRightsAndShares.
  apply (phaseDone_after isProjectUserEvent);
    [done | apply projectUsersCopied_local | apply copyProjectUsers_copied |].
  intros _. unfold_program. allEv_auto; done.
Qed.

Lemma copyContents_team_projects ld doer :
  emits (copyContents c ld doer)
    (phaseDone (λ _, True) (teamProjectsCopied (ProjectID ld) (Project_ID (TheProject ld)))).
Proof.
  apply (copyContents_rights_phase isTeamProjectEvent);
    [done | apply teamProjectsCopied_local | done | |].
  { unfold isRightsEvent. intros e H.
    destruct (isProjectUserEvent e), (isTeamProjectEvent e); done. }
  unfold copyRightsAndShares.
  apply (phaseDone_before isTeamProjectEvent);
    [done | apply teamProjectsCopied_local | done | unfold_program; allEv_auto; done |].
  intros _.
  apply (phaseDone_after isTeamProjectEvent);
    [done | apply teamProjectsCopied_local | apply copyTeamProjects_copied |].
  intros _. unfold_program. allEv_auto; done.
Qed.

Lemma Create_keeps_source ld doer st : ProjectID (Create c ld doer st).1.1 = ProjectID ld.
Proof.
  destruct (Create_run c ld doer st) as (p1 & err & s1 & _ & Hrun'). simpl in Hrun'.
  destruct err as [e|]; [destruct (IsErrProjectIdentifierIsNotUnique e)|];
    by rewrite Hrun'.
Qed.

(** When [Create] succeeds, it has queried the user rights and the team
    rights of the source project, once each, and has inserted one row per
    row found, in order, with identity zero and the new project, the rest of
    the row (the user or team and the right) being kept. *)
Theorem Create_copies_rights ld doer st ld' st' :
  Create c ld doer st = ((ld', Ok tt), st') →
  ∃ evs, log st' = log st ++ evs
    ∧ projectUserQueries evs = [ProjectID ld]
    ∧ teamProjectQueries evs = [ProjectID ld]
    ∧ insertedProjectUsers evs
      = (λ x, {| ProjectUser_ID := 0; ProjectUser_ProjectID := Project_ID (TheProject ld');
                 ProjectUser_Rest := ProjectUser_Rest x |}) <$> foundProjectUsers evs
    ∧ insertedTeamProjects evs
      = (λ x, {| TeamProject_ID := 0; TeamProject_ProjectID := Project_ID (TheProject ld');
                 TeamProject_Rest := TeamProject_Rest x |}) <$> foundTeamProjects evs.
Proof.
  intros Hrun.
  pose proof (Create_keeps_source ld doer st) as Hsrc. rewrite Hrun in Hsrc. simpl in Hsrc.
  destruct (Create_phase_ok c (λ e, isProjectUserEvent e || isTeamProjectEvent e)
              (λ _ _, True)
              (λ ld1 evs,
                 projectUsersCopied (ProjectID ld1) (Project_ID (TheProject ld1)) evs
                 ∧ teamProjectsCopied (ProjectID ld1) (Project_ID (TheProject ld1)) evs)
              ld doer st ld' st') as (evs & Hlog & [Hq1 Hu] & [Hq2 Ht]); try done.
  - intros ld1 evs1 evs2 evs3 H1 H3 [Hu Ht]. split.
    + apply projectUsersCopied_local; [| |done].
      * eapply Forall_impl; [exact H1|]. by intros e [? ?]%orb_false_iff.
      * eapply Forall_impl; [exact H3|]. by intros e [? ?]%orb_false_iff.
    + apply teamProjectsCopied_local; [| |done].
      * eapply Forall_impl; [exact H1|]. by intros e [? ?]%orb_false_iff.
      * eapply Forall_impl; [exact H3|]. by intros e [? ?]%orb_false_iff.
  - intros ld1. eapply emits_mono.
    { apply emits_conj; [apply copyContents_project_users | apply copyContents_team_projects]. }
    simpl. intros r evs [[_ Hu] [_ Ht]]. split; [done|]. intros a Hr.
    split; [by eapply Hu | by eapply Ht].
  - exists evs. rewrite <- Hsrc. by repeat split.
Qed.

End Rows.

(** ** The background *)

Section Background.
Context {S : Type} (c : Collab S).
Implicit Types (st : St S) (evs : list Event) (ld : ProjectDuplicate) (doer : Auth).

Lemma copyBackgroundFile_copied ld doer f :
  emits (copyBackgroundFile c ld doer f)
        (λ r evs, r = Ok tt → backgroundCopied (TheProject ld) doer f evs).
Proof.
  unfold copyBackgroundFile. emits_go; try done; intros _.
  all: lazymatch goal with
       | |- backgroundCopied _ _ _ [_; EvGetUnsplash _ (?up, ?err); ?sv; _] =>
           eexists _, up, err, [sv]; split; [reflexivity | simpl; eauto]
       | |- backgroundCopied _ _ _ [_; EvGetUnsplash _ (?up, ?err); _] =>
           eexists _, up, err, []; split; reflexivity
       end.
Qed.

Lemma copyRightsAndShares_plain ld :
  allEv (λ e, isBackgroundEvent e = false ∧ isFileEvent e = false)
        (copyRightsAndShares c ld).
Proof. unfold_program. allEv_auto; done. Qed.

Lemma copyBackgroundAndShares_trace ld doer :
  emits (copyBackgroundAndShares c ld doer)
        (λ r evs, r = Ok tt → backgroundTrace (TheProject ld) doer evs).
Proof.
  unfold copyBackgroundAndShares, backgroundTrace.
  destruct (decide (Project_BackgroundFileID (TheProject ld) = 0)).
  { eapply emits_mono; [apply copyRightsAndShares_plain|]. done. }
  emits_go; try done.
  eapply emits_finally with
    (Q1 := λ r evs, r = Ok tt → ∃ copy rights, evs = copy ++ rights
             ∧ backgroundCopied (TheProject ld) doer f0 copy
             ∧ Forall (λ e, isBackgroundEvent e = false ∧ isFileEvent e = false) rights)
    (P := λ evs, ∃ res, evs = [EvClose h res]).
  - eapply emits_bind; [apply copyBackgroundFile_copied|..]; simpl; try done.
    intros [] copy Hcopy. eapply emits_mono; [apply copyRightsAndShares_plain|]. simpl.
    intros r rights Hrights _. exists copy, rights. auto.
  - emits_go. eauto.
  - simpl. intros r evs1 evs2 H1 [res ->] Hr.
    destruct (H1 Hr) as (copy & rights & -> & Hc & Hrights).
    exists f, f0, h, copy, rights, res. rewrite <- !app_assoc. done.
Qed.

Lemma copyContents_background ld doer :
  emits (copyContents c ld doer) (λ r evs,
    r = Ok tt → ∃ pre tail, evs = pre ++ tail
      ∧ Forall (λ e, isBackgroundEvent e = false) pre
      ∧ backgroundTrace (TheProject ld) doer tail).
Proof.
  unfold copyContents.
  eapply emits_bind with (Q1 := λ _ evs, Forall (λ e, isBackgroundEvent e = false) evs);
    [unfold_program; allEv_auto; done | | done | done].
  simpl. intros bm evsB HB.
  eapply emits_bind with (Q1 := λ _ evs, Forall (λ e, isBackgroundEvent e = false) evs);
    [unfold_program; allEv_auto; done | | done | done].
  simpl. intros _ evsT HT.
  eapply emits_mono; [apply copyBackgroundAndShares_trace|]. simpl.
  intros r evs H Hr. exists (evsB ++ evsT), evs. rewrite <- app_assoc.
  split; [done|]. split; [by apply Forall_app | by apply H].
Qed.

(** When [Create] succeeds, its calls are those that create the project
    and copy the buckets and the tasks, none of them a background call, and
    then: for a project without a background, the calls that copy the rights
    and shares, with no file loaded; for a project with one, the loads of
    the background file, [files.Create] on what was loaded, the lookup of the
    attribution by the identity of the old file, the [Save] of its copy if
    there is one, [SetProjectBackground] with the new file and the blur hash
    of the project, the calls that copy the rights and shares, and last the
    [Close] of the loaded file. *)
Theorem Create_copies_background ld doer st ld' st' :
  Create c ld doer st = ((ld', Ok tt), st') →
  ∃ pre tail, log st' = log st ++ pre ++ tail
    ∧ Forall (λ e, isBackgroundEvent e = false) pre
    ∧ backgroundTrace (TheProject ld') doer tail.
Proof.
  intros Hrun.
  destruct (Create_succeeds c ld doer st ld' st' Hrun) as (p & r0 & s1 & Hrun').
  destruct (copyContents_background ld' doer _ _ _ Hrun') as (evs & Hlog & H).
  destruct (H eq_refl) as (pre & tail & -> & Hpre & Htail).
  exists (EvCreateProject p doer r0 :: pre), tail. simpl in Hlog.
  split; [by rewrite Hlog, <- app_assoc|]. split; [by constructor | done].
Qed.

End Background.

(** ** The order of the calls *)

Section Order.
Context {S : Type} (c : Collab S).
Implicit Types (st : St S) (evs : list Event) (ld : ProjectDuplicate) (doer : Auth).

Lemma sorted_between (lo hi : Z) (ns : list Z) :
  StronglySorted Z.le (lo :: ns ++ [hi])
  ↔ lo ≤ hi ∧ StronglySorted Z.le ns ∧ Forall (λ n, lo ≤ n ≤ hi) ns.
Proof.
  split.
  - intros H. apply StronglySorted_inv in H as [Hs Hlo].
    rewrite Forall_app in Hlo. destruct Hlo as [Hlo Hhi]. rewrite Forall_singleton in Hhi.
    split; [done|]. clear Hhi. revert Hs Hlo.
    induction ns as [|n ns IH]; simpl; intros Hs Hlo; [by repeat constructor|].
    apply StronglySorted_inv in Hs as [Hs Hn].
    rewrite Forall_cons in Hlo. destruct Hlo as [Hlon Hlo].
    destruct (IH Hs Hlo) as [IH1 IH2].
    rewrite Forall_app in Hn. destruct Hn as [Hn Hnhi]. rewrite Forall_singleton in Hnhi.
    split; constructor; try done.
  - intros (Hle & Hs & Hb). constructor.
    + induction Hs as [|n ns Hs IH Hn]; simpl.
      * repeat constructor.
      * rewrite Forall_cons in Hb. destruct Hb as [Hnb Hb]. constructor; [by apply IH|].
        apply Forall_app. split; [done|]. apply Forall_singleton. lia.
    + apply Forall_app. split.
      * eapply Forall_impl; [exact Hb|]. simpl. lia.
      * by apply Forall_singleton.
Qed.

Lemma bounded_nil lo hi : lo ≤ hi → bounded lo hi [].
Proof. intros H. apply sorted_between. by repeat constructor. Qed.

Lemma bounded_app a b c' evs1 evs2 :
  bounded a b evs1 → bounded b c' evs2 → bounded a c' (evs1 ++ evs2).
Proof.
  unfold bounded. rewrite omap_app. intros H1 H2.
  apply sorted_between in H1 as (Hab & Hs1 & Hb1).
  apply sorted_between in H2 as (Hbc & Hs2 & Hb2).
  apply sorted_between. split; [lia|]. split.
  - induction Hs1 as [|n ns Hs1 IH Hn]; simpl; [done|].
    rewrite Forall_cons in Hb1. destruct Hb1 as [Hnb Hb1]. constructor; [by apply IH|].
    apply Forall_app. split; [done|].
    eapply Forall_impl; [exact Hb2|]. simpl. lia.
  - apply Forall_app. split.
    + eapply Forall_impl; [exact Hb1|]. simpl. lia.
    + eapply Forall_impl; [exact Hb2|]. simpl. lia.
Qed.

Lemma bounded_weaken a b a' b' evs :
  a' ≤ a → b ≤ b' → bounded a b evs → bounded a' b' evs.
Proof.
  intros Ha Hb H. apply sorted_between in H as (Hab & Hs & Hall).
  apply sorted_between. split; [lia|]. split; [done|].
  eapply Forall_impl; [exact Hall|]. simpl. lia.
Qed.

Lemma bounded_const n evs :
  Forall (λ e, phase e = Some n ∨ phase e = None) evs → bounded n n evs.
Proof.
  intros H. apply sorted_between. split; [lia|].
  assert (Hn : Forall (λ k, k = n) (omap phase evs)).
  { induction H as [|e evs He _ IH]; simpl; [constructor|].
    destruct He as [-> | ->]; [by constructor | done]. }
  split.
  - induction Hn as [|k ks -> Hks IH]; constructor; [done|].
    eapply Forall_impl; [exact Hks|]. simpl. lia.
  - eapply Forall_impl; [exact Hn|]. simpl. lia.
Qed.

Lemma bounded_one n e : phase e = Some n → bounded n n [e].
Proof. intros H. apply bounded_const. constructor; [by left | constructor]. Qed.

Lemma bounded_none lo hi evs :
  lo ≤ hi → Forall (λ e, phase e = None) evs → bounded lo hi evs.
Proof.
  intros Hle H. unfold bounded. rewrite (omap_ignored phase _ evs H); [|done].
  by apply bounded_nil.
Qed.

Lemma ordered_bind {A B} a b c' (m : M S A) (k : A → M S B) :
  b ≤ c' → ordered a b m → (∀ x, ordered b c' (k x)) → ordered a c' (m ≫= k).
Proof.
  intros Hbc Hm Hk. eapply emits_bind; [exact Hm|..]; simpl.
  - intros x evs1 H1. eapply emits_mono; [apply Hk|]. simpl.
    intros r evs2 H2. by apply (bounded_app a b c').
  - intros e evs H. apply (bounded_weaken a b); [lia | done | done].
  - intros evs H. apply (bounded_weaken a b); [lia | done | done].
Qed.

Lemma ordered_weaken {A} a b a' b' (m : M S A) :
  a' ≤ a → b ≤ b' → ordered a b m → ordered a' b' m.
Proof.
  intros Ha Hb Hm. eapply emits_mono; [exact Hm|]. simpl.
  intros _ evs. by apply bounded_weaken.
Qed.

Lemma ordered_const {A} n (m : M S A) :
  allEv (λ e, phase e = Some n ∨ phase e = None) m → ordered n n m.
Proof.
  intros Hm. eapply emits_mono; [exact Hm|]. simpl. intros _ evs. apply bounded_const.
Qed.

(** A query, then what is done with the rows. *)
Lemma ordered_query {A B} q b hi (find : S → (A * option Err) * S)
    (evF : A * option Err → Event) (k : A → M S B) :
  (∀ res, phase (evF res) = Some q) → q ≤ b → b ≤ hi →
  (∀ rows, ordered b hi (k rows)) →
  ordered q hi ('(rows, err) ← call find evF; try err;; k rows).
Proof.
  intros Hq Hqb Hbhi Hk. unfold ordered. emits_go.
  - apply (bounded_weaken q q); [lia | lia |]. by apply bounded_one.
  - eapply emits_mono; [apply Hk|]. simpl. intros r evs Hevs.
    apply (bounded_app q q hi [_]); [by apply bounded_one|].
    by apply (bounded_weaken b hi).
Qed.

End Order.

(** Closes [bounded lo hi evs] for an explicit trace. *)
Ltac bounded_leaf :=
  unfold bounded; simpl;
  repeat first [ apply SSorted_nil | apply SSorted_cons
               | apply Forall_nil_2 | apply Forall_cons_2 ];
  lia.

Ltac one_phase := apply ordered_const; unfold_program; allEv_auto; auto.

Section OrderOfCreate.
Context {S : Type} (c : Collab S).
Implicit Types (st : St S) (evs : list Event) (ld : ProjectDuplicate) (doer : Auth).

Lemma copyBuckets_ordered ld doer : ordered 20 21 (copyBuckets c ld doer).
Proof.
  apply (ordered_query 20 21 21 (FindBuckets c (ProjectID ld)) (EvFindBuckets (ProjectID ld))
           (λ rows, foldM (copyBucket c ld doer) ∅ rows)); [done | lia | lia |].
  intros rows. one_phase.
Qed.

Lemma copyTaskDetails_ordered ld doer tm ids :
  ordered 40 81 (copyTaskDetails c ld doer tm ids).
Proof.
  unfold copyTaskDetails.
  apply (ordered_bind 40 41 81); [lia| |intros _; apply (ordered_weaken 50 81); [lia|lia|]].
  { apply (ordered_query 40 41 41 (getTaskAttachmentsByTaskIDs c ids) (EvGetAttachments ids)
             (λ rows, forM_ rows (copyAttachment c doer tm))); [done | lia | lia |].
    intros rows. one_phase. }
  apply (ordered_bind 50 51 81); [lia| |intros _; apply (ordered_weaken 60 81); [lia|lia|]].
  { apply (ordered_query 50 51 51 (FindLabelTasks c ids) (EvFindLabelTasks ids)
             (λ rows, forM_ rows (copyLabelTask c tm))); [done | lia | lia |].
    intros rows. one_phase. }
  apply (ordered_bind 60 61 81); [lia| |intros _; apply (ordered_weaken 70 81); [lia|lia|]].
  { apply (ordered_query 60 61 61 (FindAssignees c ids) (EvFindAssignees ids)
             (λ rows, forM_ rows (copyAssignee c ld doer tm))); [done | lia | lia |].
    intros rows. one_phase. }
  apply (ordered_bind 70 71 81); [lia| |intros _; apply (ordered_weaken 80 81); [lia|lia|]].
  { apply (ordered_query 70 71 71 (FindComments c ids) (EvFindComments ids)
             (λ rows, forM_ rows (copyComment c tm))); [done | lia | lia |].
    intros rows. one_phase. }
  apply (ordered_query 80 81 81 (FindRelations c ids) (EvFindRelations ids)
           (λ rows, forM_ rows (copyRelation c tm))); [done | lia | lia |].
  intros rows. one_phase.
Qed.

Lemma duplicateTasks_ordered doer ld bm : ordered 30 81 (duplicateTasks c doer ld bm).
Proof.
  apply (ordered_query 30 31 81 (getTasksForProjects c [Project_withID (ProjectID ld)] doer)
           (EvGetTasks [Project_withID (ProjectID ld)] doer)
           (λ tasks, if decide (length tasks = 0%nat) then mret tt
                     else '(taskMap, oldTaskIDs) ← createTasks c ld doer bm tasks;
                          copyTaskDetails c ld doer taskMap oldTaskIDs));
    [done | lia | lia |].
  intros tasks. destruct (decide (length tasks = 0%nat)).
  { apply emits_ret. apply bounded_nil. lia. }
  apply (ordered_bind 31 31 81); [lia | one_phase |].
  intros [tm ids]. apply (ordered_weaken 40 81); [lia | lia |].
  apply copyTaskDetails_ordered.
Qed.

Lemma copyRightsAndShares_ordered ld : ordered 100 121 (copyRightsAndShares c ld).
Proof.
  unfold copyRightsAndShares.
  apply (ordered_bind 100 101 121); [lia| |intros _; apply (ordered_weaken 110 121); [lia|lia|]].
  { apply (ordered_query 100 101 101 (FindProjectUsers c (ProjectID ld))
             (EvFindProjectUsers (ProjectID ld))
             (λ rows, forM_ rows (λ u,
                let u := ProjectUser_set_ID 0 u in
                let u := ProjectUser_set_ProjectID (Project_ID (TheProject ld)) u in
                '(_, err) ← call (InsertProjectUser c u) (EvInsertProjectUser u);
                try err))); [done | lia | lia |].
    intros rows. one_phase. }
  apply (ordered_bind 110 111 121); [lia| |intros _; apply (ordered_weaken 120 121); [lia|lia|]].
  { apply (ordered_query 110 111 111 (FindTeamProjects c (ProjectID ld))
             (EvFindTeamProjects (ProjectID ld))
             (λ rows, forM_ rows (λ t,
                let t := TeamProject_set_ID 0 t in
                let t := TeamProject_set_ProjectID (Project_ID (TheProject ld)) t in
                '(_, err) ← call (InsertTeamProject c t) (EvInsertTeamProject t);
                try err))); [done | lia | lia |].
    intros rows. one_phase. }
  apply (ordered_query 120 121 121 (FindLinkShares c (ProjectID ld))
           (EvFindLinkShares (ProjectID ld))
           (λ rows, forM_ rows (copyLinkShare c ld))); [done | lia | lia |].
  intros rows. one_phase.
Qed.

Lemma copyBackgroundFile_ordered ld doer f : ordered 90 93 (copyBackgroundFile c ld doer f).
Proof. unfold copyBackgroundFile, ordered. emits_go; bounded_leaf. Qed.

Lemma copyBackgroundAndShares_ordered ld doer :
  ordered 90 121 (copyBackgroundAndShares c ld doer).
Proof.
  unfold copyBackgroundAndShares.
  destruct (decide (Project_BackgroundFileID (TheProject ld) = 0)).
  { apply (ordered_weaken 100 121); [lia | lia | apply copyRightsAndShares_ordered]. }
  unfold ordered. emits_go; try bounded_leaf.
  eapply emits_finally with (Q1 := λ _ evs, bounded 90 121 evs)
                            (P := Forall (λ e, phase e = None)).
  - apply (ordered_bind 90 93 121); [lia | apply copyBackgroundFile_ordered | intros _].
    apply (ordered_weaken 100 121); [lia | lia | apply copyRightsAndShares_ordered].
  - allEv_auto. done.
  - simpl. intros _ evs1 evs2 H1 H2.
    unfold bounded in *. simpl. rewrite omap_app.
    rewrite (omap_ignored phase _ evs2 H2); [|done]. by rewrite app_nil_r.
Qed.

Lemma copyContents_ordered ld doer : ordered 20 121 (copyContents c ld doer).
Proof.
  unfold copyContents.
  apply (ordered_bind 20 21 121); [lia | apply copyBuckets_ordered | intros bm].
  apply (ordered_weaken 30 121); [lia | lia |].
  apply (ordered_bind 30 81 121); [lia | apply duplicateTasks_ordered | intros _].
  apply (ordered_weaken 90 121); [lia | lia |]. apply copyBackgroundAndShares_ordered.
Qed.

(** The calls of [Create] come in the order of its steps and no step is
    gone back to: the project; the buckets; the tasks; the attachments, the
    label associations, the assignees, the comments and the relations of the
    tasks; the background; the user rights, the team rights and the link
    shares.  In each step the query precedes the calls that create the
    copies. *)
Theorem Create_proceeds_in_order ld doer st :
  ∃ evs, log (Create c ld doer st).2 = log st ++ evs
    ∧ StronglySorted Z.le (omap phase evs)
    ∧ Forall (λ n, 10 ≤ n ≤ 121) (omap phase evs).
Proof.
  destruct (Create_emits c (λ _ evs, bounded 10 121 evs) ld doer st) as (evs & Hlog & H).
  - intros. bounded_leaf.
  - intros ld1 p s r s1 _. eapply emits_mono; [apply copyContents_ordered|]. simpl.
    intros _ evs H. apply (bounded_app 10 10 121 [_]); [by apply bounded_one|].
    by apply (bounded_weaken 20 121).
  - exists evs. split; [done|]. by apply sorted_between in H as (_ & ? & ?).
Qed.

End OrderOfCreate.

(** ** The new project *)

Section NewProject.
Context {S : Type} (c : Collab S).
Implicit Types (st : St S) (evs : list Event) (ld : ProjectDuplicate) (doer : Auth).

(** [Create] calls [CreateProject] first and once, never again whatever
    it answers: on the project of the receiver with identity zero, no
    identifier and the actor as owner, every other field as the receiver has
    it.  The project [Create] leaves in the receiver has the identity
    [CreateProject] handed back, and the source project of the receiver is
    kept. *)
Theorem Create_creates_the_project_once ld doer st :
  let p := TheProject ld in
  let p0 := {| Project_ID := 0; Project_Identifier := "";
               Project_OwnerID := GetID doer;
               Project_NamespaceID := Project_NamespaceID p;
               Project_BackgroundFileID := Project_BackgroundFileID p;
               Project_BackgroundBlurHash := Project_BackgroundBlurHash p;
               Project_Rest := Project_Rest p |} in
  let r := (CreateProject c p0 doer (sess st)).1 in
  let ld' := (Create c ld doer st).1.1 in
  ∃ rest, log (Create c ld doer st).2 = log st ++ EvCreateProject p0 doer r :: rest
    ∧ Forall (λ e, ∀ q a r', e ≠ EvCreateProject q a r') rest
    ∧ Project_ID (TheProject ld') = Project_ID r.1
    ∧ ProjectID ld' = ProjectID ld.
Proof.
  simpl.
  destruct (Create_run c ld doer st) as (p1 & err & s1 & Ecp & Hrun). simpl in Hrun.
  change (Project_set_OwnerID (GetID doer)
            (Project_set_Identifier "" (Project_set_ID 0 (TheProject ld))))
    with {| Project_ID := 0; Project_Identifier := "";
            Project_OwnerID := GetID doer;
            Project_NamespaceID := Project_NamespaceID (TheProject ld);
            Project_BackgroundFileID := Project_BackgroundFileID (TheProject ld);
            Project_BackgroundBlurHash := Project_BackgroundBlurHash (TheProject ld);
            Project_Rest := Project_Rest (TheProject ld) |} in *.
  rewrite Ecp. simpl.
  set (st1 := {| sess := s1; log := _ |}) in *.
  assert (Hgo : ∀ ld1, ∃ rest, log (copyContents c ld1 doer st1).2 = log st1 ++ rest
                   ∧ Forall (λ e, ∀ q a r', e ≠ EvCreateProject q a r') rest).
  { intros ld1. destruct (copyContents c ld1 doer st1) as [r2 st2] eqn:E.
    assert (H : allEv (λ e, ∀ q a r', e ≠ EvCreateProject q a r') (copyContents c ld1 doer)).
    { unfold_program. allEv_auto; done. }
    exact (H _ _ _ E). }
  destruct err as [e|]; [destruct (IsErrProjectIdentifierIsNotUnique e)|]; rewrite Hrun; simpl.
  - destruct (Hgo (set_TheProject (Project_set_Identifier "" p1) ld)) as (rest & Hl & Hall).
    exists rest. rewrite Hl. simpl. by rewrite <- app_assoc.
  - exists []. by repeat split.
  - destruct (Hgo (set_TheProject p1 ld)) as (rest & Hl & Hall).
    exists rest. rewrite Hl. simpl. by rewrite <- app_assoc.
Qed.

End NewProject.

(** ** The gate, then the duplication *)

Section Gate.
Context {S : Type} (c : Collab S).
Implicit Types (st : St S) (evs : list Event) (ld : ProjectDuplicate) (doer : Auth).

Lemma Create_extends_log ld doer st :
  ∃ p1 err s1 rest,
    let p0 := Project_set_OwnerID (GetID doer)
                (Project_set_Identifier "" (Project_set_ID 0 (TheProject ld))) in
    CreateProject c p0 doer (sess st) = ((p1, err), s1)
    ∧ log (Create c ld doer st).2 = log st ++ EvCreateProject p0 doer (p1, err) :: rest.
Proof.
  destruct (Create_run c ld doer st) as (p1 & err & s1 & Ecp & Hrun). simpl in Hrun.
  set (p0 := Project_set_OwnerID _ _) in *.
  set (st1 := {| sess := s1; log := _ |}) in *.
  assert (Hgo : ∀ ld1, ∃ rest, log (copyContents c ld1 doer st1).2
                               = log st ++ EvCreateProject p0 doer (p1, err) :: rest).
  { intros ld1. destruct (copyContents c ld1 doer st1) as [r st2] eqn:Ecc.
    destruct (copyContents_errorShape c ld1 doer _ _ _ Ecc) as (evs & Hl & _).
    exists evs. simpl. rewrite Hl. simpl. by rewrite <- app_assoc. }
  exists p1, err, s1.
  destruct err as [e|]; [destruct (IsErrProjectIdentifierIsNotUnique e)|];
    rewrite Hrun; simpl.
  - destruct (Hgo (set_TheProject (Project_set_Identifier "" p1) ld)) as [rest H]. eauto.
  - exists []. done.
  - destruct (Hgo (set_TheProject p1 ld)) as [rest H]. eauto.
Qed.

(** The gate and the duplication together.  When [CanCreate] lets the
    actor through, it has made the read check on a project that has the
    source identity and nothing else, and the create check on what the read
    check left, moved to the target namespace; and [Create], run on the
    receiver as [CanCreate] left it, creates the project the create check
    left there, with identity zero, no identifier and the actor as owner.  The
    source identity and the target namespace of the receiver are kept. *)
Theorem Create_after_CanCreate ld (a : Auth) st ld1 st1 :
  CanCreate c ld a st = ((ld1, (true, None)), st1) →
  ∃ p1 maxRight p3 r rest,
    log (Create c ld1 a st1).2
    = log st
      ++ [EvCanRead {| Project_ID := ProjectID ld; Project_Identifier := "";
                       Project_OwnerID := 0; Project_NamespaceID := 0;
                       Project_BackgroundFileID := 0; Project_BackgroundBlurHash := "";
                       Project_Rest := 0 |} a (p1, true, maxRight, None);
          EvCanCreate (Project_set_NamespaceID (NamespaceID ld) p1) a (p3, true, None);
          EvCreateProject {| Project_ID := 0; Project_Identifier := "";
                             Project_OwnerID := GetID a;
                             Project_NamespaceID := Project_NamespaceID p3;
                             Project_BackgroundFileID := Project_BackgroundFileID p3;
                             Project_BackgroundBlurHash := Project_BackgroundBlurHash p3;
                             Project_Rest := Project_Rest p3 |} a r]
      ++ rest
    ∧ ProjectID ld1 = ProjectID ld ∧ NamespaceID ld1 = NamespaceID ld.
Proof.
  unfold CanCreate, callS. simpl.
  destruct (Project_CanRead c _ a (sess st)) as [[[[p1 canRead] maxRight] errR] s1].
  destruct errR as [e|], canRead; simpl; try (by intros [=]).
  destruct (Project_CanCreate c _ a s1) as [[[p3 canCreate] errC] s2].
  intros [= <- -> -> <-].
  destruct (Create_extends_log (set_TheProject p3 ld) a
              {| sess := s2;
                 log := (log st ++ [EvCanRead (Project_withID (ProjectID ld)) a
                                      (p1, true, maxRight, None)])
                        ++ [EvCanCreate (Project_set_NamespaceID (NamespaceID ld) p1) a
                              (p3, true, None)] |})
    as (q & err & s3 & rest & _ & Hlog).
  exists p1, maxRight, p3, (q, err), rest. split; [|done].
  rewrite Hlog. simpl. by rewrite <- !app_assoc.
Qed.

End Gate.

Lemma Create_after_CanCreate_demo :
  let gate := CanCreate (scripted demoUnsplash) demoRequest demoDoer demoStart in
  ∃ p1 maxRight p3 r rest,
    log (Create (scripted demoUnsplash) gate.1.1 demoDoer gate.2).2
    = log demoStart
      ++ [EvCanRead (Project_withID 1) demoDoer (p1, true, maxRight, None);
          EvCanCreate (Project_set_NamespaceID 2 p1) demoDoer (p3, true, None);
          EvCreateProject (Project_set_OwnerID 5
                             (Project_set_Identifier "" (Project_set_ID 0 p3)))
                          demoDoer r]
      ++ rest.
Proof.
  simpl.
  destruct (Create_after_CanCreate (scripted demoUnsplash) demoRequest demoDoer demoStart
              (CanCreate (scripted demoUnsplash) demoRequest demoDoer demoStart).1.1
              (CanCreate (scripted demoUnsplash) demoRequest demoDoer demoStart).2)
    as (p1 & maxRight & p3 & r & rest & Hlog & _).
  - vm_compute. reflexivity.
  - exists p1, maxRight, p3, r, rest. exact Hlog.
Defined.

(** ** Which file the attachment loop closes *)

Section Handles.
Context {S : Type} (c : Collab S).
Implicit Types (st : St S) (evs : list Event) (ld : ProjectDuplicate) (doer : Auth).

Lemma balanced_app {A B} (a : A) evs1 (r : Res B) evs2 :
  balanced (Ok a) evs1 → balanced r evs2 → balanced r (evs1 ++ evs2).
Proof.
  intros H1 H2 Hr. unfold closedHandles, openedHandles in *.
  rewrite !omap_app. f_equal; [apply H1; eauto | by apply H2].
Qed.

Lemma balanced_cons {A} ev (r : Res A) evs :
  isFileEvent ev = false → balanced r evs → balanced r (ev :: evs).
Proof.
  intros Hev H. apply (balanced_app tt [ev]); [|done].
  intros _. by destruct ev.
Qed.

Lemma balanced_plain {A} (r : Res A) evs :
  Forall (λ e, isFileEvent e = false) evs → balanced r evs.
Proof.
  intros H _. unfold closedHandles, openedHandles.
  rewrite !(omap_ignored _ _ evs H); [done|by intros []..].
Qed.

Lemma balanced_bind {A B} (m : M S A) (k : A → M S B) :
  emits m balanced → (∀ a, emits (k a) balanced) → emits (m ≫= k) balanced.
Proof.
  intros Hm Hk. eapply emits_bind; [exact Hm|..].
  - intros a evs1 H1. eapply emits_mono; [apply Hk|]. simpl.
    intros r evs2 H2. by apply (balanced_app a).
  - by intros e evs _ [a [=]].
  - by intros evs _ [a [=]].
Qed.

Lemma balanced_forM {A} (xs : list A) (body : A → M S unit) :
  (∀ x, emits (body x) balanced) → emits (forM_ xs body) balanced.
Proof.
  intros Hb. induction xs as [|x xs IH]; simpl.
  - by apply emits_ret.
  - apply balanced_bind; [apply Hb | intros _; apply IH].
Qed.

Lemma balanced_of_allEv {A} (m : M S A) :
  allEv (λ e, isFileEvent e = false) m → emits m balanced.
Proof.
  intros H. eapply emits_mono; [exact H|]. simpl. intros r evs. apply balanced_plain.
Qed.

Lemma copyAttachments_balanced doer tm ids :
  KeepsFile c → emits (copyAttachments c doer tm ids) balanced.
Proof.
  intros Hkeep. unfold copyAttachments. emits_go.
  - by intros [a [=]].
  - eapply emits_mono; [apply balanced_forM|].
    2:{ simpl. intros r evs Hevs. by apply balanced_cons. }
    intros x. unfold copyAttachment. emits_go.
    all: try (by intros [a [=]]).
    all: try (by intros _).
    all: match goal with
         | H : TaskAttachment_NewAttachment c _ _ _ _ _ _ = _ |- _ =>
             apply Hkeep in H; simpl in H
         end.
    all: intros _; unfold closedHandles, openedHandles; simpl.
    all: simplify_eq.
    all: match goal with H : File_File _ = _ |- _ => by rewrite H end.
Qed.

Lemma copyContents_balanced ld doer :
  KeepsFile c → emits (copyContents c ld doer) balanced.
Proof.
  intros Hkeep.
  assert (Hshares : emits (copyRightsAndShares c ld) balanced).
  { apply balanced_of_allEv, copyRightsAndShares_no_file_event. }
  unfold copyContents.
  apply balanced_bind; [apply balanced_of_allEv, copyBuckets_no_file_event | intros bm].
  apply balanced_bind; [|intros _].
  - unfold duplicateTasks. emits_go; try (by intros [a [=]]); try (by intros _).
    eapply emits_mono.
    2:{ simpl. intros r evs Hevs. apply balanced_cons; [done | exact Hevs]. }
    apply balanced_bind.
    { apply balanced_of_allEv. unfold_program. allEv_auto; done. }
    intros [tm ids]. unfold copyTaskDetails.
    apply balanced_bind; [by apply copyAttachments_balanced | intros _].
    apply balanced_of_allEv. unfold_program. allEv_auto; done.
  - unfold copyBackgroundAndShares.
    destruct (decide (Project_BackgroundFileID (TheProject ld) = 0)); [exact Hshares|].
    emits_go; try (by intros [a [=]]).
    eapply emits_finally with
      (Q1 := λ _ evs, Forall (λ e, isFileEvent e = false) evs)
      (P := λ evs, ∃ res, evs = [EvClose h res]).
    + apply allEv_bind; [apply copyBackgroundFile_no_file_event|].
      intros _. apply copyRightsAndShares_no_file_event.
    + emits_go. eauto.
    + simpl. intros r evs1 evs2 H1 [res ->] _.
      unfold closedHandles, openedHandles.
      change (@omap list _) with list_omap in *. simpl.
      match goal with H : File_File _ = Some _ |- _ => rewrite H end.
      rewrite !omap_app.
      rewrite !(omap_ignored _ _ evs1 H1); [done|by intros []..].
Qed.

Lemma duplicateTasks_closes_nothing doer ld bm :
  LeavesStoredFile c → allEv (λ e, ∀ h r, e ≠ EvClose h r) (duplicateTasks c doer ld bm).
Proof.
  intros Hstored.
  assert (Hbody : ∀ tm x, allEv (λ e, ∀ h r, e ≠ EvClose h r) (copyAttachment c doer tm x)).
  { intros tm x. unfold copyAttachment, allEv. emits_go.
    all: try (by repeat constructor).
    exfalso.
    match goal with
    | Hnew : TaskAttachment_NewAttachment c _ _ _ _ _ _ = _,
      Hfile : TaskAttachment_File _ = Some _ |- _ =>
        pose proof (Hstored _ _ _ _ _ _ _ _ _ Hnew Hfile)
    end. congruence. }
  unfold duplicateTasks, createTasks, copyTask, copyTaskDetails, copyAttachments,
    copyLabelTasks, copyLabelTask, copyAssignees, copyAssignee, copyComments, copyComment,
    copyRelations, copyRelation.
  repeat (first [ apply allEv_forM; intros ? _; apply Hbody | allEv_step ]; simpl); done.
Qed.

Lemma no_leak_when_balanced evs :
  closedHandles evs = openedHandles evs → leakedHandles evs = [].
Proof.
  intros Heq. unfold leakedHandles. rewrite Heq.
  assert (H : ∀ hs l : list Handle, hs ⊆ l → filter (λ h, h ∉ l) hs = []).
  { intros hs l. induction hs as [|h hs IH]; intros Hsub; [done|].
    rewrite filter_cons_False; [apply IH; set_solver|].
    intros Hn. apply Hn. set_solver. }
  by apply H.
Qed.

Lemma all_leak_when_none_closed evs :
  closedHandles evs = [] → leakedHandles evs = openedHandles evs.
Proof.
  intros Heq. unfold leakedHandles. rewrite Heq.
  induction (openedHandles evs) as [|h hs IH]; [done|].
  rewrite filter_cons_True by (apply not_elem_of_nil). by rewrite IH.
Qed.

(** Which file the attachment loop closes is up to [NewAttachment]: the
    loop closes [attachment.File.File] as it is after the call.  If
    [NewAttachment] leaves [attachment.File] as it found it, a [Create] that
    succeeds has closed every file it opened, in the order opened (the
    background file, last).  If [NewAttachment] leaves there a file with no
    open content, no run of [duplicateTasks] closes any file: every
    attachment file that was opened stays open. *)
Theorem attachment_files_closed_as_NewAttachment_leaves_them ld doer :
  (KeepsFile c → ∀ st ld' st',
     Create c ld doer st = ((ld', Ok tt), st') →
     ∃ evs, log st' = log st ++ evs
       ∧ closedHandles evs = openedHandles evs ∧ leakedHandles evs = [])
  ∧ (LeavesStoredFile c → ∀ (bucketMap : gmap Z Z) st,
       ∃ evs, log (duplicateTasks c doer ld bucketMap st).2 = log st ++ evs
         ∧ closedHandles evs = [] ∧ leakedHandles evs = openedHandles evs).
Proof.
  split.
  - intros Hkeep st ld' st' Hrun.
    destruct (Create_succeeds c ld doer st ld' st' Hrun) as (p & r0 & s1 & Hrun').
    destruct (copyContents_balanced ld' doer Hkeep _ _ _ Hrun') as (evs & Hlog & Hb).
    exists (EvCreateProject p doer r0 :: evs). simpl in Hlog.
    split; [by rewrite Hlog, <- app_assoc|].
    assert (Heq : closedHandles (EvCreateProject p doer r0 :: evs)
                  = openedHandles (EvCreateProject p doer r0 :: evs)).
    { change (closedHandles evs = openedHandles evs). apply Hb. eauto. }
    split; [exact Heq | by apply no_leak_when_balanced].
  - intros Hstored bucketMap st.
    destruct (duplicateTasks c doer ld bucketMap st) as [r st'] eqn:Hrun.
    destruct (duplicateTasks_closes_nothing doer ld bucketMap Hstored _ _ _ Hrun)
      as (evs & Hlog & Hall).
    exists evs. split; [done|].
    assert (Hnone : closedHandles evs = []).
    { eapply omap_ignored; [exact Hall|]. intros [] He; try done. by destruct (He h r0). }
    split; [exact Hnone | by apply all_leak_when_none_closed].
Qed.

End Handles.

(** ** More runs on the scripted store *)

Lemma scripted_keeps_file sc : KeepsFile (scripted sc).
Proof.
  intros ta h name size a s ta' s'. simpl.
  destruct (sc_newAttachmentErr sc); intros [= <- _]; done.
Qed.

Lemma storing_leaves_stored_file sc : LeavesStoredFile (storing sc).
Proof. intros ta h name size a s ta' s' f. simpl. by intros [= <- _] [= <-]. Qed.

Lemma scripted_opens_files sc f s f' s' :
  File_LoadFileByID (scripted sc) f s = ((f', None), s') → File_File f' ≠ None.
Proof. simpl. by intros [= <- _]. Qed.

Lemma scripted_keeps_file_set sc ta h name size a s ta' s' :
  TaskAttachment_File ta ≠ None →
  TaskAttachment_NewAttachment (scripted sc) ta h name size a s = ((ta', None), s') →
  TaskAttachment_File ta' ≠ None.
Proof. intros Hta Hnew. by rewrite (scripted_keeps_file sc _ _ _ _ _ _ _ _ Hnew). Qed.

Lemma Create_panics_only_on_nil_file_demo :
  (Create (scripted demoUnsplash) demoRequest demoDoer demoStart).1.2 ≠ Panic.
Proof.
  destruct (Create_panics_only_on_nil_file (scripted demoUnsplash) demoRequest demoDoer
              demoStart) as (evs & _ & _ & Hsafe).
  apply Hsafe; [apply scripted_opens_files | apply scripted_keeps_file_set].
Defined.

Lemma duplicateTasks_copies_labels_and_comments_demo :
  ∃ evs,
    log (duplicateTasks (scripted demo) demoDoer demoRequest demoBucketMap demoStart).2
    = log demoStart ++ evs
    ∧ insertedLabelTasks evs = copyOfLabelTask (taskMapOf evs) <$> foundLabelTasks evs
    ∧ insertedComments evs = copyOfComment (taskMapOf evs) <$> foundComments evs.
Proof.
  destruct (duplicateTasks_copies_labels_and_comments (scripted demo) demoDoer demoRequest
              demoBucketMap demoStart (Ok tt)
              (duplicateTasks (scripted demo) demoDoer demoRequest demoBucketMap
                 demoStart).2) as (evs & Hlog & _ & _ & Hok).
  - vm_compute. reflexivity.
  - exists evs. split; [exact Hlog | exact (Hok eq_refl)].
Defined.

Lemma duplicateTasks_copies_assignees_demo :
  ∃ evs,
    log (duplicateTasks (scripted demo) demoDoer demoRequest demoBucketMap demoStart).2
    = log demoStart ++ evs
    ∧ assigneeCalls evs
      = assigneeCall demoRequest demoDoer (taskMapOf evs) <$> foundAssignees evs.
Proof.
  destruct (duplicateTasks_copies_assignees (scripted demo) demoDoer demoRequest
              demoBucketMap demoStart (Ok tt)
              (duplicateTasks (scripted demo) demoDoer demoRequest demoBucketMap
                 demoStart).2) as (evs & Hlog & _ & Hok).
  - vm_compute. reflexivity.
  - exists evs. split; [exact Hlog | exact (Hok eq_refl)].
Defined.

Lemma duplicateTasks_detail_queries_demo :
  ∃ evs,
    log (duplicateTasks (scripted demo) demoDoer demoRequest demoBucketMap demoStart).2
    = log demoStart ++ evs
    ∧ detailQueries evs `prefix_of` allDetailQueries (Task_ID <$> listedTasks evs).
Proof.
  destruct (duplicateTasks_detail_queries (scripted demo) demoDoer demoRequest
              demoBucketMap demoStart (Ok tt)
              (duplicateTasks (scripted demo) demoDoer demoRequest demoBucketMap
                 demoStart).2) as (evs & Hlog & Hpre & _).
  - vm_compute. reflexivity.
  - exists evs. split; [exact Hlog | exact Hpre].
Defined.

Lemma Create_copies_buckets_demo :
  ∃ evs,
    log (Create (scripted demoUnsplash) demoRequest demoDoer demoStart).2
    = log demoStart ++ evs
    ∧ bucketQueries evs = [1]
    ∧ createdBuckets evs = copyOfBucket 1000 <$> foundBuckets evs.
Proof.
  destruct (Create_copies_buckets (scripted demoUnsplash) demoRequest demoDoer demoStart
              (Create (scripted demoUnsplash) demoRequest demoDoer demoStart).1.1
              (Create (scripted demoUnsplash) demoRequest demoDoer demoStart).2)
    as (evs & Hlog & Hq & Hc & _).
  - vm_compute. reflexivity.
  - exists evs. split; [exact Hlog|]. split; [exact Hq | exact Hc].
Defined.

Lemma Create_copies_rights_demo :
  ∃ evs,
    log (Create (scripted demoUnsplash) demoRequest demoDoer demoStart).2
    = log demoStart ++ evs
    ∧ insertedProjectUsers evs = copyOfProjectUser 1000 <$> foundProjectUsers evs
    ∧ insertedTeamProjects evs = copyOfTeamProject 1000 <$> foundTeamProjects evs.
Proof.
  destruct (Create_copies_rights (scripted demoUnsplash) demoRequest demoDoer demoStart
              (Create (scripted demoUnsplash) demoRequest demoDoer demoStart).1.1
              (Create (scripted demoUnsplash) demoRequest demoDoer demoStart).2)
    as (evs & Hlog & _ & _ & Hu & Ht).
  - vm_compute. reflexivity.
  - exists evs. split; [exact Hlog|]. split; [exact Hu | exact Ht].
Defined.

Lemma Create_copies_background_demo :
  ∃ pre tail,
    log (Create (scripted demoUnsplash) demoRequest demoDoer demoStart).2
    = log demoStart ++ pre ++ tail
    ∧ backgroundTrace
        (TheProject (Create (scripted demoUnsplash) demoRequest demoDoer demoStart).1.1)
        demoDoer tail.
Proof.
  destruct (Create_copies_background (scripted demoUnsplash) demoRequest demoDoer demoStart
              (Create (scripted demoUnsplash) demoRequest demoDoer demoStart).1.1
              (Create (scripted demoUnsplash) demoRequest demoDoer demoStart).2)
    as (pre & tail & Hlog & _ & Htail).
  - vm_compute. reflexivity.
  - exists pre, tail. split; [exact Hlog | exact Htail].
Defined.

(** With the store that keeps the file every handle is closed; with the
    store that swaps it, the file of the first attachment stays open. *)
Lemma attachment_files_closed_demo :
  (∃ evs,
     log (Create (scripted demoUnsplash) demoRequest demoDoer demoStart).2
     = log demoStart ++ evs
     ∧ leakedHandles evs = [])
  ∧ (∃ evs,
       log (duplicateTasks (storing demo) demoDoer demoRequest demoBucketMap demoStart).2
       = log demoStart ++ evs
       ∧ leakedHandles evs = openedHandles evs).
Proof.
  split.
  - destruct (proj1 (attachment_files_closed_as_NewAttachment_leaves_them
                       (scripted demoUnsplash) demoRequest demoDoer)
                (scripted_keeps_file demoUnsplash) demoStart
                (Create (scripted demoUnsplash) demoRequest demoDoer demoStart).1.1
                (Create (scripted demoUnsplash) demoRequest demoDoer demoStart).2)
      as (evs & Hlog & _ & Hleak).
    + vm_compute. reflexivity.
    + exists evs. split; [exact Hlog | exact Hleak].
  - destruct (proj2 (attachment_files_closed_as_NewAttachment_leaves_them
                       (storing demo) demoRequest demoDoer)
                (storing_leaves_stored_file demo) demoBucketMap demoStart)
      as (evs & Hlog & _ & Hleak).
    exists evs. split; [exact Hlog | exact Hleak].
Defined.

(** ** C2: the relations and their query *)

Section Queried.
Context {S : Type} (c : Collab S).
Implicit Types (st : St S) (evs : list Event) (ld : ProjectDuplicate) (doer : Auth).

Lemma relationsQueried_local ids : localTo isRelationEvent (relationsQueried c ids).
Proof. unfold relationsQueried, relationQueries, foundRelations. local_tac isRelationEvent. Qed.

Lemma attachmentsQueried_local ids : localTo isAttachmentEvent (attachmentsQueried c ids).
Proof.
  unfold attachmentsQueried, attachmentQueries, listedAttachments.
  local_tac isAttachmentEvent.
Qed.

Lemma linkSharesQueried_local pid : localTo isLinkShareEvent (linkSharesQueried c pid).
Proof.
  unfold linkSharesQueried, linkShareQueries, foundLinkShares. local_tac isLinkShareEvent.
Qed.

Lemma copyRelations_queried tm ids :
  emits (copyRelations c tm ids)
    (phaseDone (λ evs, relationQueries evs `prefix_of` [ids]) (relationsQueried c ids)).
Proof.
  unfold copyRelations. emits_go.
  - split; [done|]. done.
  - eapply emits_mono; [apply copyRelations_loop|]. simpl.
    intros r evs (Hall & _ & _).
    assert (Hq : relationQueries evs = []).
    { eapply omap_ignored; [exact Hall|]. by intros e (x & res & ->). }
    assert (Hf : foundRelations evs = []).
    { eapply bind_ignored; [exact Hall|]. by intros e (x & res & ->). }
    unfold phaseDone, relationsQueried.
    change (relationQueries (?e :: evs)) with (ids :: relationQueries evs).
    change (foundRelations (?e :: evs)) with (l ++ foundRelations evs).
    rewrite Hq, Hf, app_nil_r. split; [done|]. intros _ _. split; [done|].
    exists s. by rewrite H.
Qed.

(** The query of a detail, as [duplicateTasks] makes it: none when no
    task is listed. *)
Lemma duplicateTasks_relations_queried doer ld bm :
  emits (duplicateTasks c doer ld bm) (λ r evs,
    let ids := Task_ID <$> listedTasks evs in
    relationQueries evs `prefix_of` [ids]
    ∧ (r = Ok tt → if decide (ids = []) then relationQueries evs = []
                   else relationsQueried c ids evs)).
Proof.
  assert (Hany : ∀ ids, localTo isRelationEvent (λ evs, relationQueries evs `prefix_of` [ids])).
  { intros ids. unfold relationQueries. local_tac isRelationEvent. }
  assert (Hnone : localTo isRelationEvent (λ evs, relationQueries evs = [])).
  { unfold relationQueries. local_tac isRelationEvent. }
  assert (Hok : ∀ ids, localTo isRelationEvent
            (λ evs, if decide (ids = []) then relationQueries evs = []
                    else relationsQueried c ids evs)).
  { intros ids. destruct (decide (ids = [])); [exact Hnone | apply relationsQueried_local]. }
  eapply emits_mono.
  { apply (duplicateTasks_phase c isRelationEvent
             (λ _ ids evs, relationQueries evs `prefix_of` [ids])
             (λ _ ids evs, if decide (ids = []) then relationQueries evs = []
                           else relationsQueried c ids evs) doer ld bm);
      [by intros [] | intros _; apply Hany | intros _; apply Hok
      | intros _ ids; apply prefix_nil | done |].
    intros tm ids Hids. cbv beta. destruct (decide (ids = [])) as [?|_]; [done|].
    unfold copyTaskDetails.
    pose proof (relationsQueried_local ids) as Hq.
    apply (phaseDone_before isRelationEvent _ _ _ _ (Hany ids) Hq (prefix_nil _));
      [unfold_program; allEv_auto; done | intros _].
    apply (phaseDone_before isRelationEvent _ _ _ _ (Hany ids) Hq (prefix_nil _));
      [unfold_program; allEv_auto; done | intros _].
    apply (phaseDone_before isRelationEvent _ _ _ _ (Hany ids) Hq (prefix_nil _));
      [unfold_program; allEv_auto; done | intros _].
    apply (phaseDone_before isRelationEvent _ _ _ _ (Hany ids) Hq (prefix_nil _));
      [unfold_program; allEv_auto; done | intros _].
    apply copyRelations_queried. }
  simpl. intros r evs [H1 H2]. split; [done|]. intros ->. by eapply H2.
Qed.

(** C2. In every run of [duplicateTasks], with [taskMap] the map from
    the identities of the listed tasks to those of the created tasks.  The
    relations are queried at most once, and only for the identities of the
    listed tasks; the relations inserted are, in order, copies of the first
    relations found.  When the function succeeds and a task was listed, the
    query was made, the relations found are the rows the store answered it
    with, and the relations inserted are, in order, the copies of all of
    them: a relation whose [other_task_id] is no key of [taskMap] has no
    copy; every other one is inserted with identity zero, its [task_id]
    replaced by its image under [taskMap] (zero if it has none), its
    [other_task_id] by its image and the rest kept.  When no task was listed
    no relation is queried or inserted. *)
Theorem duplicateTasks_copies_relations doer ld (bucketMap : gmap Z Z) st r st' :
  duplicateTasks c doer ld bucketMap st = (r, st') →
  ∃ evs, log st' = log st ++ evs ∧
    let taskMap := taskMapOf evs in
    let ids := Task_ID <$> listedTasks evs in
    let copy x :=
      match taskMap !! TaskRelation_OtherTaskID x with
      | None => None
      | Some other =>
          Some {| TaskRelation_ID := 0;
                  TaskRelation_TaskID := default 0 (taskMap !! TaskRelation_TaskID x);
                  TaskRelation_OtherTaskID := other;
                  TaskRelation_Rest := TaskRelation_Rest x |}
      end in
    relationQueries evs `prefix_of` [ids]
    ∧ insertedRelations evs `prefix_of` omap copy (foundRelations evs)
    ∧ (r = Ok tt →
         insertedRelations evs = omap copy (foundRelations evs)
         ∧ if decide (ids = []) then relationQueries evs = [] ∧ insertedRelations evs = []
           else relationQueries evs = [ids]
                ∧ ∃ s, (FindRelations c ids s).1 = (foundRelations evs, None)).
Proof.
  intros Hrun.
  destruct (duplicateTasks_relations_copied c doer ld bucketMap st r st' Hrun)
    as (evs & Hlog & Hpre & Hok & _).
  destruct (duplicateTasks_relations_queried doer ld bucketMap _ _ _ Hrun)
    as (evs' & Hlog' & Hq & Hqok).
  rewrite Hlog in Hlog'. apply app_inv_head in Hlog' as <-.
  exists evs. split; [done|]. simpl in *.
  split; [done|]. split; [exact Hpre|]. intros ->.
  specialize (Hok eq_refl). specialize (Hqok eq_refl). split; [exact Hok|].
  destruct (decide (Task_ID <$> listedTasks evs = [])) as [E|E]; [|exact Hqok].
  split; [done|]. rewrite Hok.
  assert (Hf : foundRelations evs = []); [|by rewrite Hf].
  clear -Hqok. unfold relationQueries, foundRelations in *.
  induction evs as [|e evs IH]; [done|]. destruct e; simpl in *; try done; by apply IH.
Qed.

End Queried.

Lemma duplicateTasks_copies_relations_demo :
  ∃ evs,
    log (duplicateTasks (scripted demo) demoDoer demoRequest demoBucketMap demoStart).2
    = log demoStart ++ evs
    ∧ relationQueries evs = [[21; 22; 23]]
    ∧ TaskRelation_ID <$> foundRelations evs = [71; 72]
    ∧ insertedRelations evs
      = [ {| TaskRelation_ID := 0; TaskRelation_TaskID := 1000;
             TaskRelation_OtherTaskID := 1001; TaskRelation_Rest := 1 |} ].
Proof.
  destruct (duplicateTasks_copies_relations (scripted demo) demoDoer demoRequest
              demoBucketMap demoStart (Ok tt)
              (duplicateTasks (scripted demo) demoDoer demoRequest demoBucketMap
                 demoStart).2) as (evs & Hlog & _ & _ & Hok).
  - vm_compute. reflexivity.
  - destruct (Hok eq_refl) as [Hins Hq].
    exists evs. split; [exact Hlog|].
    assert (Hevs : evs = log (duplicateTasks (scripted demo) demoDoer demoRequest
                                demoBucketMap demoStart).2).
    { rewrite Hlog. reflexivity. }
    rewrite Hevs in *. clear Hevs Hlog.
    split; [vm_compute; reflexivity|]. split; [vm_compute; reflexivity|].
    rewrite Hins. vm_compute. reflexivity.
Defined.

(** ** C6: the link shares and their query *)

Section SharesQueried.
Context {S : Type} (c : Collab S).
Implicit Types (st : St S) (evs : list Event) (ld : ProjectDuplicate) (doer : Auth).

Lemma copyLinkShares_queried ld :
  emits (copyLinkShares c ld)
    (phaseDone (λ _, True) (linkSharesQueried c (ProjectID ld))).
Proof.
  unfold copyLinkShares. emits_go.
  - by split.
  - assert (Hloop : allEv (λ e, ∀ pid res, e ≠ EvFindLinkShares pid res)
                      (forM_ l (copyLinkShare c ld))).
    { unfold copyLinkShare. allEv_auto; done. }
    eapply emits_mono; [exact Hloop|]. simpl. intros r evs Hall.
    assert (Hq : linkShareQueries evs = []).
    { eapply omap_ignored; [exact Hall|]. intros [] He; try done. by destruct (He pid r0). }
    assert (Hf : foundLinkShares evs = []).
    { eapply bind_ignored; [exact Hall|]. intros [] He; try done. by destruct (He pid r0). }
    unfold phaseDone, linkSharesQueried.
    change (linkShareQueries (?e :: evs)) with (ProjectID ld :: linkShareQueries evs).
    change (foundLinkShares (?e :: evs)) with (l ++ foundLinkShares evs).
    rewrite Hq, Hf, app_nil_r. split; [done|]. intros _ _. split; [done|].
    exists s. by rewrite H.
Qed.

Lemma copyContents_link_shares_queried ld doer :
  emits (copyContents c ld doer)
    (phaseDone (λ _, True) (linkSharesQueried c (ProjectID ld))).
Proof.
  apply (copyContents_rights_phase c isLinkShareEvent);
    [done | apply linkSharesQueried_local | done | |].
  { unfold isRightsEvent. intros e H.
    destruct (isProjectUserEvent e), (isTeamProjectEvent e); done. }
  unfold copyRightsAndShares.
  apply (phaseDone_before isLinkShareEvent);
    [done | apply linkSharesQueried_local | done | unfold_program; allEv_auto; done |].
  intros _.
  apply (phaseDone_before isLinkShareEvent);
    [done | apply linkSharesQueried_local | done | unfold_program; allEv_auto; done |].
  intros _. apply copyLinkShares_queried.
Qed.

(** C6. When [Create] succeeds: it has queried the link shares of the
    source project, once, and the shares found are the rows the store
    answered that query with; it has inserted as many link shares as were
    found, and has asked the generator for one string of 40 characters per
    share: the i-th share inserted is the i-th share found with identity
    zero, the destination project and the i-th generated string as its
    secret.  Hence the secrets have 40 characters if the generator returns
    strings of the length it is asked for, and, for a generator of fresh
    secrets, no inserted share has the secret of the share it copies. *)
Theorem Create_regenerates_link_shares ld doer st ld' st' :
  Create c ld doer st = ((ld', Ok tt), st') →
  ∃ evs, log st' = log st ++ evs ∧
    linkShareQueries evs = [ProjectID ld]
    ∧ (∃ s, (FindLinkShares c (ProjectID ld) s).1 = (foundLinkShares evs, None))
    ∧ length (insertedLinkShares evs) = length (foundLinkShares evs)
    ∧ length (randomStrings evs) = length (foundLinkShares evs)
    ∧ Forall (λ nr, nr.1 = 40 ∧ ∃ s, nr.2 = (MakeRandomString c 40 s).1)
             (randomStrings evs)
    ∧ insertedLinkShares evs
      = zip_with (λ sh secret,
                    {| LinkSharing_ID := 0;
                       LinkSharing_ProjectID := Project_ID (TheProject ld');
                       LinkSharing_Hash := secret;
                       LinkSharing_Rest := LinkSharing_Rest sh |})
                 (foundLinkShares evs) (randomStrings evs).*2
    ∧ ((∀ n s, String.length (MakeRandomString c n s).1 = Z.to_nat n) →
         Forall (λ sh, String.length (LinkSharing_Hash sh) = 40%nat)
                (insertedLinkShares evs))
    ∧ (FreshSecrets c →
         Forall2 (λ src new, LinkSharing_Hash new ≠ LinkSharing_Hash src)
                 (foundLinkShares evs) (insertedLinkShares evs)).
Proof.
  intros Hrun.
  destruct (Create_link_shares_copied c ld doer st ld' st' Hrun) as (evs & Hlog & Hcopied).
  destruct (Create_phase_ok c isLinkShareEvent (λ _ _, True)
              (λ ld1, linkSharesQueried c (ProjectID ld1)) ld doer st ld' st')
    as (evs' & Hlog' & Hq & Hs); try done.
  { intros ld1. apply linkSharesQueried_local. }
  { intros ld1. apply copyContents_link_shares_queried. }
  rewrite Hlog in Hlog'. apply app_inv_head in Hlog' as <-.
  pose proof (Create_keeps_source c ld doer st) as Hsrc. rewrite Hrun in Hsrc. simpl in Hsrc.
  rewrite Hsrc in Hq, Hs.
  exists evs. split; [done|]. split; [exact Hq|]. split; [exact Hs | exact Hcopied].
Qed.

End SharesQueried.

Lemma Create_regenerates_link_shares_demo :
  ∃ evs,
    log (Create (scripted demoUnsplash) demoRequest demoDoer demoStart).2
    = log demoStart ++ evs
    ∧ linkShareQueries evs = [1]
    ∧ LinkSharing_ID <$> foundLinkShares evs = [95]
    ∧ (λ sh, (LinkSharing_ID sh, LinkSharing_ProjectID sh, String.length (LinkSharing_Hash sh)))
        <$> insertedLinkShares evs = [(0, 1000, 40%nat)]
    ∧ Forall2 (λ src new, LinkSharing_Hash new ≠ LinkSharing_Hash src)
              (foundLinkShares evs) (insertedLinkShares evs).
Proof.
  destruct (Create_regenerates_link_shares (scripted demoUnsplash) demoRequest demoDoer
              demoStart
              (Create (scripted demoUnsplash) demoRequest demoDoer demoStart).1.1
              (Create (scripted demoUnsplash) demoRequest demoDoer demoStart).2)
    as (evs & Hlog & Hq & _ & _ & _ & _ & _ & _ & Hfresh).
  - vm_compute. reflexivity.
  - exists evs. split; [exact Hlog|]. split; [exact Hq|].
    assert (Hevs : evs = log (Create (scripted demoUnsplash) demoRequest demoDoer
                                demoStart).2).
    { rewrite Hlog. reflexivity. }
    split; [rewrite Hevs; vm_compute; reflexivity|].
    split; [rewrite Hevs; vm_compute; reflexivity|].
    exact (Hfresh scripted_fresh_secrets).
Defined.

(** ** The call a failing run ends on *)

Section EndsOn.
Context {S : Type} (c : Collab S).
Implicit Types (st : St S) (evs : list Event) (ld : ProjectDuplicate) (doer : Auth).

Lemma endsOn_prefix F P {A} evs1 (r : Res A) evs2 :
  endsOn F P r evs2 → endsOn F P r (evs1 ++ evs2).
Proof.
  intros H e Hr. destruct (H e Hr) as (pre & ev & post & -> & He & HF & HP).
  exists (evs1 ++ pre), ev, post. by rewrite <- app_assoc.
Qed.

Lemma endsOn_cons F P {A} ev (r : Res A) evs :
  endsOn F P r evs → endsOn F P r (ev :: evs).
Proof. apply (endsOn_prefix F P [ev]). Qed.

Lemma endsOn_last F (P : list Event → Prop) {A} ev e :
  errorOf ev = Some e → F ev e → P [] → endsOn F P (@Fail A e) [ev].
Proof. intros He HF HP e' [= <-]. by exists [], ev, []. Qed.

Lemma endsOn_mono (F F' : Event → Err → Prop) (P P' : list Event → Prop) {A}
    (r : Res A) evs :
  (∀ ev e, F ev e → F' ev e) → (∀ post, P post → P' post) →
  endsOn F P r evs → endsOn F' P' r evs.
Proof.
  intros HF HP H e Hr. destruct (H e Hr) as (pre & ev & post & -> & He & HFe & HPp).
  exists pre, ev, post. auto.
Qed.

Lemma endsOn_bind F P {A B} (m : M S A) (k : A → M S B) :
  emits m (endsOn F P) → (∀ a, emits (k a) (endsOn F P)) → emits (m ≫= k) (endsOn F P).
Proof.
  intros Hm Hk. eapply emits_bind; [exact Hm|..].
  - intros a evs1 _. eapply emits_mono; [apply Hk|]. simpl.
    intros r evs2. apply endsOn_prefix.
  - intros e evs H e' [= <-]. by apply H.
  - by intros evs _ e [=].
Qed.

Lemma endsOn_forM F P {A} (xs : list A) (body : A → M S unit) :
  (∀ x, emits (body x) (endsOn F P)) → emits (forM_ xs body) (endsOn F P).
Proof.
  intros Hb. induction xs as [|x xs IH]; simpl.
  - apply emits_ret. by intros e [=].
  - apply endsOn_bind; [apply Hb | intros _; apply IH].
Qed.

Lemma endsOn_foldM F P {A B} (body : B → A → M S B) (xs : list A) : ∀ acc,
  (∀ b x, emits (body b x) (endsOn F P)) → emits (foldM body acc xs) (endsOn F P).
Proof.
  induction xs as [|x xs IH]; intros acc Hb; simpl.
  - apply emits_ret. by intros e [=].
  - apply endsOn_bind; [apply Hb | intros b; by apply IH].
Qed.

End EndsOn.

(** Closes [endsOn fatal P r evs] for an explicit trace [evs]. *)
Ltac ends_leaf :=
  simpl;
  first
    [ by intros ? [=]
    | repeat first
        [ apply endsOn_last;
          [ reflexivity
          | unfold fatal; simpl;
            first [ done | match goal with H' : _ = _ |- _ => by rewrite H' end ]
          | done ]
        | apply endsOn_cons ] ].

Ltac ends_prefix := repeat apply endsOn_cons; assumption.

Ltac ends_loop :=
  lazymatch goal with
  | |- emits ?m ?Q =>
      lazymatch Q with
      | context [endsOn ?F ?P] =>
          lazymatch m with
          | forM_ _ _ =>
              eapply emits_mono;
              [ apply (endsOn_forM F P); intros ? | simpl; intros ? ? ?; ends_prefix ]
          | foldM _ _ _ =>
              eapply emits_mono;
              [ apply (endsOn_foldM F P); intros ? ? | simpl; intros ? ? ?; ends_prefix ]
          | mbind _ (forM_ _ _) =>
              eapply emits_mono;
              [ apply (endsOn_bind F P); [apply (endsOn_forM F P); intros ? | intros ?]
              | simpl; intros ? ? ?; ends_prefix ]
          | mbind _ (foldM _ _ _) =>
              eapply emits_mono;
              [ apply (endsOn_bind F P); [apply (endsOn_foldM F P); intros ? ? | intros ?]
              | simpl; intros ? ? ?; ends_prefix ]
          end
      end
  end.

Ltac ends_go := repeat (emits_go; try ends_loop; simpl); try ends_leaf.

Section EndsOfDuplication.
Context {S : Type} (c : Collab S).
Implicit Types (st : St S) (evs : list Event) (ld : ProjectDuplicate) (doer : Auth).

Lemma createTasks_endsOn ld doer bm tasks :
  emits (createTasks c ld doer bm tasks) (endsOn fatal (λ post, post = [])).
Proof. unfold createTasks, copyTask. ends_go. Qed.

Lemma copyAttachments_endsOn doer tm ids :
  emits (copyAttachments c doer tm ids) (endsOn fatal (λ post, post = [])).
Proof. unfold copyAttachments, copyAttachment. ends_go. Qed.

Lemma copyLabelTasks_endsOn tm ids : emits (copyLabelTasks c tm ids) (endsOn fatal (λ post, post = [])).
Proof. unfold copyLabelTasks, copyLabelTask. ends_go. Qed.

Lemma copyAssignees_endsOn ld doer tm ids :
  emits (copyAssignees c ld doer tm ids) (endsOn fatal (λ post, post = [])).
Proof. unfold copyAssignees, copyAssignee. ends_go. Qed.

Lemma copyComments_endsOn tm ids : emits (copyComments c tm ids) (endsOn fatal (λ post, post = [])).
Proof. unfold copyComments, copyComment. ends_go. Qed.

Lemma copyRelations_endsOn tm ids : emits (copyRelations c tm ids) (endsOn fatal (λ post, post = [])).
Proof. unfold copyRelations, copyRelation. ends_go. Qed.

Lemma duplicateTasks_endsOn doer ld bm :
  emits (duplicateTasks c doer ld bm) (endsOn fatal (λ post, post = [])).
Proof.
  unfold duplicateTasks. emits_go; try ends_leaf.
  eapply emits_mono with (Q := (endsOn fatal (λ post, post = []))); [|simpl; intros ? ? ?; ends_prefix].
  apply endsOn_bind; [apply createTasks_endsOn|]. intros [tm ids].
  unfold copyTaskDetails.
  apply endsOn_bind; [apply copyAttachments_endsOn | intros _].
  apply endsOn_bind; [apply copyLabelTasks_endsOn | intros _].
  apply endsOn_bind; [apply copyAssignees_endsOn | intros _].
  apply endsOn_bind; [apply copyComments_endsOn | intros _].
  apply copyRelations_endsOn.
Qed.

End EndsOfDuplication.

(** ** C5: the attachments that are skipped *)

Section Attachments.
Context {S : Type} (c : Collab S).
Implicit Types (st : St S) (evs : list Event) (ld : ProjectDuplicate) (doer : Auth).

Lemma copyAttachments_queried doer tm ids :
  emits (copyAttachments c doer tm ids)
    (phaseDone (λ evs, attachmentQueries evs `prefix_of` [ids]) (attachmentsQueried c ids)).
Proof.
  unfold copyAttachments. emits_go.
  - split; [done|]. done.
  - eapply emits_mono; [apply copyAttachments_loop|]. simpl.
    intros r evs (Hall & _ & _).
    assert (Hq : attachmentQueries evs = []).
    { eapply omap_ignored; [exact Hall|]. by intros []. }
    assert (Hf : listedAttachments evs = []).
    { eapply bind_ignored; [exact Hall|]. by intros []. }
    unfold phaseDone, attachmentsQueried.
    change (attachmentQueries (?e :: evs)) with (ids :: attachmentQueries evs).
    change (listedAttachments (?e :: evs)) with (l ++ listedAttachments evs).
    rewrite Hq, Hf, app_nil_r. split; [done|]. intros _ _. split; [done|].
    exists s. by rewrite H.
Qed.

Lemma duplicateTasks_attachments_queried doer ld bm :
  emits (duplicateTasks c doer ld bm) (λ r evs,
    let ids := Task_ID <$> listedTasks evs in
    attachmentQueries evs `prefix_of` [ids]
    ∧ (r = Ok tt → if decide (ids = []) then attachmentQueries evs = []
                   else attachmentsQueried c ids evs)).
Proof.
  assert (Hany : ∀ ids, localTo isAttachmentEvent
                          (λ evs, attachmentQueries evs `prefix_of` [ids])).
  { intros ids. unfold attachmentQueries. local_tac isAttachmentEvent. }
  assert (Hnone : localTo isAttachmentEvent (λ evs, attachmentQueries evs = [])).
  { unfold attachmentQueries. local_tac isAttachmentEvent. }
  assert (Hok : ∀ ids, localTo isAttachmentEvent
            (λ evs, if decide (ids = []) then attachmentQueries evs = []
                    else attachmentsQueried c ids evs)).
  { intros ids. destruct (decide (ids = [])); [exact Hnone | apply attachmentsQueried_local]. }
  eapply emits_mono.
  { apply (duplicateTasks_phase c isAttachmentEvent
             (λ _ ids evs, attachmentQueries evs `prefix_of` [ids])
             (λ _ ids evs, if decide (ids = []) then attachmentQueries evs = []
                           else attachmentsQueried c ids evs) doer ld bm);
      [by intros [] | intros _; apply Hany | intros _; apply Hok
      | intros _ ids; apply prefix_nil | done |].
    intros tm ids Hids. cbv beta. destruct (decide (ids = [])) as [?|_]; [done|].
    unfold copyTaskDetails.
    apply (phaseDone_after isAttachmentEvent _ _ _ _ (Hany ids) (attachmentsQueried_local c ids));
      [apply copyAttachments_queried|].
    intros _. unfold_program. allEv_auto; done. }
  simpl. intros r evs [H1 H2]. split; [done|]. intros ->. by eapply H2.
Qed.

Lemma copyContents_endsOn ld doer :
  emits (copyContents c ld doer)
    (endsOn (fatalOrBackground (Project_BackgroundFileID (TheProject ld)))
            (Forall isClose)).
Proof.
  set (bg := Project_BackgroundFileID (TheProject ld)).
  assert (Hweak : ∀ {A} (m : M S A),
            emits m (endsOn fatal (λ post, post = [])) →
            emits m (endsOn (fatalOrBackground bg) (Forall isClose))).
  { intros A m H. eapply emits_mono; [exact H|]. simpl. intros r evs.
    apply endsOn_mono; [by left | by intros post ->]. }
  assert (Hshares : emits (copyRightsAndShares c ld) (endsOn fatal (λ post, post = []))).
  { unfold copyRightsAndShares.
    apply endsOn_bind; [|intros _; apply endsOn_bind; [|intros _]].
    - unfold copyProjectUsers. ends_go.
    - unfold copyTeamProjects. ends_go.
    - unfold copyLinkShares, copyLinkShare. ends_go. }
  unfold copyContents.
  apply endsOn_bind; [apply Hweak; unfold copyBuckets, copyBucket; ends_go | intros bm].
  apply endsOn_bind; [apply Hweak, duplicateTasks_endsOn | intros _].
  unfold copyBackgroundAndShares. fold bg.
  destruct (decide (bg = 0)); [by apply Hweak|].
  emits_go.
  - intros e' [= <-]. eexists [], _, []. split; [done|]. split; [done|].
    split; [right; eauto | done].
  - intros e' [= <-]. eexists [_], _, []. split; [done|]. split; [done|].
    split; [by left | done].
  - eapply emits_mono with (Q := endsOn (fatalOrBackground bg) (Forall isClose));
      [|simpl; intros ? ? ?; ends_prefix].
    eapply emits_finally with (Q1 := endsOn fatal (λ post, post = []))
                              (P := Forall isClose).
    + apply endsOn_bind; [unfold copyBackgroundFile; ends_go | intros _; exact Hshares].
    + emits_go. apply Forall_singleton. by eexists _, _.
    + intros r evs1 evs2 H1 H2 e Hr.
      destruct (H1 e Hr) as (pre & ev & post & -> & He & HF & ->).
      exists pre, ev, evs2. rewrite <- app_assoc. split; [done|]. split; [done|].
      split; [by left | done].
  - by intros e [=].
Qed.

(** C5. In every run of [duplicateTasks].  When it succeeds, the
    attachments were queried once, for the identities of the listed tasks
    (not at all when no task was listed), the attachments listed are the
    rows the store answered with, and the file calls made are those of a
    pass over all of them in which an attachment whose task is not in the
    task map makes no call, one whose file metadata is reported not to exist
    makes the metadata load only, and every other one is loaded and copied.
    A metadata load that fails otherwise, or a content load that fails, ends
    the function with that error.  And the function returns an error only
    when its last call returned that error and the code does not go on after
    it: never on a metadata load that reports "does not exist", so that a
    run whose calls return no other error than those succeeds or panics.
    For [Create]: such a load ends it with that error, and when it returns
    an error, that is the error of its last call, the deferred [Close] apart,
    and not that of a metadata load reporting "does not exist", unless the
    file is the background file. *)
Theorem attachments_skipped_or_fatal doer ld :
  (∀ (bucketMap : gmap Z Z) st r st',
     duplicateTasks c doer ld bucketMap st = (r, st') →
     ∃ evs, log st' = log st ++ evs
       ∧ (r = Ok tt →
            let ids := Task_ID <$> listedTasks evs in
            (if decide (ids = []) then attachmentQueries evs = []
             else attachmentQueries evs = [ids]
                  ∧ ∃ s, (getTaskAttachmentsByTaskIDs c ids s).1
                         = (listedAttachments evs, None))
            ∧ AttachmentsTrace doer (taskMapOf evs) (listedAttachments evs) (fileEvents evs))
       ∧ (∀ e ev, ev ∈ evs → fatalLoad e ev → r = Fail e)
       ∧ (∀ e, r = Fail e →
            ∃ pre ev, evs = pre ++ [ev] ∧ errorOf ev = Some e ∧ swallowed ev e = false)
       ∧ ((∀ ev e, ev ∈ evs → errorOf ev = Some e → swallowed ev e = true) →
            ∀ e, r ≠ Fail e))
  ∧ (∀ st, ∃ evs, log (Create c ld doer st).2 = log st ++ evs
       ∧ (∀ e ev, ev ∈ evs → fatalLoad e ev → (Create c ld doer st).1.2 = Fail e)
       ∧ (∀ e, (Create c ld doer st).1.2 = Fail e →
            ∃ pre ev post, evs = pre ++ ev :: post
              ∧ errorOf ev = Some e
              ∧ Forall (λ ev', ∃ h res, ev' = EvClose h res) post
              ∧ (swallowed ev e = false
                 ∨ ∃ res, ev = EvLoadFileMeta
                                 (File_withID (Project_BackgroundFileID
                                                 (TheProject (Create c ld doer st).1.1)))
                                 res))).
Proof.
  split.
  - intros bucketMap st r st' Hrun.
    destruct (proj1 (attachments_copied_or_fatal c doer ld) bucketMap st r st' Hrun)
      as (evs & Hlog & Hok & Hfat).
    destruct (duplicateTasks_attachments_queried doer ld bucketMap _ _ _ Hrun)
      as (evs1 & Hlog1 & _ & Hq).
    destruct (duplicateTasks_endsOn c doer ld bucketMap _ _ _ Hrun) as (evs2 & Hlog2 & Hend).
    rewrite Hlog in Hlog1, Hlog2.
    apply app_inv_head in Hlog1 as <-. apply app_inv_head in Hlog2 as <-.
    assert (Hlast : ∀ e, r = Fail e →
              ∃ pre ev, evs = pre ++ [ev] ∧ errorOf ev = Some e ∧ swallowed ev e = false).
    { intros e Hr. destruct (Hend e Hr) as (pre & ev & post & -> & He & HF & ->). eauto. }
    exists evs. split; [done|]. split; [|split; [exact Hfat|split; [exact Hlast|]]].
    + intros Hr. simpl. split; [by apply Hq | by apply Hok].
    + intros Hall e Hr. destruct (Hlast e Hr) as (pre & ev & -> & He & Hsw).
      rewrite (Hall ev e) in Hsw; [done| |done]. apply elem_of_app. right. by left.
  - intros st.
    destruct (proj2 (attachments_copied_or_fatal c doer ld) st) as (evs & Hlog & Hfat).
    exists evs. split; [done|]. split; [exact Hfat|].
    destruct (Create_run c ld doer st) as (p1 & err & s1 & Ecp & Hrun). simpl in Hrun.
    set (p0 := Project_set_OwnerID _ _) in *.
    set (st1 := {| sess := s1; log := _ |}) in *.
    assert (Hgo : ∀ ld1, Create c ld doer st
                  = ((ld1, (copyContents c ld1 doer st1).1), (copyContents c ld1 doer st1).2) →
              ∀ e, (Create c ld doer st).1.2 = Fail e →
                ∃ pre ev post, evs = pre ++ ev :: post
                  ∧ errorOf ev = Some e
                  ∧ Forall (λ ev', ∃ h res, ev' = EvClose h res) post
                  ∧ (swallowed ev e = false
                     ∨ ∃ res, ev = EvLoadFileMeta
                                     (File_withID (Project_BackgroundFileID
                                                     (TheProject (Create c ld doer st).1.1)))
                                     res)).
    { intros ld1 Hc e. rewrite Hc in Hlog |- *. simpl in *.
      destruct (copyContents c ld1 doer st1) as [r st2] eqn:Ecc. simpl in *. intros ->.
      destruct (copyContents_endsOn ld1 doer _ _ _ Ecc) as (evs' & Hlog' & Hend).
      destruct (Hend e eq_refl) as (pre & ev & post & -> & He & HF & Hpost).
      exists (EvCreateProject p0 doer (p1, err) :: pre), ev, post.
      split; [|by eauto].
      rewrite Hlog' in Hlog. simpl in Hlog. rewrite <- app_assoc in Hlog.
      by apply app_inv_head in Hlog as <-. }
    destruct err as [e0|]; [destruct (IsErrProjectIdentifierIsNotUnique e0) eqn:Ee|].
    + exact (Hgo _ Hrun).
    + rewrite Hrun in Hlog |- *. simpl in *. intros e [= <-].
      exists [], (EvCreateProject p0 doer (p1, Some e0)), [].
      apply app_inv_head in Hlog as <-. split; [done|]. split; [done|].
      split; [done|]. left. simpl. done.
    + exact (Hgo _ Hrun).
Qed.

End Attachments.

(** The second attachment of project 1 has lost its file. *)
Lemma attachments_skipped_or_fatal_demo :
  let run := duplicateTasks (scripted demo) demoDoer demoRequest demoBucketMap demoStart in
  run.1 = Ok tt
  ∧ ∃ evs, log run.2 = log demoStart ++ evs
      ∧ attachmentQueries evs = [[21; 22; 23]]
      ∧ TaskAttachment_FileID <$> listedAttachments evs = [41; 42]
      ∧ omap errorOf evs = [ErrFileDoesNotExist]
      ∧ copiedFiles evs = [41]
      ∧ AttachmentsTrace demoDoer (taskMapOf evs) (listedAttachments evs) (fileEvents evs).
Proof.
  simpl. split; [vm_compute; reflexivity|].
  destruct (proj1 (attachments_skipped_or_fatal (scripted demo) demoDoer demoRequest)
              demoBucketMap demoStart (Ok tt)
              (duplicateTasks (scripted demo) demoDoer demoRequest demoBucketMap
                 demoStart).2) as (evs & Hlog & Hok & _).
  - vm_compute. reflexivity.
  - destruct (Hok eq_refl) as [_ Htrace].
    exists evs. split; [exact Hlog|].
    assert (Hevs : evs = log (duplicateTasks (scripted demo) demoDoer demoRequest
                                demoBucketMap demoStart).2).
    { rewrite Hlog. reflexivity. }
    split; [rewrite Hevs; vm_compute; reflexivity|].
    split; [rewrite Hevs; vm_compute; reflexivity|].
    split; [rewrite Hevs; vm_compute; reflexivity|].
    split; [rewrite Hevs; vm_compute; reflexivity|].
    exact Htrace.
Defined.

(** ** C4: the identifier collision *)

Section Collision.
Context {S : Type} (c : Collab S).
Implicit Types (st : St S) (evs : list Event) (ld : ProjectDuplicate) (doer : Auth).

(** For every store: after an identifier collision [Create] does not call
    [CreateProject] again.  It goes on with the project as the failed call
    left it, the identifier cleared, and returns what the rest of the
    duplication returns. *)
Lemma Create_collision_not_retried ld doer st p1 e s1 :
  let p0 := Project_set_OwnerID (GetID doer)
              (Project_set_Identifier "" (Project_set_ID 0 (TheProject ld))) in
  CreateProject c p0 doer (sess st) = ((p1, Some e), s1) →
  IsErrProjectIdentifierIsNotUnique e = true →
  let ld1 := set_TheProject (Project_set_Identifier "" p1) ld in
  let st1 := {| sess := s1; log := log st ++ [EvCreateProject p0 doer (p1, Some e)] |} in
  ∃ rest,
    log (Create c ld doer st).2 = log st ++ EvCreateProject p0 doer (p1, Some e) :: rest
    ∧ createProjectErrors rest = []
    ∧ (Create c ld doer st).1.1 = ld1
    ∧ (Create c ld doer st).1.2 = (copyContents c ld1 doer st1).1.
Proof.
  simpl. intros Ecp He.
  destruct (Create_run c ld doer st) as (p1' & err & s1' & Ecp' & Hrun).
  simpl in *. rewrite Ecp in Ecp'. injection Ecp' as <- <- <-. rewrite He in Hrun.
  rewrite Hrun. simpl.
  set (ld1 := set_TheProject _ ld). set (st1 := {| sess := s1; log := _ |}).
  destruct (copyContents c ld1 doer st1) as [r st2] eqn:Ecc.
  assert (H : allEv (λ ev, ∀ q a r', ev ≠ EvCreateProject q a r') (copyContents c ld1 doer)).
  { unfold_program. allEv_auto; done. }
  destruct (H _ _ _ Ecc) as (rest & Hlog & Hall).
  exists rest. simpl. split; [by rewrite Hlog; simpl; rewrite <- app_assoc|].
  split; [|done]. eapply omap_ignored; [exact Hall|].
  intros [] Hev; try done. by destruct (Hev p a r0).
Qed.

(** Every other error of [CreateProject] ends [Create] at once, with that
    error and nothing else called. *)
Lemma Create_aborts_on_other_errors ld doer st p1 e s1 :
  let p0 := Project_set_OwnerID (GetID doer)
              (Project_set_Identifier "" (Project_set_ID 0 (TheProject ld))) in
  CreateProject c p0 doer (sess st) = ((p1, Some e), s1) →
  IsErrProjectIdentifierIsNotUnique e = false →
  Create c ld doer st
  = ((set_TheProject p1 ld, Fail e),
     {| sess := s1; log := log st ++ [EvCreateProject p0 doer (p1, Some e)] |}).
Proof.
  simpl. intros Ecp He.
  destruct (Create_run c ld doer st) as (p1' & err & s1' & Ecp' & Hrun).
  simpl in *. rewrite Ecp in Ecp'. injection Ecp' as <- <- <-. by rewrite He in Hrun.
Qed.

End Collision.

(** C4. [CreateProject] reports an identifier collision and creates
    nothing.  [Create] does not return the error and duplicates to the end:
    it returns nil.  But no project was created: the one call of
    [CreateProject] is the call that failed, the project of the receiver has
    identity zero, and the buckets, the tasks, the rights and the link share
    were all created for project zero. *)
Theorem Create_collision_creates_no_project :
  let run := Create (scripted (withCreateProjectErr (Some ErrProjectIdentifierIsNotUnique)
                                 demoUnsplash))
               demoRequest demoDoer demoStart in
  run.1.2 = Ok tt
  ∧ createProjectErrors (log run.2) = [Some ErrProjectIdentifierIsNotUnique]
  ∧ Project_ID (TheProject run.1.1) = 0
  ∧ Project_Identifier (TheProject run.1.1) = ""
  ∧ Bucket_ProjectID <$> createdBuckets (log run.2) = [0; 0]
  ∧ Task_ProjectID <$> createdTasks (log run.2) = [0; 0; 0]
  ∧ ProjectUser_ProjectID <$> insertedProjectUsers (log run.2) = [0]
  ∧ TeamProject_ProjectID <$> insertedTeamProjects (log run.2) = [0]
  ∧ LinkSharing_ProjectID <$> insertedLinkShares (log run.2) = [0].
Proof. repeat split; vm_compute; reflexivity. Qed.

(** * Properties of the rights *)

(** The valid rights are the three of the enumeration, which are the
    numbers from [RightRead] to [RightAdmin] in the order read, write, admin;
    every other number, [RightUnknown] among them, is refused with an error
    that carries the number. *)
Theorem Right_isValid_range (r : Right) :
  (Right_isValid r = None ↔ RightRead ≤ r ≤ RightAdmin)
  ∧ (Right_isValid r = None ∨ Right_isValid r = Some (ErrInvalidRight r))
  ∧ RightRead < RightWrite < RightAdmin
  ∧ Right_isValid RightUnknown = Some (ErrInvalidRight RightUnknown).
Proof.
  unfold Right_isValid, RightRead, RightWrite, RightAdmin, RightUnknown.
  destruct (Z.eqb_spec r 2), (Z.eqb_spec r 0), (Z.eqb_spec r 1); simpl;
    repeat split; try done; try lia; auto.
Qed.

(** * Properties of the task list *)

(** ** The pages that get an entry *)

Lemma filter_ext_in {A} (P1 P2 : A → Prop)
    `{!∀ x, Decision (P1 x), !∀ x, Decision (P2 x)} (l : list A) :
  (∀ x, x ∈ l → P1 x ↔ P2 x) → filter P1 l = filter P2 l.
Proof.
  induction l as [|a l IH]; intros HP; [done|].
  assert (Ha : P1 a ↔ P2 a) by (apply HP; left).
  assert (Hl : filter P1 l = filter P2 l) by (apply IH; intros x Hx; apply HP; by right).
  destruct (decide (P1 a)).
  - rewrite !filter_cons_True by tauto. by rewrite Hl.
  - rewrite !filter_cons_False by tauto. done.
Qed.

Section Pages.
Context (totalPages currentPage : Z).

Lemma isHiddenPage_shown i :
  0 ≤ i → isHiddenPage totalPages currentPage i
          = negb (isShownPage totalPages currentPage (i + 1)).
Proof.
  intros Hi. unfold isHiddenPage, isShownPage.
  repeat match goal with
         | |- context [?a <? ?b] => destruct (Z.ltb_spec a b)
         | |- context [?a <=? ?b] => destruct (Z.leb_spec a b)
         end; simpl; try reflexivity; lia.
Qed.

(** The loop up to round [k]. *)
Lemma buildPages_numbers_upto (k : nat) :
  pageNumbers (foldl (pageStep totalPages currentPage) [] (seqZ 0 (Z.of_nat k)))
  = filter (λ n, isShownPage totalPages currentPage n = true) (seqZ 1 (Z.of_nat k)).
Proof.
  induction k as [|k IH]; [done|].
  rewrite !seqZ_S, foldl_app, filter_app. simpl foldl.
  set (ps := foldl (pageStep totalPages currentPage) [] (seqZ 0 (Z.of_nat k))) in *.
  unfold pageStep at 1. rewrite isHiddenPage_shown by lia.
  replace (0 + Z.of_nat k + 1) with (1 + Z.of_nat k) by lia.
  rewrite Z.add_0_l.
  replace (Z.of_nat k + 1) with (1 + Z.of_nat k) by lia.
  destruct (isShownPage totalPages currentPage (1 + Z.of_nat k)) eqn:E; simpl.
  - unfold pageNumbers in *. rewrite filter_app, fmap_app, IH.
    rewrite (filter_cons_True _ (1 + Z.of_nat k)) by done.
    by rewrite filter_cons_True.
  - rewrite (filter_cons_False _ (1 + Z.of_nat k)) by congruence.
    rewrite filter_nil, app_nil_r, <- IH.
    destruct (ps !! Z.to_nat (Z.of_nat k - 1)) as [p|]; [|done].
    destruct (isEllipsis p); simpl; [done|].
    unfold pageNumbers. rewrite filter_app, fmap_app.
    rewrite filter_cons_False by done. by rewrite filter_nil, app_nil_r.
Qed.

End Pages.

(** The pages that get an entry, in every list view: the entries that
    are no ellipsis carry, in ascending order and once each, the numbers of
    the first page, the last page, the current page and its two neighbours,
    as far as these are pages. *)
Theorem buildPages_numbers totalPages currentPage :
  pageNumbers (buildPages totalPages currentPage)
  = filter (λ n, n = 1 ∨ n = totalPages ∨ currentPage - 1 ≤ n ≤ currentPage + 1)
           (seqZ 1 totalPages).
Proof.
  unfold buildPages.
  destruct (Z.le_gt_cases 0 totalPages) as [Hn|Hn].
  - pose proof (buildPages_numbers_upto totalPages currentPage (Z.to_nat totalPages)) as H.
    rewrite Z2Nat.id in H by done. rewrite H.
    apply filter_ext_in. intros n Hin.
    apply elem_of_seqZ in Hin. unfold isShownPage.
    repeat match goal with
           | |- context [?a <=? ?b] => destruct (Z.leb_spec a b)
           end; simpl; split; intros; try done; lia.
  - rewrite !seqZ_nil by lia. done.
Qed.

(** ** The shape of the pagination *)

Section PageShape.
Context (totalPages currentPage : Z).

Lemma noTwoEllipses_snoc ps x :
  noTwoEllipses (ps ++ [x])
  = noTwoEllipses ps
    && negb (match last ps with Some p => isEllipsis p | None => false end && isEllipsis x).
Proof.
  induction ps as [|p ps IH]; [done|].
  destruct ps as [|q ps].
  - simpl. by rewrite andb_true_r.
  - change (noTwoEllipses ((p :: q :: ps) ++ [x]))
      with (negb (isEllipsis p && isEllipsis q) && noTwoEllipses ((q :: ps) ++ [x])).
    rewrite IH. simpl. by rewrite andb_assoc.
Qed.

Lemma noTwoEllipses_lookup ps j p q :
  noTwoEllipses ps = true → ps !! j = Some p → ps !! S j = Some q →
  isEllipsis p = true → isEllipsis q = false.
Proof.
  revert j. induction ps as [|a ps IH]; intros j Hn Hp Hq Hep; [done|].
  destruct ps as [|b ps]; [by destruct j|].
  simpl in Hn. apply andb_true_iff in Hn as [Hab Hn].
  destruct j as [|j].
  - simpl in *. simplify_eq. rewrite Hep in Hab. by destruct (isEllipsis q).
  - by apply (IH j).
Qed.

Lemma pageStep_length ps i :
  (length (pageStep totalPages currentPage ps i) ≤ S (length ps))%nat.
Proof.
  unfold pageStep. destruct (isHiddenPage _ _ _).
  - destruct (ps !! _) as [p|]; [|lia]. destruct (negb _); [|lia].
    rewrite length_app. simpl. lia.
  - rewrite length_app. simpl. lia.
Qed.

(** The invariant of the loop after [k] rounds. *)
Lemma buildPages_upto (k : nat) :
  let ps := foldl (pageStep totalPages currentPage) [] (seqZ 0 (Z.of_nat k)) in
  (length ps ≤ k)%nat
  ∧ (k ≠ 0%nat → ps !! 0%nat = Some (pageLink 1))
  ∧ noTwoEllipses ps = true
  ∧ Forall (λ p, isEllipsis p = true → number p = 0) ps.
Proof.
  induction k as [|k IH]; simpl; [by repeat split|].
  rewrite seqZ_S, foldl_app. simpl foldl. rewrite Z.add_0_l.
  set (ps := foldl _ [] (seqZ 0 (Z.of_nat k))) in *. simpl in IH.
  destruct IH as (Hlen & Hhead & Hno & Hnum).
  split; [|split; [|split]].
  - pose proof (pageStep_length ps (Z.of_nat k)). lia.
  - intros _. unfold pageStep.
    destruct k as [|k].
    + subst ps. simpl. unfold isHiddenPage. simpl. done.
    + specialize (Hhead ltac:(done)).
      assert (Happ : ∀ x, (ps ++ [x]) !! 0%nat = Some (pageLink 1)).
      { intros x. by rewrite lookup_app_l by (apply lookup_lt_Some in Hhead; lia). }
      destruct (isHiddenPage _ _ _); [|apply Happ].
      destruct (ps !! Z.to_nat _) as [p|]; [|done]. destruct (negb _); [apply Happ|done].
  - unfold pageStep. destruct (isHiddenPage _ _ _).
    + destruct (ps !! Z.to_nat _) as [p|] eqn:Ep; [|done].
      destruct (isEllipsis p) eqn:Eell; simpl; [done|].
      rewrite noTwoEllipses_snoc, Hno. simpl.
      assert (Hk : length ps = Z.to_nat (Z.of_nat k - 1 + 1)).
      { apply lookup_lt_Some in Ep. lia. }
      assert (Hlast : last ps = Some p).
      { rewrite last_lookup. rewrite <- Ep. f_equal. lia. }
      rewrite Hlast, Eell. done.
    + rewrite noTwoEllipses_snoc, Hno. simpl. by rewrite andb_false_r.
  - unfold pageStep. destruct (isHiddenPage _ _ _).
    + destruct (ps !! Z.to_nat _) as [p|]; [|done]. destruct (negb _); [|done].
      apply Forall_app. split; [done|]. by apply Forall_singleton.
    + apply Forall_app. split; [done|]. by apply Forall_singleton.
Qed.

End PageShape.

(** The shape of the pagination, whenever there is a page: it begins
    with the entry of page 1 and ends with the entry of the last page, it is
    no longer than the number of pages, an ellipsis has number 0, and no
    ellipsis follows an ellipsis. *)
Theorem buildPages_shape totalPages currentPage :
  0 < totalPages →
  let ps := buildPages totalPages currentPage in
  head ps = Some {| number := 1; isEllipsis := false |}
  ∧ last ps = Some {| number := totalPages; isEllipsis := false |}
  ∧ Z.of_nat (length ps) ≤ totalPages
  ∧ (∀ p, p ∈ ps → isEllipsis p = true → number p = 0)
  ∧ (∀ j p q, ps !! j = Some p → ps !! S j = Some q →
              isEllipsis p = true → isEllipsis q = false).
Proof.
  intros Hn. simpl. unfold buildPages.
  destruct (buildPages_upto totalPages currentPage (Z.to_nat totalPages))
    as (Hlen & Hhead & Hno & Hnum).
  rewrite Z2Nat.id in * by lia. simpl in *.
  set (ps := foldl _ [] (seqZ 0 totalPages)) in *.
  split; [|split; [|split; [|split]]].
  - rewrite head_lookup. apply Hhead. lia.
  - subst ps. replace totalPages with (Z.of_nat (S (Z.to_nat (totalPages - 1)))) at 2 by lia.
    rewrite seqZ_S, foldl_app. simpl foldl. unfold pageStep at 1.
    assert (Hlast : isHiddenPage totalPages currentPage
                      (0 + Z.of_nat (Z.to_nat (totalPages - 1))) = false).
    { unfold isHiddenPage.
      destruct (Z.ltb_spec (0 + Z.of_nat (Z.to_nat (totalPages - 1)) + 1) totalPages);
        [lia|]. by rewrite andb_false_r. }
    rewrite Hlast, last_snoc. do 2 f_equal. lia.
  - lia.
  - intros p Hp. by apply (proj1 (Forall_forall _ _) Hnum).
  - intros j p q. by apply noTwoEllipses_lookup.
Qed.

Lemma buildPages_shape_demo :
  head (buildPages 10 4) = Some {| number := 1; isEllipsis := false |}
  ∧ last (buildPages 10 4) = Some {| number := 10; isEllipsis := false |}
  ∧ Z.of_nat (length (buildPages 10 4)) ≤ 10.
Proof.
  destruct (buildPages_shape 10 4) as (Hhead & Hlast & Hlen & _); [lia|].
  split; [exact Hhead|]. split; [exact Hlast | exact Hlen].
Defined.

(** ** The ellipsis that is left out *)

Section Gap.
Context (totalPages currentPage : Z).

Lemma isHiddenPage_true i :
  0 < i → i + 1 < totalPages → (currentPage + 1 < i + 1 ∨ i + 1 < currentPage - 1) →
  isHiddenPage totalPages currentPage i = true.
Proof.
  intros H1 H2 H3. unfold isHiddenPage.
  repeat match goal with
         | |- context [?a <? ?b] => destruct (Z.ltb_spec a b)
         end; simpl; try reflexivity; lia.
Qed.

Lemma isHiddenPage_false i :
  i ≤ 0 ∨ totalPages ≤ i + 1 ∨ currentPage - 1 ≤ i + 1 ≤ currentPage + 1 →
  isHiddenPage totalPages currentPage i = false.
Proof.
  intros H. unfold isHiddenPage.
  repeat match goal with
         | |- context [?a <? ?b] => destruct (Z.ltb_spec a b)
         end; simpl; try reflexivity; lia.
Qed.

(** A run of hidden pages over which the array has no entry at [i - 1],
    or an ellipsis there: the loop leaves the array as it is. *)
Lemma hidden_run ps (len : nat) : ∀ a,
  (∀ i, a ≤ i < a + Z.of_nat len →
        isHiddenPage totalPages currentPage i = true
        ∧ match ps !! Z.to_nat (i - 1) with Some p => isEllipsis p = true | None => True end) →
  foldl (pageStep totalPages currentPage) ps (seqZ a (Z.of_nat len)) = ps.
Proof.
  induction len as [|len IH]; intros a H; [done|].
  rewrite seqZ_cons by lia. simpl.
  destruct (H a ltac:(lia)) as [Hh Hp].
  assert (Hstep : pageStep totalPages currentPage ps a = ps).
  { unfold pageStep. rewrite Hh. destruct (ps !! _) as [p|]; [|done]. by rewrite Hp. }
  rewrite Hstep. replace (Z.pred (Z.of_nat (S len))) with (Z.of_nat len) by lia.
  apply IH. intros i Hi. apply H. lia.
Qed.

End Gap.

(** The gap after the current page.  With at least two pages hidden
    between the first page and the neighbours of the current page, and at
    least one page hidden between these and the last page, the pagination is
    the first page, one ellipsis, the current page between its neighbours,
    and the last page: the pages hidden after the current page get no
    ellipsis, because the loop looks at [pages[i - 1]], an index the array no
    longer has, and not at its last entry. *)
Theorem buildPages_gap_after_current totalPages currentPage :
  5 ≤ currentPage → currentPage + 3 ≤ totalPages →
  buildPages totalPages currentPage
  = [ {| number := 1; isEllipsis := false |};
      {| number := 0; isEllipsis := true |};
      {| number := currentPage - 1; isEllipsis := false |};
      {| number := currentPage; isEllipsis := false |};
      {| number := currentPage + 1; isEllipsis := false |};
      {| number := totalPages; isEllipsis := false |} ].
Proof.
  intros Hc Hn. unfold buildPages.
  replace totalPages with
    (2 + (Z.of_nat (Z.to_nat (currentPage - 4))
          + (3 + (Z.of_nat (Z.to_nat (totalPages - currentPage - 2)) + 1)))) at 2 by lia.
  set (a := Z.of_nat (Z.to_nat (currentPage - 4))).
  set (b := Z.of_nat (Z.to_nat (totalPages - currentPage - 2))).
  assert (Ha : a = currentPage - 4) by lia.
  assert (Hb : b = totalPages - currentPage - 2) by lia.
  rewrite (seqZ_app 0 2 (a + (3 + (b + 1)))) by lia.
  rewrite (seqZ_app (0 + 2) a (3 + (b + 1))) by lia.
  rewrite (seqZ_app (0 + 2 + a) 3 (b + 1)) by lia.
  rewrite (seqZ_app (0 + 2 + a + 3) b 1) by lia.
  rewrite !foldl_app.
  set (step := pageStep totalPages currentPage).
  assert (Hshown : ∀ ps i,
            i ≤ 0 ∨ totalPages ≤ i + 1 ∨ currentPage - 1 ≤ i + 1 ≤ currentPage + 1 →
            step ps i = ps ++ [{| number := i + 1; isEllipsis := false |}]).
  { intros ps i Hi. unfold step, pageStep. by rewrite isHiddenPage_false. }
  assert (Hfirst : foldl step [] (seqZ 0 2)
                   = [{| number := 1; isEllipsis := false |};
                      {| number := 0; isEllipsis := true |}]).
  { change (seqZ 0 2) with [0; 1]. simpl. rewrite (Hshown [] 0) by lia. simpl.
    unfold step, pageStep. rewrite isHiddenPage_true by lia. done. }
  rewrite Hfirst. subst a b.
  unfold step at 4. rewrite hidden_run.
  2:{ intros i Hi. split; [apply isHiddenPage_true; lia|].
      destruct (Z.to_nat (i - 1)) as [|[|j]] eqn:E; simpl; try done. lia. }
  replace (seqZ (0 + 2 + Z.of_nat (Z.to_nat (currentPage - 4))) 3)
    with [currentPage - 2; currentPage - 1; currentPage].
  2:{ rewrite (seqZ_cons _ 3), (seqZ_cons _ (Z.pred 3)), (seqZ_cons _ (Z.pred (Z.pred 3)))
        by lia.
      simpl. repeat f_equal; lia. }
  simpl (foldl _ _ [_; _; _]).
  rewrite (Hshown _ (currentPage - 2)), (Hshown _ (currentPage - 1)),
    (Hshown _ currentPage) by lia.
  simpl.
  unfold step at 2. rewrite hidden_run.
  2:{ intros i Hi. split; [apply isHiddenPage_true; lia|].
      destruct (Z.to_nat (i - 1)) as [|[|[|[|[|j]]]]] eqn:E; simpl; try done; lia. }
  rewrite Hshown by lia. simpl.
  repeat f_equal; lia.
Qed.

Lemma buildPages_gap_after_current_demo :
  buildPages 10 5
  = [ {| number := 1; isEllipsis := false |};
      {| number := 0; isEllipsis := true |};
      {| number := 4; isEllipsis := false |};
      {| number := 5; isEllipsis := false |};
      {| number := 6; isEllipsis := false |};
      {| number := 10; isEllipsis := false |} ].
Proof. apply (buildPages_gap_after_current 10 5); lia. Defined.

(** ** The order of the tasks *)

(** The three answers of the comparison function, each with the tasks
    it is given for. *)
Lemma compareTasks_cases a b :
  (compareTasks a b = -1 ∧ ((item_done a = false ∧ item_done b = true)
                            ∨ (item_done a = item_done b ∧ item_id b < item_id a)))
  ∨ (compareTasks a b = 1 ∧ ((item_done a = true ∧ item_done b = false)
                             ∨ (item_done a = item_done b ∧ item_id a < item_id b)))
  ∨ (compareTasks a b = 0 ∧ item_done a = item_done b ∧ item_id a = item_id b).
Proof.
  destruct a as [da ia ta], b as [db ib tb]. unfold compareTasks, boolLt. simpl.
  destruct da, db; simpl;
    repeat match goal with
           | |- context [?x <? ?y] => destruct (Z.ltb_spec x y)
           end; intuition lia.
Qed.

Lemma compareTasks_comparator : ConsistentComparator compareTasks.
Proof.
  split.
  - intros a. destruct (compareTasks_cases a a) as [[_ H]|[[_ H]|[H _]]]; [| |done];
      destruct H as [[? ?]|[_ ?]]; try congruence; lia.
  - intros a b.
    destruct (compareTasks_cases a b) as [[-> H1]|[[-> H1]|[-> H1]]],
             (compareTasks_cases b a) as [[-> H2]|[[-> H2]|[-> H2]]]; simpl; try done;
      exfalso; intuition (try congruence; try lia).
  - intros a b c' Hab Hbc.
    destruct (compareTasks_cases a b) as [[E1 H1]|[[E1 H1]|[E1 H1]]];
      rewrite E1 in Hab; try lia;
    destruct (compareTasks_cases b c') as [[E2 H2]|[[E2 H2]|[E2 H2]]];
      rewrite E2 in Hbc; try lia;
    destruct (compareTasks_cases a c') as [[E3 H3]|[[E3 H3]|[E3 H3]]];
      rewrite E3; try lia;
      exfalso; intuition (try congruence; try lia).
Qed.

Lemma compareTasks_le a b : compareTasks a b ≤ 0 ↔ undoneThenNewest a b.
Proof.
  unfold undoneThenNewest.
  destruct (compareTasks_cases a b) as [[-> H]|[[-> H]|[-> H]]];
    split; try done; try lia; intuition (try congruence; try lia).
Qed.

(** The comparison function of [sortTasks] is a consistent comparator:
    it answers only -1, 0 and 1; a task compares equal to itself; swapping
    the arguments swaps the sign; "not greater" is transitive.  It answers 0
    exactly for two tasks of the same state and identity, and "not greater"
    is the order "not done first, then the greater identity first". *)
Theorem compareTasks_consistent :
  ConsistentComparator compareTasks
  ∧ (∀ a b, compareTasks a b = -1 ∨ compareTasks a b = 0 ∨ compareTasks a b = 1)
  ∧ (∀ a b, compareTasks a b = 0 ↔ item_done a = item_done b ∧ item_id a = item_id b)
  ∧ (∀ a b, compareTasks a b ≤ 0 ↔ undoneThenNewest a b).
Proof.
  split; [apply compareTasks_comparator|]. split; [|split].
  - intros a b. destruct (compareTasks_cases a b) as [[-> _]|[[-> _]|[-> _]]]; auto.
  - intros a b. destruct (compareTasks_cases a b) as [[-> H]|[[-> H]|[-> H]]];
      split; try done; intuition (try congruence; try lia).
  - apply compareTasks_le.
Qed.

Lemma sorted_impl {A} (R R' : A → A → Prop) l :
  StronglySorted R l → (∀ a b, R a b → R' a b) → StronglySorted R' l.
Proof.
  intros Hs HR. induction Hs as [|a l _ IH Ha]; constructor; [done|].
  eapply Forall_impl; [exact Ha|]. apply HR.
Qed.

(** Under the contract of [Array.prototype.sort]: [sortTasks] returns,
    and leaves in [this.tasks], the tasks it found there, permuted so that
    the tasks that are not done come before those that are and, among tasks
    of the same state, a task with a greater identity comes first; every
    other field of the data is kept.  On [null] it returns [undefined] and
    changes nothing. *)
Theorem sortTasks_orders sort (this : TaskList TaskItem) :
  SortContract sort →
  match tasks this with
  | None => sortTasks sort this = (this, None)
  | Some l =>
      ∃ sorted, (sortTasks sort this).2 = Some sorted
        ∧ tasks (sortTasks sort this).1 = Some sorted
        ∧ sorted ≡ₚ l
        ∧ StronglySorted undoneThenNewest sorted
        ∧ pages (sortTasks sort this).1 = pages this
        ∧ currentPage (sortTasks sort this).1 = currentPage this
        ∧ showTaskSearch (sortTasks sort this).1 = showTaskSearch this
        ∧ searchTerm (sortTasks sort this).1 = searchTerm this
  end.
Proof.
  intros Hsort. unfold sortTasks. destruct (tasks this) as [l|]; [|done].
  destruct (Hsort compareTasks l compareTasks_comparator) as [Hperm Hsorted].
  exists (sort compareTasks l). simpl. repeat split; try done.
  eapply sorted_impl; [exact Hsorted|]. intros a b. apply compareTasks_le.
Qed.

Lemma mergeSort_contract {A} : SortContract (@mergeSort A).
Proof.
  intros cmp l [Hrefl Hanti Htrans]. unfold mergeSort.
  assert (Htr : Transitive (λ a b : A, cmp a b ≤ 0)).
  { intros a b c'. apply Htrans. }
  assert (Htot : Total (λ a b : A, cmp a b ≤ 0)).
  { intros a b. specialize (Hanti a b). lia. }
  split; [apply merge_sort_Permutation | by apply StronglySorted_merge_sort].
Qed.

Lemma sortTasks_orders_demo :
  ∃ sorted, (sortTasks mergeSort demoList).2 = Some sorted
    ∧ sorted ≡ₚ demoTasks ∧ StronglySorted undoneThenNewest sorted.
Proof.
  destruct (sortTasks_orders mergeSort demoList mergeSort_contract)
    as (sorted & Hret & _ & Hperm & Hsorted & _).
  exists sorted. auto.
Defined.
